(** * unity-mcp-server: the connection core

    A shallow embedding of
      - packages/core/src/unity/unity-ipc.ts
          (UnityIPC: rendezvous naming, socket life cycle, request
           correlation; UnityProcessDetector: process-table parsing), and
      - packages/core/src/connection/connection-manager.ts
          (UnityConnectionManager: registry of project connections),
      - packages/core/src/tools/status-tools.ts and tool-registry.ts
          (the tools built on the manager, and their registry),
    together with the properties the specification states about them and
    further properties of the code.

    Conventions.  A JavaScript string is a [string] whose characters are
    read as UTF-16 code units below 256; functions that only look at code
    units ([hashCode]) are also given over arbitrary lists of code units.
    A JavaScript object that is shared by reference (a UnityIPC instance,
    a UnityConnection record, a socket, a timer, a promise) lives in a
    store of the [World] and is named by its key there. *)

From stdpp Require Import gmap strings list fin_maps pretty.
From Stdlib Require Import ZArith Lia Ascii.

Local Open Scope Z_scope.

(** ** JavaScript numbers and strings *)

Module Js.

(** ToInt32 of an integral number. *)
Definition toInt32 (z : Z) : Z := (z + 2 ^ 31) mod 2 ^ 32 - 2 ^ 31.

(** [a << n] *)
Definition shl (a n : Z) : Z := toInt32 (Z.shiftl (toInt32 a) (n mod 32)).

(** [a & b] *)
Definition and (a b : Z) : Z := Z.land (toInt32 a) (toInt32 b).

(** [str.charCodeAt(i)] for every [i] in turn. *)
Definition charCodes (s : string) : list Z :=
  (λ c, Z.of_nat (nat_of_ascii c)) <$> String.list_ascii_of_string s.

(** [n.toString()] of a non-negative integral number below 2^53. *)
Definition toString (n : Z) : string := pretty (Z.to_N n).

(** Truthiness of a string: only the empty string is falsy. *)
Definition truthy_str (s : string) : bool := negb (String.eqb s "").

End Js.

(** ** Rendezvous naming (unity-ipc.ts, constructor, connect, hashCode) *)

Module Naming.

(** One turn of the loop of [hashCode]:
      hash = ((hash << 5) - hash) + char;  hash = hash & hash;
    The subtraction and the addition are on doubles; their operands are
    below 2^33 in absolute value, so they are exact. *)
Definition hashStep (hash char : Z) : Z :=
  let hash := (Js.shl hash 5 - hash) + char in
  Js.and hash hash.

(** [hashCode] over the code units of the string. *)
Definition hashCodeUnits (str : list Z) : Z := fold_left hashStep str 0.

Definition hashCode (str : string) : Z := hashCodeUnits (Js.charCodes str).

(** The constructor:
      projectHash = Math.abs(this.hashCode(projectPath)).toString();
      this.pipeName = `unity-mcp-${projectHash}`; *)
Definition pipeName (projectPath : string) : string :=
  "unity-mcp-" +:+ Js.toString (Z.abs (hashCode projectPath)).

(** The path handed to [net.createConnection] in [connect];
    [platform] is [process.platform]. *)
Definition pipePath (platform name : string) : string :=
  if String.eqb platform "win32" then "\\.\pipe\" +:+ name
  else "/tmp/" +:+ name.

Definition rendezvous (platform projectPath : string) : string :=
  pipePath platform (pipeName projectPath).

(** The textbook polynomial the loop computes modulo 2^32. *)
Definition poly31 (str : list Z) : Z := fold_left (λ h c, 31 * h + c) str 0.

End Naming.

(** ** String primitives used by the process detector *)

Module JsString.

Definition dquote : ascii := ascii_of_nat 34.
Definition newline : ascii := ascii_of_nat 10.
Definition comma : ascii := ascii_of_nat 44.

(** White space and line terminators (the class \s of regular expressions
    and the characters [trim] removes), among code units below 256. *)
Definition isWhiteSpace (c : ascii) : bool :=
  let n := nat_of_ascii c in
  bool_decide (n = 9 ∨ n = 10 ∨ n = 11 ∨ n = 12 ∨ n = 13 ∨ n = 32 ∨ n = 160)%nat.

Fixpoint takeWhile (f : ascii → bool) (s : string) : string :=
  match s with
  | String c s' => if f c then String c (takeWhile f s') else ""
  | EmptyString => ""
  end.

Fixpoint dropWhile (f : ascii → bool) (s : string) : string :=
  match s with
  | String c s' => if f c then dropWhile f s' else s
  | EmptyString => ""
  end.

Definition trimStart (s : string) : string := dropWhile isWhiteSpace s.
Definition trimEnd (s : string) : string :=
  String.rev (dropWhile isWhiteSpace (String.rev s)).
Definition trim (s : string) : string := trimEnd (trimStart s).

(** [s.startsWith(p)], and the rest of [s] after [p]. *)
Fixpoint stripPrefix (p s : string) : option string :=
  match p, s with
  | EmptyString, _ => Some s
  | String a p', String b s' =>
      if Ascii.eqb a b then stripPrefix p' s' else None
  | String _ _, EmptyString => None
  end.

Definition startsWith (p s : string) : bool :=
  bool_decide (is_Some (stripPrefix p s)).

(** [s.includes(p)] *)
Fixpoint includes (p s : string) : bool :=
  startsWith p s ||
  match s with String _ s' => includes p s' | EmptyString => false end.

Definition consHead (c : ascii) (l : list string) : list string :=
  match l with
  | h :: t => String c h :: t
  | [] => [String c ""]
  end.

(** [s.split(sep)] for a one-character separator. *)
Fixpoint split (sep : ascii) (s : string) : list string :=
  match s with
  | EmptyString => [""]
  | String c s' =>
      if Ascii.eqb c sep then "" :: split sep s' else consHead c (split sep s')
  end.

(** [s.split(/\s+/)]: every maximal run of white space separates two
    fields; a run at either end leaves an empty field there. *)
Fixpoint splitWsFrom (inRun : bool) (s : string) : list string :=
  match s with
  | EmptyString => [""]
  | String c s' =>
      if isWhiteSpace c
      then (if inRun then splitWsFrom true s' else "" :: splitWsFrom true s')
      else consHead c (splitWsFrom false s')
  end.

Definition splitWs (s : string) : list string := splitWsFrom false s.

(** [parts.join(sep)] *)
Definition join (sep : string) (parts : list string) : string :=
  String.concat sep parts.

(** The value of a digit in the given radix. *)
Definition digitValue (radix : Z) (c : ascii) : option Z :=
  let n := Z.of_nat (nat_of_ascii c) in
  let d := if bool_decide (48 <= n <= 57) then n - 48
           else if bool_decide (97 <= n <= 122) then n - 87
           else if bool_decide (65 <= n <= 90) then n - 55
           else 99 in
  if bool_decide (d < radix) then Some d else None.

(** The leading digits of [s], most significant first. *)
Fixpoint leadingDigits (radix : Z) (s : string) : list Z :=
  match s with
  | String c s' =>
      match digitValue radix c with
      | Some d => d :: leadingDigits radix s'
      | None => []
      end
  | EmptyString => []
  end.

(** [parseInt(s)] with no radix argument; [None] is NaN.  The result is
    the mathematical integer, which is the double JavaScript returns
    whenever it is below 2^53 in absolute value. *)
Definition parseInt (s : string) : option Z :=
  let s := trimStart s in
  let '(sign, s) :=
    match s with
    | String c s' =>
        if Ascii.eqb c "-" then (-1, s')
        else if Ascii.eqb c "+" then (1, s') else (1, s)
    | EmptyString => (1, s)
    end in
  let '(radix, s) :=
    match stripPrefix "0x" s, stripPrefix "0X" s with
    | Some s', _ | None, Some s' => (16, s')
    | None, None => (10, s)
    end in
  match leadingDigits radix s with
  | [] => None
  | ds => Some (sign * fold_left (λ a d, a * radix + d) ds 0)
  end.

(** Truthiness of a number: NaN and zero are falsy. *)
Definition truthy_num (n : option Z) : bool :=
  match n with Some z => negb (z =? 0) | None => false end.

End JsString.

(** ** Process detection (unity-ipc.ts, UnityProcessDetector) *)

Module Detector.
Import JsString.

Record UnityProcess := {
  pid : Z;
  projectPath : string;
  commandLine : string;
}.

(** A JavaScript call either returns or throws. *)
Inductive Completion (A : Type) :=
| Return (a : A)
| Throw (e : string).
Arguments Return {A} a.
Arguments Throw {A} e.

(** What the operating system answers to the enumeration command:
    the dynamic import of child_process fails, [execSync] throws (the
    command cannot be started, times out, or exits with a non-zero
    status), or it returns the text the command printed. *)
Inductive ExecResult :=
| ImportFails (e : string)
| ExecThrows (e : string)
| Output (output : string).

Definition notQuote (c : ascii) : bool := negb (Ascii.eqb c dquote).

Definition lastChar (s : string) : string :=
  match String.rev s with
  | String c _ => String c ""
  | EmptyString => ""
  end.

(** The regular expression /-projectPath\s+"?([^"]+)"?/ tried at the start
    of [s]; the result is capture group 1.  All quantifiers are greedy:
    \s+ first takes the whole run of white space and "? a quote if one
    follows.  When the group then finds no character, the quote is given
    back (the group still finds none, it faces that quote or the end), and
    then one white-space character is, if the run has two or more: the
    group takes it and stops at the quote or the end. *)
Definition matchHere (s : string) : option string :=
  match stripPrefix "-projectPath" s with
  | None => None
  | Some r =>
      let ws := takeWhile isWhiteSpace r in
      let rest := dropWhile isWhiteSpace r in
      if bool_decide (ws = "") then None
      else
        let afterQuote :=
          match rest with
          | String c rest' => if Ascii.eqb c dquote then rest' else rest
          | EmptyString => rest
          end in
        let group := takeWhile notQuote afterQuote in
        if bool_decide (group ≠ "") then Some group
        else if bool_decide (2 ≤ String.length ws)%nat then Some (lastChar ws)
        else None
  end.

(** [commandLine.match(re)]: the leftmost position where the expression
    matches. *)
Fixpoint regexMatch (s : string) : option string :=
  match matchHere s with
  | Some group => Some group
  | None =>
      match s with
      | String _ s' => regexMatch s'
      | EmptyString => None
      end
  end.

(** extractProjectPath: [match ? match[1].trim() : null] *)
Definition extractProjectPath (commandLine : string) : option string :=
  match regexMatch commandLine with
  | Some group => Some (trim group)
  | None => None
  end.

(** The body of the loop of [parseUnixProcessOutput] for one line:
    the process it pushes, if any. *)
Definition unixLine (line : string) : option UnityProcess :=
  let parts := splitWs line in
  if bool_decide (11 ≤ length parts)%nat then
    let pid := parseInt (default "" (parts !! 1%nat)) in
    let commandLine := join " " (drop 10 parts) in
    if truthy_num pid && includes "-projectPath" commandLine then
      match extractProjectPath commandLine with
      | Some projectPath =>
          if Js.truthy_str projectPath
          then Some {| pid := default 0 pid; projectPath := projectPath;
                       commandLine := commandLine |}
          else None
      | None => None
      end
    else None
  else None.

(** The body of the loop of [parseWindowsProcessOutput] for one line. *)
Definition windowsLine (line : string) : option UnityProcess :=
  let parts := split comma line in
  if bool_decide (3 ≤ length parts)%nat then
    let commandLine := trim (default "" (parts !! 1%nat)) in
    let pid := parseInt (trim (default "" (parts !! 2%nat))) in
    if Js.truthy_str commandLine && truthy_num pid
       && includes "-projectPath" commandLine then
      match extractProjectPath commandLine with
      | Some projectPath =>
          if Js.truthy_str projectPath
          then Some {| pid := default 0 pid; projectPath := projectPath;
                       commandLine := commandLine |}
          else None
      | None => None
      end
    else None
  else None.

(** [for (const line of lines) { ... processes.push(...) ... }] *)
Definition pushEach (body : string → option UnityProcess)
    (lines : list string) : list UnityProcess :=
  fold_left
    (λ processes line,
       match body line with
       | Some p => processes ++ [p]
       | None => processes
       end)
    lines [].

Definition unixLines (output : string) : list string :=
  List.filter (λ line, Js.truthy_str (trim line)) (split newline output).

Definition windowsLines (output : string) : list string :=
  List.filter
    (λ line, Js.truthy_str (trim line) && negb (startsWith "Node" line))
    (split newline output).

Definition parseUnixProcessOutput (output : string) : list UnityProcess :=
  pushEach unixLine (unixLines output).

Definition parseWindowsProcessOutput (output : string) : list UnityProcess :=
  pushEach windowsLine (windowsLines output).

(** findUnixUnityProcesses: the import is outside its try block, the
    call of [execSync] and the parse are inside. *)
Definition findUnixUnityProcesses (r : ExecResult)
    : Completion (list UnityProcess) :=
  match r with
  | ImportFails e => Throw e
  | ExecThrows _ => Return []
  | Output output => Return (parseUnixProcessOutput output)
  end.

Definition findWindowsUnityProcesses (r : ExecResult)
    : Completion (list UnityProcess) :=
  match r with
  | ImportFails e => Throw e
  | ExecThrows _ => Return []
  | Output output => Return (parseWindowsProcessOutput output)
  end.

(** findUnityProcesses: whatever the platform branch throws is caught,
    logged, and answered with the empty list. *)
Definition findUnityProcesses (platform : string) (r : ExecResult)
    : Completion (list UnityProcess) :=
  let attempt :=
    if String.eqb platform "win32" then findWindowsUnityProcesses r
    else findUnixUnityProcesses r in
  match attempt with
  | Return processes => Return processes
  | Throw _ => Return []
  end.





(** Sample input: a row of ps aux with the given command line, and a
    quoted argument. *)
Definition psLine (cmd : string) : string :=
  "user 4242 0.0 1.2 100 200 ? Sl 10:00 0:01 " +:+ cmd.

Definition quoted (s : string) : string :=
  String dquote s +:+ String dquote "".

End Detector.
(** ** The object store shared by UnityIPC and UnityConnectionManager *)

Module Core.

(** A JavaScript value held in a peer-state payload. *)
Inductive JsVal :=
| JUndefined
| JNull
| JBool (b : bool)
| JNum (z : Z)
| JStr (s : string).

#[global] Instance JsVal_eq_dec : EqDecision JsVal.
Proof. solve_decision. Defined.

Definition truthy (v : JsVal) : bool :=
  match v with
  | JUndefined | JNull => false
  | JBool b => b
  | JNum z => negb (z =? 0)
  | JStr s => Js.truthy_str s
  end.

(** An object read by property name; a property that is absent reads as
    undefined. *)
Definition Obj := gmap string JsVal.
Definition prop (o : Obj) (k : string) : JsVal := default JUndefined (o !! k).

(** unity-ipc.ts, interface UnityIPCMessage.  [msg_data] is [None] when the
    payload is undefined or null (reading a property of it throws). *)
Record UnityIPCMessage := {
  msg_id : option string;
  msg_command : option string;
  msg_type : option string;
  msg_data : option Obj;
  msg_parameters : option Obj;
  msg_success : option bool;
  msg_error : option string;
  msg_timestamp : option Z;
}.

#[global] Instance UnityIPCMessage_eq_dec : EqDecision UnityIPCMessage.
Proof. unfold Obj. solve_decision. Defined.

(** The state of the promise returned by [sendCommand]. *)
Inductive Outcome :=
| Pending
| Resolved (response : UnityIPCMessage)
| Rejected (message : string).

#[global] Instance Outcome_eq_dec : EqDecision Outcome.
Proof. solve_decision. Defined.

(** A net.Socket as Node drives it: [SockDestroyed] is a socket on which
    [destroy()] was called (or an error occurred) and whose close event is
    still to be emitted. *)
Inductive SockState := SockConnecting | SockOpen | SockDestroyed | SockClosed.

Record Socket := {
  owner : nat;          (* the UnityIPC whose listeners are attached *)
  path : string;
  state : SockState;
}.

(** The callbacks handed to [setTimeout], with what they close over. *)
Inductive Timer :=
| ConnectTimeout (this : nat)
| CommandTimeout (this : nat) (messageId command : string) (promise : nat)
| ReconnectTimer (this : nat).

(** The fields of a UnityIPC instance.  [messageHandlers] maps a message
    id to the promise whose [resolve] it stores; [listeners] is the
    connection record that [setupUnityIPCHandlers] bound its listeners
    to, if it was called on this instance. *)
Record UnityIPC := {
  socket : option nat;
  isConnected : bool;
  ipc_projectPath : string;
  pipeName : string;
  reconnectTimer : option nat;
  messageHandlers : gmap string nat;
  listeners : option nat;
}.

Inductive Status := StConnected | StProjectOnly | StDisconnected | StError.

#[global] Instance Status_eq_dec : EqDecision Status.
Proof. solve_decision. Defined.

(** connection-manager.ts, the record built in [connectToProject]. *)
Record UnityConnection := {
  projectPath : string;
  unityVersion : string;
  editorPID : option Z;
  status : Status;
  lastHeartbeat : Z;
  targetPlatform : string;
  projectName : string;
  isPlaying : JsVal;
  isCompiling : JsVal;
}.

Record UnityProjectInfo := {
  info_projectName : string;
  info_unityVersion : string;
  info_targetPlatform : string;
}.

(** Events emitted by the connection manager; a connection record is
    passed by reference. *)
Inductive Emitted :=
| projectConnected (connection : nat)
| projectDisconnected (connection : nat)
| unityStateUpdate (projectPath : string) (state : Obj)
| playModeChanged (projectPath : string) (data : Obj)
| sceneOpened (projectPath : string) (data : option Obj)
| activeProjectChanged (previous : option string) (current : string)
| connectionError (connection : nat).

(** A JavaScript Map with string keys, in insertion order. *)
Definition JsMap (V : Type) := list (string * V).

Fixpoint mapGet {V} (k : string) (m : JsMap V) : option V :=
  match m with
  | [] => None
  | (k', v) :: m' => if String.eqb k k' then Some v else mapGet k m'
  end.

Fixpoint mapSet {V} (k : string) (v : V) (m : JsMap V) : JsMap V :=
  match m with
  | [] => [(k, v)]
  | (k', v') :: m' =>
      if String.eqb k k' then (k', v) :: m' else (k', v') :: mapSet k v m'
  end.

Fixpoint mapDelete {V} (k : string) (m : JsMap V) : JsMap V :=
  match m with
  | [] => []
  | (k', v') :: m' =>
      if String.eqb k k' then m' else (k', v') :: mapDelete k m'
  end.

(** Everything the two classes and the Node runtime hold. *)
Record World := {
  platform : string;                      (* process.platform *)
  now : Z;                                (* what new Date() reads *)
  ipcs : gmap nat UnityIPC;               (* UnityIPC instances *)
  sockets : gmap nat Socket;              (* sockets ever created *)
  timers : gmap nat Timer;                (* timeouts not yet fired *)
  promises : gmap nat Outcome;            (* promises of sendCommand *)
  settled : list (nat * Outcome);         (* calls of resolve and reject *)
  written : list (nat * UnityIPCMessage); (* socket.write, oldest first *)
  connections : JsMap nat;                (* manager: path to record *)
  unityIPCConnections : gmap string nat;  (* manager: path to UnityIPC *)
  activeConnection : option string;
  conns : gmap nat UnityConnection;       (* UnityConnection records *)
  emitted : list Emitted;                 (* manager events, oldest first *)
}.

Definition initial (platform : string) : World :=
  {| platform := platform; now := 0; ipcs := ∅; sockets := ∅; timers := ∅;
     promises := ∅; settled := []; written := [];
     connections := []; unityIPCConnections := ∅; activeConnection := None;
     conns := ∅; emitted := [] |}.

(** Field updates. *)
Definition ipc_with_socket v (x : UnityIPC) : UnityIPC :=
  {| socket := v; isConnected := isConnected x; ipc_projectPath := ipc_projectPath x; pipeName := pipeName x; reconnectTimer := reconnectTimer x; messageHandlers := messageHandlers x; listeners := listeners x |}.
Definition ipc_with_isConnected v (x : UnityIPC) : UnityIPC :=
  {| socket := socket x; isConnected := v; ipc_projectPath := ipc_projectPath x; pipeName := pipeName x; reconnectTimer := reconnectTimer x; messageHandlers := messageHandlers x; listeners := listeners x |}.
Definition ipc_with_reconnectTimer v (x : UnityIPC) : UnityIPC :=
  {| socket := socket x; isConnected := isConnected x; ipc_projectPath := ipc_projectPath x; pipeName := pipeName x; reconnectTimer := v; messageHandlers := messageHandlers x; listeners := listeners x |}.
Definition ipc_with_messageHandlers v (x : UnityIPC) : UnityIPC :=
  {| socket := socket x; isConnected := isConnected x; ipc_projectPath := ipc_projectPath x; pipeName := pipeName x; reconnectTimer := reconnectTimer x; messageHandlers := v; listeners := listeners x |}.
Definition ipc_with_listeners v (x : UnityIPC) : UnityIPC :=
  {| socket := socket x; isConnected := isConnected x; ipc_projectPath := ipc_projectPath x; pipeName := pipeName x; reconnectTimer := reconnectTimer x; messageHandlers := messageHandlers x; listeners := v |}.
Definition conn_with_editorPID v (x : UnityConnection) : UnityConnection :=
  {| projectPath := projectPath x; unityVersion := unityVersion x; editorPID := v; status := status x; lastHeartbeat := lastHeartbeat x; targetPlatform := targetPlatform x; projectName := projectName x; isPlaying := isPlaying x; isCompiling := isCompiling x |}.
Definition conn_with_status v (x : UnityConnection) : UnityConnection :=
  {| projectPath := projectPath x; unityVersion := unityVersion x; editorPID := editorPID x; status := v; lastHeartbeat := lastHeartbeat x; targetPlatform := targetPlatform x; projectName := projectName x; isPlaying := isPlaying x; isCompiling := isCompiling x |}.
Definition conn_with_lastHeartbeat v (x : UnityConnection) : UnityConnection :=
  {| projectPath := projectPath x; unityVersion := unityVersion x; editorPID := editorPID x; status := status x; lastHeartbeat := v; targetPlatform := targetPlatform x; projectName := projectName x; isPlaying := isPlaying x; isCompiling := isCompiling x |}.
Definition conn_with_isPlaying v (x : UnityConnection) : UnityConnection :=
  {| projectPath := projectPath x; unityVersion := unityVersion x; editorPID := editorPID x; status := status x; lastHeartbeat := lastHeartbeat x; targetPlatform := targetPlatform x; projectName := projectName x; isPlaying := v; isCompiling := isCompiling x |}.
Definition conn_with_isCompiling v (x : UnityConnection) : UnityConnection :=
  {| projectPath := projectPath x; unityVersion := unityVersion x; editorPID := editorPID x; status := status x; lastHeartbeat := lastHeartbeat x; targetPlatform := targetPlatform x; projectName := projectName x; isPlaying := isPlaying x; isCompiling := v |}.
Definition with_now v (x : World) : World :=
  {| platform := platform x; now := v; ipcs := ipcs x; sockets := sockets x; timers := timers x; promises := promises x; settled := settled x; written := written x; connections := connections x; unityIPCConnections := unityIPCConnections x; activeConnection := activeConnection x; conns := conns x; emitted := emitted x |}.
Definition with_ipcs v (x : World) : World :=
  {| platform := platform x; now := now x; ipcs := v; sockets := sockets x; timers := timers x; promises := promises x; settled := settled x; written := written x; connections := connections x; unityIPCConnections := unityIPCConnections x; activeConnection := activeConnection x; conns := conns x; emitted := emitted x |}.
Definition with_sockets v (x : World) : World :=
  {| platform := platform x; now := now x; ipcs := ipcs x; sockets := v; timers := timers x; promises := promises x; settled := settled x; written := written x; connections := connections x; unityIPCConnections := unityIPCConnections x; activeConnection := activeConnection x; conns := conns x; emitted := emitted x |}.
Definition with_timers v (x : World) : World :=
  {| platform := platform x; now := now x; ipcs := ipcs x; sockets := sockets x; timers := v; promises := promises x; settled := settled x; written := written x; connections := connections x; unityIPCConnections := unityIPCConnections x; activeConnection := activeConnection x; conns := conns x; emitted := emitted x |}.
Definition with_promises v (x : World) : World :=
  {| platform := platform x; now := now x; ipcs := ipcs x; sockets := sockets x; timers := timers x; promises := v; settled := settled x; written := written x; connections := connections x; unityIPCConnections := unityIPCConnections x; activeConnection := activeConnection x; conns := conns x; emitted := emitted x |}.
Definition with_settled v (x : World) : World :=
  {| platform := platform x; now := now x; ipcs := ipcs x; sockets := sockets x; timers := timers x; promises := promises x; settled := v; written := written x; connections := connections x; unityIPCConnections := unityIPCConnections x; activeConnection := activeConnection x; conns := conns x; emitted := emitted x |}.
Definition with_written v (x : World) : World :=
  {| platform := platform x; now := now x; ipcs := ipcs x; sockets := sockets x; timers := timers x; promises := promises x; settled := settled x; written := v; connections := connections x; unityIPCConnections := unityIPCConnections x; activeConnection := activeConnection x; conns := conns x; emitted := emitted x |}.
Definition with_connections v (x : World) : World :=
  {| platform := platform x; now := now x; ipcs := ipcs x; sockets := sockets x; timers := timers x; promises := promises x; settled := settled x; written := written x; connections := v; unityIPCConnections := unityIPCConnections x; activeConnection := activeConnection x; conns := conns x; emitted := emitted x |}.
Definition with_unityIPCConnections v (x : World) : World :=
  {| platform := platform x; now := now x; ipcs := ipcs x; sockets := sockets x; timers := timers x; promises := promises x; settled := settled x; written := written x; connections := connections x; unityIPCConnections := v; activeConnection := activeConnection x; conns := conns x; emitted := emitted x |}.
Definition with_activeConnection v (x : World) : World :=
  {| platform := platform x; now := now x; ipcs := ipcs x; sockets := sockets x; timers := timers x; promises := promises x; settled := settled x; written := written x; connections := connections x; unityIPCConnections := unityIPCConnections x; activeConnection := v; conns := conns x; emitted := emitted x |}.
Definition with_conns v (x : World) : World :=
  {| platform := platform x; now := now x; ipcs := ipcs x; sockets := sockets x; timers := timers x; promises := promises x; settled := settled x; written := written x; connections := connections x; unityIPCConnections := unityIPCConnections x; activeConnection := activeConnection x; conns := v; emitted := emitted x |}.
Definition with_emitted v (x : World) : World :=
  {| platform := platform x; now := now x; ipcs := ipcs x; sockets := sockets x; timers := timers x; promises := promises x; settled := settled x; written := written x; connections := connections x; unityIPCConnections := unityIPCConnections x; activeConnection := activeConnection x; conns := conns x; emitted := v |}.
Definition sock_with_state v (x : Socket) : Socket :=
  {| owner := owner x; path := path x; state := v |}.

Definition updateIpc (this : nat) (f : UnityIPC → UnityIPC) (w : World) : World :=
  with_ipcs (alter f this (ipcs w)) w.

Definition updateConn (c : nat) (f : UnityConnection → UnityConnection)
    (w : World) : World :=
  with_conns (alter f c (conns w)) w.

(** [this.messageHandlers.get(id)] on instance [this]. *)
Definition handlerOf (w : World) (this : nat) (id : string) : option nat :=
  o ← ipcs w !! this; messageHandlers o !! id.

(** ** UnityIPC (unity-ipc.ts) *)

(** Listeners bound by [setupUnityIPCHandlers(unityIPC, connection)]
    (connection-manager.ts); [connection] is the record they close over.
    A listener that reads a property of an undefined payload throws before
    it changes anything; the exception ends in the try block of
    [handleIncomingMessage]. *)
Inductive IpcEvent :=
| ev_connected
| ev_disconnected
| ev_unity_event (message : UnityIPCMessage)
| ev_state_update (state : option Obj)
| ev_play_mode_changed (data : option Obj)
| ev_scene_opened (data : option Obj)
| ev_hierarchy_changed (data : option Obj).

Definition pathOf (w : World) (connection : nat) : string :=
  default "" (projectPath <$> conns w !! connection).

Definition setupUnityIPCHandlers (connection : nat) (ev : IpcEvent)
    (w : World) : World :=
  match ev with
  | ev_state_update (Some state) =>
      let w := updateConn connection
                 (λ c, conn_with_lastHeartbeat (now w)
                         (conn_with_isCompiling (prop state "isCompiling")
                            (conn_with_isPlaying (prop state "isPlaying") c))) w in
      with_emitted (emitted w ++ [unityStateUpdate (pathOf w connection) state]) w
  | ev_play_mode_changed (Some data) =>
      let w := updateConn connection
                 (conn_with_isPlaying (prop data "isPlaying")) w in
      with_emitted (emitted w ++ [playModeChanged (pathOf w connection) data]) w
  | ev_scene_opened data =>
      with_emitted (emitted w ++ [sceneOpened (pathOf w connection) data]) w
  | ev_disconnected =>
      updateConn connection
        (λ c, conn_with_editorPID None (conn_with_status StProjectOnly c)) w
  | _ => w
  end.

(** [this.emit(ev, ...)] on a UnityIPC: runs the listeners bound to it. *)
Definition emit (this : nat) (ev : IpcEvent) (w : World) : World :=
  match ipcs w !! this ≫= listeners with
  | Some connection => setupUnityIPCHandlers connection ev w
  | None => w
  end.

(** [new UnityIPC(projectPath, logger)] *)
Definition newUnityIPC (projectPath : string) (w : World) : nat * World :=
  let this := fresh (dom (ipcs w)) in
  (this,
   with_ipcs
     (<[this := {| socket := None; isConnected := false;
                   ipc_projectPath := projectPath;
                   pipeName := Naming.pipeName projectPath;
                   reconnectTimer := None; messageHandlers := ∅;
                   listeners := None |}]> (ipcs w)) w).

(** [setTimeout(callback, ms)]: the handle of the new timer. *)
Definition setTimeout (callback : Timer) (w : World) : nat * World :=
  let t := fresh (dom (timers w)) in
  (t, with_timers (<[t := callback]> (timers w)) w).

Definition clearTimeout (t : nat) (w : World) : World :=
  with_timers (delete t (timers w)) w.

(** [socket.destroy()]: no more I/O; Node will emit close on it. *)
Definition destroy (s : nat) (w : World) : World :=
  with_sockets
    (alter (λ sk, match state sk with
                  | SockConnecting | SockOpen => sock_with_state SockDestroyed sk
                  | _ => sk
                  end) s (sockets w)) w.

(** [connect()]: the synchronous part, which creates the socket, attaches
    the four listeners and starts the 5 s timer. *)
Definition connect (this : nat) (w : World) : World :=
  match ipcs w !! this with
  | None => w
  | Some o =>
      let pipePath := Naming.pipePath (platform w) (pipeName o) in
      let s := fresh (dom (sockets w)) in
      let w := with_sockets
                 (<[s := {| owner := this; path := pipePath;
                            state := SockConnecting |}]> (sockets w)) w in
      let w := updateIpc this (ipc_with_socket (Some s)) w in
      (setTimeout (ConnectTimeout this) w).2
  end.

(** scheduleReconnect *)
Definition scheduleReconnect (this : nat) (w : World) : World :=
  match ipcs w !! this with
  | None => w
  | Some o =>
      match reconnectTimer o with
      | Some _ => w
      | None =>
          let '(t, w) := setTimeout (ReconnectTimer this) w in
          updateIpc this (ipc_with_reconnectTimer (Some t)) w
      end
  end.

(** The listeners [connect()] attaches to its socket. *)
Definition onConnect (this : nat) (w : World) : World :=
  let w := updateIpc this (ipc_with_isConnected true) w in
  emit this ev_connected w.

Definition onError (this : nat) (w : World) : World :=
  updateIpc this (ipc_with_isConnected false) w.

Definition onClose (this : nat) (w : World) : World :=
  let w := updateIpc this (ipc_with_isConnected false) w in
  let w := emit this ev_disconnected w in
  scheduleReconnect this w.

(** The callback of the 5 s timer of [connect()]. *)
Definition onConnectTimeout (this : nat) (w : World) : World :=
  match ipcs w !! this with
  | None => w
  | Some o =>
      if isConnected o then w
      else match socket o with
           | Some s => destroy s w
           | None => w
           end
  end.

(** The callback of the reconnect timer. *)
Definition onReconnectTimer (this : nat) (w : World) : World :=
  let w := updateIpc this (ipc_with_reconnectTimer None) w in
  connect this w.

(** [disconnect()] *)
Definition disconnect (this : nat) (w : World) : World :=
  match ipcs w !! this with
  | None => w
  | Some o =>
      let w := match reconnectTimer o with
               | Some t =>
                   updateIpc this (ipc_with_reconnectTimer None)
                     (clearTimeout t w)
               | None => w
               end in
      let w := match socket o with
               | Some s => updateIpc this (ipc_with_socket None) (destroy s w)
               | None => w
               end in
      updateIpc this (ipc_with_isConnected false) w
  end.

(** Settling a promise: the call is recorded; only a pending promise
    changes state. *)
Definition settle (p : nat) (o : Outcome) (w : World) : World :=
  let w := with_settled (settled w ++ [(p, o)]) w in
  match promises w !! p with
  | Some Pending => with_promises (<[p := o]> (promises w)) w
  | _ => w
  end.

Definition hexDigit (n : N) : ascii :=
  default "0"%char
    (String.list_ascii_of_string "0123456789abcdef" !! N.to_nat n).

(** [crypto.randomBytes(8).toString('hex')]; [rnd] are the bytes drawn. *)
Definition generateMessageId (rnd : list N) : string :=
  String.string_of_list_ascii
    (rnd ≫= λ b, [hexDigit ((b / 16) mod 16); hexDigit (b mod 16)])%N.

(** [sendCommand(command, parameters)]: the promise it returns. *)
Definition sendCommand (this : nat) (command : string) (parameters : Obj)
    (rnd : list N) (w : World) : nat * World :=
  let p := fresh (dom (promises w)) in
  let w := with_promises (<[p := Pending]> (promises w)) w in
  match ipcs w !! this with
  | None => (p, w)
  | Some o =>
      match isConnected o, socket o with
      | true, Some s =>
          let messageId := generateMessageId rnd in
          let message :=
            {| msg_id := Some messageId; msg_command := Some command;
               msg_type := None; msg_data := None;
               msg_parameters := Some parameters; msg_success := None;
               msg_error := None; msg_timestamp := Some (now w) |} in
          let w := updateIpc this
                     (λ o, ipc_with_messageHandlers
                             (<[messageId := p]> (messageHandlers o)) o) w in
          let w := with_written (written w ++ [(s, message)]) w in
          (p, (setTimeout (CommandTimeout this messageId command p) w).2)
      | _, _ => (p, settle p (Rejected "Not connected to Unity Editor") w)
      end
  end.

(** The callback of the 10 s timer of [sendCommand]. *)
Definition onCommandTimeout (this : nat) (messageId command : string)
    (p : nat) (w : World) : World :=
  match handlerOf w this messageId with
  | Some _ =>
      let w := updateIpc this
                 (λ o, ipc_with_messageHandlers
                         (delete messageId (messageHandlers o)) o) w in
      settle p (Rejected ("Command timeout: " +:+ command)) w
  | None => w
  end.

(** [handleIncomingMessage(data)]; [data] is what [JSON.parse] makes of
    the chunk, [None] when it throws. *)
Definition handleIncomingMessage (this : nat)
    (data : option UnityIPCMessage) (w : World) : World :=
  match data with
  | None => w
  | Some message =>
      let matching :=
        id ← msg_id message;
        if Js.truthy_str id then (λ handler, (id, handler)) <$> handlerOf w this id
        else None in
      match matching with
      | Some (id, handler) =>
          let w := updateIpc this
                     (λ o, ipc_with_messageHandlers
                             (delete id (messageHandlers o)) o) w in
          settle handler (Resolved message) w
      | None =>
          match msg_type message with
          | Some type =>
              if Js.truthy_str type then
                let w := emit this (ev_unity_event message) w in
                if String.eqb type "state_update"
                then emit this (ev_state_update (msg_data message)) w
                else if String.eqb type "play_mode_changed"
                then emit this (ev_play_mode_changed (msg_data message)) w
                else if String.eqb type "scene_opened"
                then emit this (ev_scene_opened (msg_data message)) w
                else if String.eqb type "hierarchy_changed"
                then emit this (ev_hierarchy_changed (msg_data message)) w
                else w
              else w
          | None => w
          end
      end
  end.

(** *** What can happen to UnityIPC instances

    Calls by the owner, and the events Node delivers: a socket connects,
    receives a chunk, fails, closes; a timer fires; the clock advances. *)
Inductive IpcStep :=
| New (projectPath : string)
| Connect (this : nat)
| Disconnect (this : nat)
| SendCommand (this : nat) (command : string) (parameters : Obj) (rnd : list N)
| SocketConnects (s : nat)
| SocketData (s : nat) (data : option UnityIPCMessage)
| SocketError (s : nat)
| SocketCloses (s : nat)
| TimerFires (t : nat)
| ClockAdvances (time : Z).

Definition setSockState (s : nat) (st : SockState) (w : World) : World :=
  with_sockets (alter (sock_with_state st) s (sockets w)) w.

Definition fire (callback : Timer) (w : World) : World :=
  match callback with
  | ConnectTimeout this => onConnectTimeout this w
  | CommandTimeout this messageId command p =>
      onCommandTimeout this messageId command p w
  | ReconnectTimer this => onReconnectTimer this w
  end.

(** One step; [None] when Node cannot deliver the event in this world
    (the socket is not in a state for it, the timer is not pending). *)
Definition ipcStep (e : IpcStep) (w : World) : option World :=
  match e with
  | New projectPath => Some (newUnityIPC projectPath w).2
  | Connect this => Some (connect this w)
  | Disconnect this => Some (disconnect this w)
  | SendCommand this command parameters rnd =>
      Some (sendCommand this command parameters rnd w).2
  | SocketConnects s =>
      sk ← sockets w !! s;
      match state sk with
      | SockConnecting => Some (onConnect (owner sk) (setSockState s SockOpen w))
      | _ => None
      end
  | SocketData s data =>
      sk ← sockets w !! s;
      match state sk with
      | SockOpen => Some (handleIncomingMessage (owner sk) data w)
      | _ => None
      end
  | SocketError s =>
      sk ← sockets w !! s;
      match state sk with
      | SockConnecting | SockOpen =>
          Some (onError (owner sk) (setSockState s SockDestroyed w))
      | _ => None
      end
  | SocketCloses s =>
      sk ← sockets w !! s;
      match state sk with
      | SockOpen | SockDestroyed =>
          Some (onClose (owner sk) (setSockState s SockClosed w))
      | _ => None
      end
  | TimerFires t =>
      callback ← timers w !! t;
      Some (fire callback (clearTimeout t w))
  | ClockAdvances time => Some (with_now time w)
  end.

Fixpoint ipcRun (es : list IpcStep) (w : World) : option World :=
  match es with
  | [] => Some w
  | e :: es' => w' ← ipcStep e w; ipcRun es' w'
  end.

(** The message ids drawn by the [sendCommand] calls of a trace. *)
Definition sentIds (es : list IpcStep) : list string :=
  es ≫= λ e, match e with
              | SendCommand _ _ _ rnd => [generateMessageId rnd]
              | _ => []
              end.

(** How often [resolve] or [reject] of promise [p] was called. *)
Definition settleCount (p : nat) (w : World) : nat :=
  length (List.filter (λ x, bool_decide (x.1 = p)) (settled w)).

(** Sample world: one UnityIPC, connected, with one ping in flight. *)
Definition worldPingInFlight : World :=
  default (initial "linux")
    (ipcRun [New "/proj/A"; Connect 0; SocketConnects 0;
             SendCommand 0 "ping" ∅ [1; 2; 3; 4; 5; 6; 7; 8]%N]
       (initial "linux")).

(** ** UnityConnectionManager (connection-manager.ts) *)

Import Detector (Completion, Return, Throw).

(** How the first connection attempt of a fresh UnityIPC ends: the socket
    connects, the socket reports an error, or neither happens before the
    5 s timer fires. *)
Inductive ConnectAttempt := Accepted | Refused | TimedOut.

(** The pending timer whose callback satisfies [P], if there is one. *)
Definition findTimer (P : Timer → bool) (w : World) : option (nat * Timer) :=
  head (List.filter (λ x, P x.2) (map_to_list (timers w))).

Definition isConnectTimeoutOf (this : nat) (tm : Timer) : bool :=
  match tm with
  | ConnectTimeout this' => bool_decide (this' = this)
  | _ => false
  end.

Definition isCommandTimeoutOf (p : nat) (tm : Timer) : bool :=
  match tm with
  | CommandTimeout _ _ _ p' => bool_decide (p' = p)
  | _ => false
  end.

(** Letting the timer found by [P] fire. *)
Definition fireTimer (P : Timer → bool) (w : World) : World :=
  match findTimer P w with
  | Some (t, callback) => fire callback (clearTimeout t w)
  | None => w
  end.

(** [await unityIPC.connect()]: the value the promise resolves with. *)
Definition awaitConnect (unityIPC : nat) (attempt : ConnectAttempt)
    (w : World) : bool * World :=
  let s := fresh (dom (sockets w)) in
  let w := connect unityIPC w in
  match attempt with
  | Accepted => (true, onConnect unityIPC (setSockState s SockOpen w))
  | Refused => (false, onError unityIPC (setSockState s SockDestroyed w))
  | TimedOut => (false, fireTimer (isConnectTimeoutOf unityIPC) w)
  end.

(** getUnityPID *)
Definition getUnityPID (projectPath : string) (procs : Detector.ExecResult)
    (w : World) : option Z :=
  match Detector.findUnityProcesses (platform w) procs with
  | Return processes =>
      Detector.pid <$>
        List.find (λ p, String.eqb (Detector.projectPath p) projectPath)
          processes
  | Throw _ => None
  end.

(** [await unityIPC.getUnityState()]: [reply] is the chunk that arrives
    on the socket while the caller waits, if one does; without a matching
    reply the wait ends when the 10 s timer of the command fires. *)
Definition getUnityState (unityIPC : nat) (rnd : list N)
    (reply : option UnityIPCMessage) (w : World)
    : Completion (option Obj) * World :=
  let '(p, w) := sendCommand unityIPC "get_state" ∅ rnd w in
  let w := match reply with
           | Some m => handleIncomingMessage unityIPC (Some m) w
           | None => w
           end in
  let w := match promises w !! p with
           | Some Pending => fireTimer (isCommandTimeoutOf p) w
           | _ => w
           end in
  match promises w !! p with
  | Some (Resolved response) => (Return (msg_data response), w)
  | Some (Rejected e) => (Throw e, w)
  | _ => (Throw "pending", w)
  end.

(** The check "already connected" of [connectToProject]: the entry of
    the path, when there is one and its status is connected. *)
Definition connectedEntry (projectPath : string) (w : World) : option nat :=
  existing ← mapGet projectPath (connections w);
  r ← conns w !! existing;
  if bool_decide (status r = StConnected) then Some existing else None.

(** connectToProject.  [info] is what [getProjectInfo] finds on disk,
    [None] when it throws. *)
Definition connectToProject (projectPath : string)
    (info : option UnityProjectInfo) (attempt : ConnectAttempt)
    (procs : Detector.ExecResult) (rnd : list N)
    (reply : option UnityIPCMessage) (w : World)
    : Completion nat * World :=
  match info with
  | None => (Throw ("Invalid Unity project: " +:+ projectPath), w)
  | Some projectInfo =>
      match connectedEntry projectPath w with
      | Some c => (Return c, w)
      | None =>
          let '(unityIPC, w) := newUnityIPC projectPath w in
          let '(isUnityRunning, w) := awaitConnect unityIPC attempt w in
          let editorPID :=
            if isUnityRunning then getUnityPID projectPath procs w else None in
          let connection := fresh (dom (conns w)) in
          let w := with_conns
                     (<[connection :=
                          {| projectPath := projectPath;
                             unityVersion := info_unityVersion projectInfo;
                             editorPID := editorPID;
                             status := if isUnityRunning then StConnected
                                       else StProjectOnly;
                             lastHeartbeat := now w;
                             targetPlatform := info_targetPlatform projectInfo;
                             projectName := info_projectName projectInfo;
                             isPlaying := JUndefined;
                             isCompiling := JUndefined |}]> (conns w)) w in
          let w :=
            if isUnityRunning then
              let w := updateIpc unityIPC (ipc_with_listeners (Some connection)) w in
              let w := with_unityIPCConnections
                         (<[projectPath := unityIPC]> (unityIPCConnections w)) w in
              match getUnityState unityIPC rnd reply w with
              | (Return (Some unityState), w) =>
                  updateConn connection
                    (λ c, conn_with_isCompiling (prop unityState "isCompiling")
                            (conn_with_isPlaying (prop unityState "isPlaying") c)) w
              | (_, w) => w
              end
            else w in
          let w := with_connections
                     (mapSet projectPath connection (connections w)) w in
          let w := with_activeConnection (Some projectPath) w in
          let w := with_emitted (emitted w ++ [projectConnected connection]) w in
          (Return connection, w)
      end
  end.

(** disconnectFromProject *)
Definition disconnectFromProject (projectPath : option string) (w : World)
    : Completion () * World :=
  let targetPath :=
    match projectPath with
    | Some path => if Js.truthy_str path then Some path else activeConnection w
    | None => activeConnection w
    end in
  match targetPath with
  | None => (Throw "No project specified and no active connection", w)
  | Some targetPath =>
      if negb (Js.truthy_str targetPath)
      then (Throw "No project specified and no active connection", w)
      else
        match mapGet targetPath (connections w) with
        | None => (Throw ("No connection found for project: " +:+ targetPath), w)
        | Some connection =>
            let w := match unityIPCConnections w !! targetPath with
                     | Some unityIPC =>
                         with_unityIPCConnections
                           (delete targetPath (unityIPCConnections w))
                           (disconnect unityIPC w)
                     | None => w
                     end in
            let w := updateConn connection (conn_with_status StDisconnected) w in
            let w := if bool_decide (activeConnection w = Some targetPath)
                     then with_activeConnection None w else w in
            let w := with_connections (mapDelete targetPath (connections w)) w in
            (Return (),
             with_emitted (emitted w ++ [projectDisconnected connection]) w)
        end
  end.

Inductive PlayModeState := Playing | Stopped | Paused.

Record UnityStatus := {
  status_connections : list nat;
  activeProject : option string;
  status_isCompiling : JsVal;
  playModeState : PlayModeState;
}.

(** getActiveConnection *)
Definition getActiveConnection (w : World) : option UnityConnection :=
  match activeConnection w with
  | Some active =>
      if Js.truthy_str active
      then c ← mapGet active (connections w); conns w !! c
      else None
  | None => None
  end.

(** getStatus *)
Definition getStatus (w : World) : UnityStatus :=
  let connections := (connections w).*2 in
  let isCompiling := JBool false in
  let playModeState := Stopped in
  let '(isCompiling, playModeState) :=
    match activeConnection w with
    | Some active =>
        if Js.truthy_str active then
          match mapGet active (Core.connections w) ≫= λ c, conns w !! c with
          | Some activeConn =>
              (if truthy (Core.isCompiling activeConn)
               then Core.isCompiling activeConn else JBool false,
               if truthy (isPlaying activeConn) then Playing else playModeState)
          | None => (isCompiling, playModeState)
          end
        else (isCompiling, playModeState)
    | None => (isCompiling, playModeState)
    end in
  {| status_connections := connections;
     activeProject := activeConnection w;
     status_isCompiling := isCompiling;
     playModeState := playModeState |}.

(** switchActiveProject *)
Definition switchActiveProject (projectPath : string) (w : World)
    : Completion () * World :=
  match mapGet projectPath (connections w) ≫= λ c, conns w !! c with
  | None => (Throw ("No connection found for project: " +:+ projectPath), w)
  | Some connection =>
      if bool_decide (status connection = StConnected) then
        let previousActive := activeConnection w in
        let w := with_activeConnection (Some projectPath) w in
        (Return (),
         with_emitted
           (emitted w ++
              [activeProjectChanged
                 (match previousActive with
                  | Some a => if Js.truthy_str a then Some a else None
                  | None => None
                  end) projectPath]) w)
      else (Throw ("Project is not connected: " +:+ projectPath), w)
  end.

(** isConnectionHealthy; [access] tells whether [fs.access] succeeds. *)
Definition isConnectionHealthy (access : string → bool)
    (connection : UnityConnection) : bool :=
  if negb (Js.truthy_str (projectPath connection))
     || negb (bool_decide (status connection = StConnected))
  then false
  else access (projectPath connection).

(** The body of the loop of [checkConnectionHealth] for one entry.
    [isConnectionHealthy] catches the failure of [fs.access] itself, so
    the catch clause of the loop body is never entered. *)
Definition checkOne (access : string → bool) (w : World)
    (entry : string * nat) : World :=
  let '(projectPath, connection) := entry in
  match conns w !! connection with
  | None => w
  | Some r =>
      if isConnectionHealthy access r
      then updateConn connection (conn_with_lastHeartbeat (now w)) w
      else
        let w := updateConn connection (conn_with_status StError) w in
        with_emitted (emitted w ++ [connectionError connection]) w
  end.

(** checkConnectionHealth: one sweep over the entries in Map order. *)
Definition checkConnectionHealth (access : string → bool) (w : World) : World :=
  fold_left (checkOne access) (connections w) w.

(** *** What can happen to the manager *)
Inductive Step :=
| Ipc (e : IpcStep)
| ConnectToProject (projectPath : string) (info : option UnityProjectInfo)
    (attempt : ConnectAttempt) (procs : Detector.ExecResult) (rnd : list N)
    (reply : option UnityIPCMessage)
| DisconnectFromProject (projectPath : option string)
| SwitchActiveProject (projectPath : string)
| HealthSweep (access : string → bool).

Definition step (e : Step) (w : World) : option World :=
  match e with
  | Ipc e => ipcStep e w
  | ConnectToProject projectPath info attempt procs rnd reply =>
      Some (connectToProject projectPath info attempt procs rnd reply w).2
  | DisconnectFromProject projectPath =>
      Some (disconnectFromProject projectPath w).2
  | SwitchActiveProject projectPath =>
      Some (switchActiveProject projectPath w).2
  | HealthSweep access => Some (checkConnectionHealth access w)
  end.

Fixpoint run (es : list Step) (w : World) : option World :=
  match es with
  | [] => Some w
  | e :: es' => w' ← step e w; run es' w'
  end.

(** The sockets that are open and belong to a UnityIPC created for
    [target]: the live transports of the target. *)
Definition liveTransports (target : string) (w : World) : list nat :=
  (List.filter
     (λ x, match state x.2, ipcs w !! owner x.2 with
           | SockOpen, Some o => String.eqb (ipc_projectPath o) target
           | _, _ => false
           end)
     (map_to_list (sockets w))).*1.

(** Sample inputs: two projects on disk, two draws of [randomBytes(8)],
    and a peer that reports it is paused in play mode. *)
Definition infoA : UnityProjectInfo :=
  {| info_projectName := "A"; info_unityVersion := "2022.3.10f1";
     info_targetPlatform := "Standalone" |}.
Definition infoB : UnityProjectInfo :=
  {| info_projectName := "B"; info_unityVersion := "2022.3.10f1";
     info_targetPlatform := "Standalone" |}.
Definition rnd1 : list N := [1; 2; 3; 4; 5; 6; 7; 8]%N.
Definition rnd2 : list N := [9; 2; 3; 4; 5; 6; 7; 8]%N.
Definition noProcs : Detector.ExecResult := Detector.ExecThrows "exit 1".

Definition stateReply (id : string) (playing paused : bool) : UnityIPCMessage :=
  {| msg_id := Some id; msg_command := None; msg_type := None;
     msg_data := Some (<["isPlaying" := JBool playing]>
                         (<["isPaused" := JBool paused]>
                            (<["isCompiling" := JBool false]> ∅)));
     msg_parameters := None; msg_success := Some true; msg_error := None;
     msg_timestamp := None |}.

(** Sample worlds: project A connected to a running editor, and project A
    recorded without an editor. *)
Definition worldConnectedA : World :=
  (connectToProject "/proj/A" (Some infoA) Accepted noProcs rnd1 None
     (initial "linux")).2.

Definition worldProjectOnlyA : World :=
  (connectToProject "/proj/A" (Some infoA) Refused noProcs rnd1 None
     (initial "linux")).2.

Definition worldConnectedAB : World :=
  (connectToProject "/proj/B" (Some infoB) Accepted noProcs rnd2 None
     worldConnectedA).2.

Definition recordA (st : Status) : UnityConnection :=
  {| projectPath := "/proj/A"; unityVersion := "2022.3.10f1";
     editorPID := None; status := st; lastHeartbeat := 0;
     targetPlatform := "Standalone"; projectName := "A";
     isPlaying := JUndefined; isCompiling := JUndefined |}.

(** Sample traces.  An owner closes its UnityIPC and Node then delivers
    the close event of the destroyed socket and the timer it started. *)
Definition traceDisconnectReconnect : list IpcStep :=
  [New "/proj/A"; Connect 0; SocketConnects 0;
   Disconnect 0;
   SocketCloses 0; TimerFires 1; SocketConnects 1].

(** disconnect followed at once by connect on the same project, and then
    the close event of the destroyed socket, the reconnect timer of the
    dropped UnityIPC, and the connection of its new socket. *)
Definition traceDisconnectConnect : list Step :=
  [ConnectToProject "/proj/A" (Some infoA) Accepted noProcs rnd1
     (Some (stateReply (generateMessageId rnd1) false false));
   DisconnectFromProject (Some "/proj/A");
   ConnectToProject "/proj/A" (Some infoA) Accepted noProcs rnd2
     (Some (stateReply (generateMessageId rnd2) false false));
   Ipc (SocketCloses 0); Ipc (TimerFires 4); Ipc (SocketConnects 2)].

(** ** UnityIPC: the commands built on [sendCommand] *)

#[global] Instance ConnectAttempt_eq_dec : EqDecision ConnectAttempt.
Proof. solve_decision. Defined.








(** isConnectedToUnity, getProjectPath *)
Definition isConnectedToUnity (this : nat) (w : World) : option bool :=
  isConnected <$> ipcs w !! this.


(** [n] calls of [sendCommand] in one turn of the event loop: the
    promises they return, in call order. *)
Fixpoint sendAll (this : nat) (reqs : list (string * Obj * list N))
    (w : World) : list nat * World :=
  match reqs with
  | [] => ([], w)
  | (command, parameters, rnd) :: reqs' =>
      let '(p, w) := sendCommand this command parameters rnd w in
      let '(ps, w) := sendAll this reqs' w in
      (p :: ps, w)
  end.

(** The chunks that arrive, each parsed and handled in arrival order. *)
Definition deliverAll (this : nat) (chunks : list UnityIPCMessage)
    (w : World) : World :=
  fold_left (λ w m, handleIncomingMessage this (Some m) w) chunks w.

(** The id drawn for a request. *)
Definition requestId (req : string * Obj * list N) : string :=
  generateMessageId req.2.

(** UnityConnectionManager: getUnityIPC and shutdown. *)
Definition getUnityIPC (projectPath : string) (w : World) : option nat :=
  unityIPCConnections w !! projectPath.


(** Sample inputs: an instance that was never connected, one that is
    connected, two requests and their responses in the opposite order, and
    a chunk that answers no request. *)
Definition worldIpcNew : World := (newUnityIPC "/proj/A" (initial "linux")).2.

Definition worldIpcConnected : World :=
  default (initial "linux")
    (ipcRun [New "/proj/A"; Connect 0; SocketConnects 0] (initial "linux")).

Definition twoRequests : list (string * Obj * list N) :=
  [("ping", ∅, rnd1); ("get_state", ∅, rnd2)].

Definition response (id : string) : UnityIPCMessage :=
  {| msg_id := Some id; msg_command := None; msg_type := None;
     msg_data := None; msg_parameters := None; msg_success := Some true;
     msg_error := None; msg_timestamp := None |}.

Definition twoResponses : list UnityIPCMessage :=
  [response (generateMessageId rnd2); response (generateMessageId rnd1)].

Definition strayChunk : UnityIPCMessage := response "ffffffffffffffff".

(** Sample input: the editor reports that it entered play mode. *)
Definition playingEvent : UnityIPCMessage :=
  {| msg_id := None; msg_command := None; msg_type := Some "state_update";
     msg_data := Some (<["isPlaying" := JBool true]>
                         (<["isCompiling" := JBool false]> ∅));
     msg_parameters := None; msg_success := None; msg_error := None;
     msg_timestamp := None |}.

Definition sceneEvent : UnityIPCMessage :=
  {| msg_id := None; msg_command := None; msg_type := Some "scene_opened";
     msg_data := None; msg_parameters := None; msg_success := None;
     msg_error := None; msg_timestamp := None |}.

(** Sample world: project A was disconnected and connected again, and
    Node has delivered the close event of the destroyed socket. *)
Definition worldDroppedTimer : World :=
  default (initial "linux")
    (run (take 4 traceDisconnectConnect) (initial "linux")).

(** Sample runs that reach the sample worlds. *)
Definition runConnectedA : list Step :=
  [ConnectToProject "/proj/A" (Some infoA) Accepted noProcs rnd1 None].


End Core.
(** ** The tools and their registry (tools/status-tools.ts,
       tools/tool-registry.ts)

    Every tool creates a UnityConnectionManager of its own in its
    constructor and keeps it in a private field; the world of that manager
    is the state of the tool. *)

Module Tools.
Import Core.
Import Detector (Completion, Return, Throw).

(** types/mcp.ts, UnityTool: the fields a tool definition sets; the input
    schema is kept as the names and types of its properties and the list
    of required ones. *)
Record UnityTool := {
  tool_name : string;
  tool_description : string;
  tool_category : string;
  tool_builtin : bool;
  tool_properties : list (string * string);
  tool_required : list string;
}.

(** types/mcp.ts, MCPCommand *)
Record MCPCommand := {
  cmd_id : string;
  method : string;
  params : Obj;
  requiresUnity : bool;
}.

(** A destructuring default [{ x = d } = params]: it applies when the
    property is undefined. *)
Definition orDefault (v d : JsVal) : JsVal :=
  match v with
  | JUndefined => d
  | _ => v
  end.

(** A value inside a template literal; a number is integral and below
    2^53 in magnitude. *)
Definition jsString (v : JsVal) : string :=
  match v with
  | JUndefined => "undefined"
  | JNull => "null"
  | JBool true => "true"
  | JBool false => "false"
  | JNum z => if (z <? 0)%Z then "-" +:+ pretty (Z.to_N (- z))
              else pretty (Z.to_N z)
  | JStr s => s
  end.

(** What a project looks like to the file system calls of
    [connectToProject] and [getProjectInfo], and what the editor does
    while a tool runs. *)
Record Env := {
  env_info : option UnityProjectInfo;      (* getProjectInfo in connectToProject *)
  env_attempt : ConnectAttempt;
  env_procs : Detector.ExecResult;
  env_rnd : list N;
  env_reply : option UnityIPCMessage;
  env_details : option UnityProjectInfo;   (* getProjectInfo called by the tool *)
}.

(** *** UnityStatusTool *)
Module UnityStatusTool.

Definition getTool : UnityTool :=
  {| tool_name := "unity_status";
     tool_description := "Get current Unity connection and project status";
     tool_category := "connection"; tool_builtin := true;
     tool_properties := [("includeDetails", "boolean")];
     tool_required := [] |}.

(** One element of [result.connections]. *)
Record ConnectionView := {
  view_projectPath : string;
  view_projectName : string;
  view_unityVersion : string;
  view_status : Status;
  view_targetPlatform : string;
  view_lastHeartbeat : Z;
  isActive : bool;
}.

Record Summary := {
  totalConnections : nat;
  connectedProjects : nat;
  hasActiveProject : bool;
}.

Inductive Details :=
| DetailsOf (projectInfo : UnityProjectInfo) (connectionInfo : UnityConnection)
| DetailsError (error : string).

Record Result := {
  timestamp : Z;
  serverVersion : string;
  result_connections : list ConnectionView;
  result_activeProject : option string;
  result_isCompiling : JsVal;
  result_playModeState : PlayModeState;
  lastError : option string;
  summary : Summary;
  activeProjectDetails : option Details;
}.

(** [conn.projectPath === status.activeProject] *)
Definition sameProject (path : string) (active : option string) : bool :=
  match active with
  | Some a => String.eqb path a
  | None => false
  end.

(** execute: nothing in its try block throws, so it always returns. *)
Definition execute (command : MCPCommand) (env : Env) (w : World)
    : Completion Result :=
  let includeDetails :=
    orDefault (prop (params command) "includeDetails") (JBool false) in
  let status := getStatus w in
  let activeConnection := getActiveConnection w in
  let records := omap (λ c, conns w !! c) (status_connections status) in
  let result :=
    {| timestamp := now w;
       serverVersion := "0.1.0";
       result_connections :=
         (λ conn,
            {| view_projectPath := projectPath conn;
               view_projectName := projectName conn;
               view_unityVersion := unityVersion conn;
               view_status := Core.status conn;
               view_targetPlatform := targetPlatform conn;
               view_lastHeartbeat := lastHeartbeat conn;
               isActive := sameProject (projectPath conn)
                             (activeProject status) |}) <$> records;
       result_activeProject := activeProject status;
       result_isCompiling := status_isCompiling status;
       result_playModeState := playModeState status;
       lastError := None;
       summary :=
         {| totalConnections := length records;
            connectedProjects :=
              length (List.filter
                        (λ c, bool_decide (Core.status c = StConnected))
                        records);
            hasActiveProject :=
              match activeProject status with
              | Some a => Js.truthy_str a
              | None => false
              end |};
       activeProjectDetails :=
         match activeConnection with
         | Some conn =>
             if truthy includeDetails then
               match env_details env with
               | Some projectInfo => Some (DetailsOf projectInfo conn)
               | None =>
                   Some (DetailsError
                           "Failed to retrieve detailed project information")
               end
             else None
         | None => None
         end |} in
  Return result.

End UnityStatusTool.

(** *** UnityConnectionTool *)
Module UnityConnectionTool.

Definition getTool : UnityTool :=
  {| tool_name := "unity_connect";
     tool_description := "Connect to a Unity project";
     tool_category := "connection"; tool_builtin := true;
     tool_properties := [("projectPath", "string"); ("autoDetect", "boolean")];
     tool_required := ["projectPath"] |}.

(** The result; [scenesCount] is set when the [getProjectInfo] of the
    tool succeeds, with the number of scenes it reports (getScenes finds
    none).  A reference returned by [connectToProject] always points to a
    record. *)
Record Result := {
  connected : bool;
  result_projectPath : string;
  result_unityVersion : string;
  result_editorPID : option Z;
  result_projectName : string;
  result_targetPlatform : string;
  lastModified : Z;
  scenesCount : option nat;
}.

Definition execute (command : MCPCommand) (env : Env) (w : World)
    : Completion Result * World :=
  let projectPath := prop (params command) "projectPath" in
  let autoDetect := orDefault (prop (params command) "autoDetect") (JBool true) in
  let wrap e := "Failed to connect to Unity project: " +:+ e in
  match projectPath with
  | JStr path =>
      if Js.truthy_str path then
        match connectToProject path (env_info env) (env_attempt env)
                (env_procs env) (env_rnd env) (env_reply env) w with
        | (Throw e, w) => (Throw (wrap e), w)
        | (Return connection, w) =>
            match conns w !! connection with
            | None => (Throw (wrap "Unknown error"), w)
            | Some r =>
                let projectInfo :=
                  if truthy autoDetect then env_details env else None in
                (Return
                   {| connected := true;
                      result_projectPath := Core.projectPath r;
                      result_unityVersion := unityVersion r;
                      result_editorPID := editorPID r;
                      result_projectName := projectName r;
                      result_targetPlatform := targetPlatform r;
                      lastModified := now w;
                      scenesCount := (λ _, 0%nat) <$> projectInfo |}, w)
            end
        end
      else (Throw (wrap "projectPath is required and must be a string"), w)
  | _ => (Throw (wrap "projectPath is required and must be a string"), w)
  end.

End UnityConnectionTool.

(** *** UnityDisconnectTool *)
Module UnityDisconnectTool.

Definition getTool : UnityTool :=
  {| tool_name := "unity_disconnect";
     tool_description := "Disconnect from Unity project";
     tool_category := "connection"; tool_builtin := true;
     tool_properties := [("projectPath", "string")];
     tool_required := [] |}.

Record Result := {
  disconnected : bool;
  result_projectPath : JsVal;
  timestamp : Z;
}.

(** [disconnectFromProject(projectPath)] for whatever value the caller
    put into the parameters: a falsy value stands for no path; a truthy
    value that is no string is the key of no entry. *)
Definition disconnectFromProjectAny (projectPath : JsVal) (w : World)
    : Completion () * World :=
  match projectPath with
  | JStr path => disconnectFromProject (Some path) w
  | _ =>
      if truthy projectPath
      then (Throw ("No connection found for project: "
                     +:+ jsString projectPath), w)
      else disconnectFromProject None w
  end.

Definition execute (command : MCPCommand) (w : World)
    : Completion Result * World :=
  let projectPath := prop (params command) "projectPath" in
  match disconnectFromProjectAny projectPath w with
  | (Return _, w) =>
      (Return {| disconnected := true;
                 result_projectPath :=
                   if truthy projectPath then projectPath
                   else JStr "active";
                 timestamp := now w |}, w)
  | (Throw e, w) =>
      (Throw ("Failed to disconnect from Unity project: " +:+ e), w)
  end.

(** The commands a caller runs on one tool, one after the other, from
    the tool as its constructor leaves it. *)
Fixpoint executeAll (commands : list MCPCommand) (w : World)
    : list (Completion Result) * World :=
  match commands with
  | [] => ([], w)
  | command :: commands' =>
      let '(r, w) := execute command w in
      let '(rs, w) := executeAll commands' w in
      (r :: rs, w)
  end.

End UnityDisconnectTool.

(** *** UnityToolRegistry *)
Module UnityToolRegistry.

(** What a handler returns. *)
Inductive Value :=
| OfConnect (r : UnityConnectionTool.Result)
| OfStatus (r : UnityStatusTool.Result)
| OfOther (v : JsVal).

(** A registered handler: [execute] of one of the two built-in tools,
    bound to the tool, or a function of the caller. *)
Inductive Handler :=
| ConnectionToolExecute
| StatusToolExecute
| External (handler : MCPCommand → Completion JsVal).

(** The registry; [connectionTool] and [statusTool] are the managers of
    the tools whose [execute] is registered. *)
Record Registry := {
  tools : JsMap UnityTool;
  toolHandlers : JsMap Handler;
  connectionTool : World;
  statusTool : World;
}.

(** [new UnityToolRegistry(logger)] *)
Definition empty (platform : string) : Registry :=
  {| tools := []; toolHandlers := [];
     connectionTool := initial platform; statusTool := initial platform |}.

Definition registerTool (tool : UnityTool) (handler : Handler)
    (reg : Registry) : Completion () * Registry :=
  if bool_decide (is_Some (mapGet (tool_name tool) (tools reg)))
  then (Throw ("Tool already registered: " +:+ tool_name tool), reg)
  else
    (Return (),
     {| tools := mapSet (tool_name tool) tool (tools reg);
        toolHandlers := mapSet (tool_name tool) handler (toolHandlers reg);
        connectionTool := connectionTool reg;
        statusTool := statusTool reg |}).

(** registerBuiltinTools: a new tool is made for each registration; when
    the registration succeeds the registered handler is bound to it. *)
Definition registerBuiltinTools (reg : Registry) : Completion () * Registry :=
  match registerTool UnityConnectionTool.getTool ConnectionToolExecute reg with
  | (Throw e, reg) => (Throw e, reg)
  | (Return _, reg) =>
      let reg := {| tools := tools reg; toolHandlers := toolHandlers reg;
                    connectionTool :=
                      initial (platform (connectionTool reg));
                    statusTool := statusTool reg |} in
      match registerTool UnityStatusTool.getTool StatusToolExecute reg with
      | (Throw e, reg) => (Throw e, reg)
      | (Return _, reg) =>
          (Return (),
           {| tools := tools reg; toolHandlers := toolHandlers reg;
              connectionTool := connectionTool reg;
              statusTool := initial (platform (statusTool reg)) |})
      end
  end.

Definition initialize (reg : Registry) : Completion () * Registry :=
  registerBuiltinTools reg.

Definition unregisterTool (toolName : string) (reg : Registry)
    : Completion () * Registry :=
  if bool_decide (is_Some (mapGet toolName (tools reg)))
  then
    (Return (),
     {| tools := mapDelete toolName (tools reg);
        toolHandlers := mapDelete toolName (toolHandlers reg);
        connectionTool := connectionTool reg;
        statusTool := statusTool reg |})
  else (Throw ("Tool not found: " +:+ toolName), reg).

Definition getTool (toolName : string) (reg : Registry) : option UnityTool :=
  mapGet toolName (tools reg).

Definition getAllTools (reg : Registry) : list UnityTool := (tools reg).*2.

Definition getToolsByCategory (category : string) (reg : Registry)
    : list UnityTool :=
  List.filter (λ tool, String.eqb (tool_category tool) category)
    (tools reg).*2.

(** Running a handler. *)
Definition handle (handler : Handler) (command : MCPCommand) (env : Env)
    (reg : Registry) : Completion Value * Registry :=
  match handler with
  | ConnectionToolExecute =>
      let '(r, w) := UnityConnectionTool.execute command env
                       (connectionTool reg) in
      (match r with
       | Return v => Return (OfConnect v)
       | Throw e => Throw e
       end,
       {| tools := tools reg; toolHandlers := toolHandlers reg;
          connectionTool := w; statusTool := statusTool reg |})
  | StatusToolExecute =>
      (match UnityStatusTool.execute command env (statusTool reg) with
       | Return v => Return (OfStatus v)
       | Throw e => Throw e
       end, reg)
  | External handler =>
      (match handler command with
       | Return v => Return (OfOther v)
       | Throw e => Throw e
       end, reg)
  end.

(** executeCommand: what the handler throws is logged and thrown on. *)
Definition executeCommand (command : MCPCommand) (env : Env) (reg : Registry)
    : Completion Value * Registry :=
  match mapGet (method command) (toolHandlers reg) with
  | None => (Throw ("No handler found for command: " +:+ method command), reg)
  | Some handler =>
      match mapGet (method command) (tools reg) with
      | None => (Throw ("Tool not found: " +:+ method command), reg)
      | Some tool => handle handler command env reg
      end
  end.

(** validateCommand *)
Definition validateCommand (command : MCPCommand) (reg : Registry)
    : Completion () :=
  match mapGet (method command) (tools reg) with
  | None => Throw ("Tool not found: " +:+ method command)
  | Some _ => Return ()
  end.

(** What a caller of the registry can do, and what Node delivers to the
    sockets and timers of the connection tool. *)
Inductive Call :=
| Initialize
| RegisterTool (tool : UnityTool) (handler : MCPCommand → Completion JsVal)
| UnregisterTool (toolName : string)
| ExecuteCommand (command : MCPCommand) (env : Env)
| Delivered (e : IpcStep).

Definition call (c : Call) (reg : Registry) : option Registry :=
  match c with
  | Initialize => Some (initialize reg).2
  | RegisterTool tool handler => Some (registerTool tool (External handler) reg).2
  | UnregisterTool toolName => Some (unregisterTool toolName reg).2
  | ExecuteCommand command env => Some (executeCommand command env reg).2
  | Delivered e =>
      w ← ipcStep e (connectionTool reg);
      Some {| tools := tools reg; toolHandlers := toolHandlers reg;
              connectionTool := w; statusTool := statusTool reg |}
  end.

Fixpoint calls (cs : list Call) (reg : Registry) : option Registry :=
  match cs with
  | [] => Some reg
  | c :: cs' => reg' ← call c reg; calls cs' reg'
  end.

End UnityToolRegistry.

(** Sample input: the commands of a session. *)
Definition command (method : string) (params : Obj) : MCPCommand :=
  {| cmd_id := "1"; method := method; params := params;
     requiresUnity := false |}.

Definition envA : Env :=
  {| env_info := Some infoA; env_attempt := Accepted; env_procs := noProcs;
     env_rnd := rnd1; env_reply := None; env_details := Some infoA |}.

Definition connectA : MCPCommand :=
  command "unity_connect" (<["projectPath" := JStr "/proj/A"]> ∅).

Definition sessionConnectA : list UnityToolRegistry.Call :=
  [UnityToolRegistry.Initialize; UnityToolRegistry.ExecuteCommand connectA envA].

End Tools.
(** * Properties *)

(** ** Rendezvous naming *)

Section NamingFacts.
Import Js Naming.

Lemma toInt32_range z : - 2 ^ 31 <= toInt32 z < 2 ^ 31.
Proof.
  unfold toInt32.
  pose proof (Z.mod_pos_bound (z + 2 ^ 31) (2 ^ 32) ltac:(lia)). lia.
Qed.

Lemma toInt32_shift z k : toInt32 (z + k * 2 ^ 32) = toInt32 z.
Proof.
  unfold toInt32.
  replace (z + k * 2 ^ 32 + 2 ^ 31) with (z + 2 ^ 31 + k * 2 ^ 32) by lia.
  by rewrite Z_mod_plus_full.
Qed.

Lemma toInt32_lift z : ∃ k, toInt32 z = z + k * 2 ^ 32.
Proof.
  exists (- ((z + 2 ^ 31) / 2 ^ 32)). unfold toInt32.
  pose proof (Z_div_mod_eq_full (z + 2 ^ 31) (2 ^ 32)). lia.
Qed.

Lemma toInt32_id z : - 2 ^ 31 <= z < 2 ^ 31 → toInt32 z = z.
Proof. intros H. unfold toInt32. rewrite Z.mod_small; lia. Qed.

Lemma hashStep_range h c : - 2 ^ 31 <= hashStep h c < 2 ^ 31.
Proof.
  unfold hashStep, Js.and. rewrite Z.land_diag. apply toInt32_range.
Qed.

Lemma hashStep_poly h c : hashStep (toInt32 h) c = toInt32 (31 * h + c).
Proof.
  unfold hashStep, Js.and, Js.shl. rewrite Z.land_diag.
  rewrite (toInt32_id (toInt32 h)) by apply toInt32_range.
  change (5 mod 32) with 5. rewrite Z.shiftl_mul_pow2 by lia.
  destruct (toInt32_lift h) as [k Hk].
  destruct (toInt32_lift (toInt32 h * 2 ^ 5)) as [j Hj].
  rewrite Hj, Hk.
  replace ((h + k * 2 ^ 32) * 2 ^ 5 + j * 2 ^ 32 - (h + k * 2 ^ 32) + c)
    with (31 * h + c + (31 * k + j) * 2 ^ 32) by lia.
  apply toInt32_shift.
Qed.

Lemma fold_left_step {A B} (f : A → B → A) x l a :
  fold_left f (x :: l) a = fold_left f l (f a x).
Proof. reflexivity. Qed.

Lemma hashCodeUnits_fold str h :
  fold_left hashStep str (toInt32 h)
  = toInt32 (fold_left (λ h c, 31 * h + c) str h).
Proof.
  revert h. induction str as [|c str IH]; intros h.
  - reflexivity.
  - rewrite !fold_left_step, hashStep_poly. apply IH.
Qed.

(** The loop is the polynomial hash with multiplier 31, wrapped to a
    signed 32-bit integer. *)
Lemma hashCodeUnits_poly31 str : hashCodeUnits str = toInt32 (poly31 str).
Proof.
  unfold hashCodeUnits, poly31.
  rewrite <- hashCodeUnits_fold. by rewrite toInt32_id by lia.
Qed.

Lemma hashCodeUnits_range str : - 2 ^ 31 <= hashCodeUnits str < 2 ^ 31.
Proof. rewrite hashCodeUnits_poly31. apply toInt32_range. Qed.

Lemma hashCode_range str : - 2 ^ 31 <= hashCode str < 2 ^ 31.
Proof. apply hashCodeUnits_range. Qed.

(** The hash is not injective: two distinct two-letter paths collide, so
    distinct targets can share a rendezvous path. *)
Example hashCode_collision :
  "Aa" ≠ "BB" ∧ rendezvous "linux" "Aa" = rendezvous "linux" "BB".
Proof. split; [done | by vm_compute]. Qed.

(** C7. The endpoint name is a function of the target identifier alone:
    it is the fixed prefix (unity-mcp- in this code) followed by the
    decimal digits of the absolute value of a signed 32-bit hash; the
    rendezvous path is the pipe path on win32 and /tmp/name elsewhere, so
    equal identifiers give equal paths; and there are distinct identifiers
    whose names differ. *)
Theorem endpoint_name_deterministic :
  (∀ id, pipeName id = "unity-mcp-" +:+ Js.toString (Z.abs (hashCode id))
         ∧ - 2 ^ 31 <= hashCode id < 2 ^ 31
         ∧ hashCode id = toInt32 (poly31 (charCodes id)))
  ∧ (∀ platform id,
       rendezvous platform id =
         if String.eqb platform "win32"
         then "\\.\pipe\" +:+ pipeName id
         else "/tmp/" +:+ pipeName id)
  ∧ (∀ platform id1 id2,
       id1 = id2 → rendezvous platform id1 = rendezvous platform id2)
  ∧ (∃ id1 id2, id1 ≠ id2 ∧ pipeName id1 ≠ pipeName id2
                ∧ ∀ platform, rendezvous platform id1 ≠ rendezvous platform id2).
Proof.
  split; [|split; [|split]].
  - intros id. split; [done|]. split; [apply hashCode_range|].
    apply hashCodeUnits_poly31.
  - done.
  - by intros ? ? ? ->.
  - exists "/proj/A", "/proj/B". split; [done|]. split; [by vm_compute|].
    intros platform. unfold rendezvous, pipePath.
    destruct (String.eqb platform "win32"); by vm_compute.
Qed.

End NamingFacts.

(** witness of C7 at one target on a Unix host *)
Lemma endpoint_name_deterministic_witness :
  Naming.rendezvous "linux" "/proj/A" = Naming.rendezvous "linux" "/proj/A".
Proof.
  exact (proj1 (proj2 (proj2 endpoint_name_deterministic))
           "linux" "/proj/A" "/proj/A" eq_refl).
Defined.

(** ** String primitives *)

Section JsStringExamples.
Import JsString.

Example splitWs_plain : splitWs "a  b c" = ["a"; "b"; "c"].
Proof. reflexivity. Qed.
Example splitWs_edges : splitWs " a " = [""; "a"; ""].
Proof. reflexivity. Qed.
Example split_empty : split comma "" = [""].
Proof. reflexivity. Qed.
Example split_commas : split comma "a,,b," = ["a"; ""; "b"; ""].
Proof. reflexivity. Qed.
Example parseInt_examples :
  parseInt "4242" = Some 4242 ∧ parseInt "12ab" = Some 12
  ∧ parseInt "0x1A" = Some 26 ∧ parseInt "-7" = Some (-7)
  ∧ parseInt "PID" = None ∧ parseInt "" = None ∧ parseInt " 0" = Some 0.
Proof. repeat split; reflexivity. Qed.
Example trim_example : trim "  /proj/A  " = "/proj/A".
Proof. reflexivity. Qed.

End JsStringExamples.
(** ** Process detection *)

Section DetectorFacts.
Import JsString Detector.

Example extract_plain :
  extractProjectPath "/opt/Unity -projectPath /proj/A" = Some "/proj/A".
Proof. reflexivity. Qed.

Example extract_quoted :
  extractProjectPath ("Unity.exe -projectPath " +:+ quoted "C:\my proj" +:+ " -batchmode")
  = Some "C:\my proj".
Proof. reflexivity. Qed.

(** Without quotes the group runs to the end of the command line. *)
Example extract_unquoted_rest :
  extractProjectPath "/opt/Unity -projectPath /proj/A -batchmode"
  = Some "/proj/A -batchmode".
Proof. reflexivity. Qed.

Example extract_missing : extractProjectPath "/opt/Unity -projectPath" = None.
Proof. reflexivity. Qed.

Example unixLine_ok :
  unixLine (psLine "/opt/Unity -projectPath /proj/A")
  = Some {| pid := 4242; projectPath := "/proj/A";
            commandLine := "/opt/Unity -projectPath /proj/A" |}.
Proof. reflexivity. Qed.

Example unixLine_header :
  unixLine "USER PID %CPU %MEM VSZ RSS TTY STAT START TIME COMMAND" = None.
Proof. reflexivity. Qed.

Example unixLine_truncated : unixLine "user 4242 0.0 1.2 100" = None.
Proof. reflexivity. Qed.

Example windowsLine_ok :
  windowsLine "HOST,Unity.exe -projectPath C:\proj,77"
  = Some {| pid := 77; projectPath := "C:\proj";
            commandLine := "Unity.exe -projectPath C:\proj" |}.
Proof. reflexivity. Qed.


















Lemma truthy_str_false s : Js.truthy_str s = false → s = "".
Proof.
  unfold Js.truthy_str. destruct (String.eqb_spec s ""); [done|done].
Qed.




End DetectorFacts.

(** ** UnityIPC: what each operation leaves alone *)

Section IpcFrames.
Import Core.

Lemma handlerOf_updateIpc this f w this' id :
  (∀ o, messageHandlers (f o) = messageHandlers o) →
  handlerOf (updateIpc this f w) this' id = handlerOf w this' id.
Proof.
  intros Hf. unfold handlerOf, updateIpc; simpl. rewrite lookup_alter.
  case_decide; [|done]. subst.
  destruct (ipcs w !! this'); simpl; [|done]. by rewrite Hf.
Qed.

Lemma handlerOf_ipcs w w' this id :
  ipcs w' = ipcs w → handlerOf w' this id = handlerOf w this id.
Proof. unfold handlerOf. by intros ->. Qed.

(** The listeners of the manager touch connection records and the
    manager's own event log, nothing of the UnityIPC. *)
Lemma setupUnityIPCHandlers_frame connection ev w :
  let w' := setupUnityIPCHandlers connection ev w in
  ipcs w' = ipcs w ∧ sockets w' = sockets w ∧ timers w' = timers w
  ∧ promises w' = promises w ∧ settled w' = settled w
  ∧ written w' = written w ∧ connections w' = connections w
  ∧ activeConnection w' = activeConnection w
  ∧ unityIPCConnections w' = unityIPCConnections w.
Proof. destruct ev as [| | |[?|]|[?|]| |]; done. Qed.

Lemma emit_frame this ev w :
  let w' := emit this ev w in
  ipcs w' = ipcs w ∧ sockets w' = sockets w ∧ timers w' = timers w
  ∧ promises w' = promises w ∧ settled w' = settled w
  ∧ written w' = written w ∧ connections w' = connections w
  ∧ activeConnection w' = activeConnection w
  ∧ unityIPCConnections w' = unityIPCConnections w.
Proof.
  unfold emit. destruct (ipcs w !! this ≫= listeners); [|done].
  apply setupUnityIPCHandlers_frame.
Qed.

Lemma scheduleReconnect_frame this w :
  let w' := scheduleReconnect this w in
  promises w' = promises w ∧ settled w' = settled w
  ∧ sockets w' = sockets w
  ∧ (∀ this' id, handlerOf w' this' id = handlerOf w this' id)
  ∧ (∀ t tm, timers w !! t = Some tm → timers w' !! t = Some tm).
Proof.
  unfold scheduleReconnect.
  destruct (ipcs w !! this) as [o|]; [|done].
  destruct (reconnectTimer o); [done|]. simpl.
  split; [done|]. split; [done|]. split; [done|]. split.
  - intros this' id. by rewrite handlerOf_updateIpc.
  - intros t tm Ht. rewrite lookup_insert_ne; [done|].
    intros <-. pose proof (is_fresh (dom (timers w))) as Hf.
    apply Hf, elem_of_dom. eauto.
Qed.

Lemma onClose_frame this w :
  let w' := onClose this w in
  promises w' = promises w ∧ settled w' = settled w
  ∧ sockets w' = sockets w
  ∧ (∀ this' id, handlerOf w' this' id = handlerOf w this' id)
  ∧ (∀ t tm, timers w !! t = Some tm → timers w' !! t = Some tm).
Proof.
  unfold onClose.
  set (w1 := updateIpc this (ipc_with_isConnected false) w).
  set (w2 := emit this ev_disconnected w1).
  destruct (scheduleReconnect_frame this w2) as (Hp & Hs & Hk & Hh & Ht).
  destruct (emit_frame this ev_disconnected w1) as (Ei & Ek & Et & Ep & Es & _).
  fold w2 in Ei, Ek, Et, Ep, Es.
  rewrite Hp, Hs, Hk, Ep, Es, Ek.
  split; [done|]. split; [done|]. split; [done|]. split.
  - intros this' id. rewrite Hh.
    rewrite (handlerOf_ipcs _ _ _ _ Ei). by apply handlerOf_updateIpc.
  - intros t tm Htm. apply Ht. by rewrite Et.
Qed.

Lemma settle_pending p o w :
  promises w !! p = Some Pending →
  promises (settle p o w) = <[p := o]> (promises w)
  ∧ settled (settle p o w) = settled w ++ [(p, o)].
Proof. unfold settle; simpl. by intros ->. Qed.

Lemma settle_frame p o w :
  let w' := settle p o w in
  ipcs w' = ipcs w ∧ timers w' = timers w ∧ sockets w' = sockets w
  ∧ settled w' = settled w ++ [(p, o)].
Proof.
  unfold settle; simpl. destruct (promises w !! p) as [[]|]; done.
Qed.

Lemma settle_promises p o w q :
  promises (settle p o w) !! q =
    if decide (q = p ∧ promises w !! p = Some Pending) then Some o
    else promises w !! q.
Proof.
  unfold settle; simpl.
  destruct (promises w !! p) as [[]|] eqn:E; simpl;
    case_decide as H; try done; try (by destruct H as [_ [=]]).
  - destruct H as [-> _]. apply lookup_insert_eq.
  - rewrite lookup_insert_ne; [done|]. intros ->. by apply H.
Qed.

End IpcFrames.
(** ** A socket closes while requests are pending *)

Section CloseFacts.
Import Core.

(** C2 as the specification words it: the close of the socket fails the
    requests that are pending on it. *)
Definition close_fails_pending : Prop :=
  ∀ w s w' this id p,
    ipcStep (SocketCloses s) w = Some w' →
    owner <$> sockets w !! s = Some this →
    handlerOf w this id = Some p → promises w !! p = Some Pending →
    ∃ e, promises w' !! p = Some (Rejected e).

(** One ping is in flight when the socket closes: its promise is still
    pending afterwards, and its handler still registered. *)
Lemma close_keeps_pending_counterexample :
  handlerOf worldPingInFlight 0 "0102030405060708" = Some 0%nat
  ∧ promises worldPingInFlight !! 0%nat = Some Pending
  ∧ (w' ← ipcStep (SocketCloses 0) worldPingInFlight; promises w' !! 0%nat)
    = Some Pending
  ∧ ¬ close_fails_pending.
Proof.
  split; [by vm_compute|]. split; [by vm_compute|]. split; [by vm_compute|].
  intros H.
  destruct (ipcStep (SocketCloses 0) worldPingInFlight) as [w'|] eqn:Hstep;
    [|by vm_compute in Hstep].
  destruct (H worldPingInFlight 0%nat w' 0%nat "0102030405060708" 0%nat)
    as [e He]; try done; try (by vm_compute).
  assert (promises w' !! 0%nat = Some Pending) as Hp.
  { vm_compute in Hstep. injection Hstep as <-. by vm_compute. }
  congruence.
Qed.

(** C2, amended.  The close of a socket settles no promise: promises, the
    record of settle calls and all message handlers are as before, and no
    pending timer is cancelled.  A request that was pending stays pending
    until its own 10 s timer fires, which rejects it with the command
    timeout error and removes its handler. *)
Theorem close_leaves_requests_pending (w w' : World) (s : nat)
    (Hstep : ipcStep (SocketCloses s) w = Some w') :
  promises w' = promises w
  ∧ settled w' = settled w
  ∧ (∀ this id, handlerOf w' this id = handlerOf w this id)
  ∧ (∀ t callback, timers w !! t = Some callback →
                   timers w' !! t = Some callback)
  ∧ (∀ t this id command p w'',
       timers w' !! t = Some (CommandTimeout this id command p) →
       is_Some (handlerOf w' this id) →
       promises w' !! p = Some Pending →
       ipcStep (TimerFires t) w' = Some w'' →
       promises w'' !! p = Some (Rejected ("Command timeout: " +:+ command))
       ∧ handlerOf w'' this id = None).
Proof.
  unfold ipcStep in Hstep.
  destruct (sockets w !! s) as [sk|]; simpl in Hstep; [|done].
  assert (w' = onClose (owner sk) (setSockState s SockClosed w)) as ->.
  { destruct (state sk); congruence. }
  clear Hstep.
  destruct (onClose_frame (owner sk) (setSockState s SockClosed w))
    as (Hp & Hs & _ & Hh & Ht).
  split; [done|]. split; [done|]. split; [done|]. split; [done|].
  intros t this id command p w'' Htm [h Hhd] Hpend Hfire.
  unfold ipcStep in Hfire. rewrite Htm in Hfire. simpl in Hfire.
  injection Hfire as <-. unfold onCommandTimeout.
  change (handlerOf (clearTimeout t ?x) this id) with (handlerOf x this id).
  rewrite Hhd. split.
  - rewrite settle_promises, decide_True; [done|]. done.
  - destruct (settle_frame p (Rejected ("Command timeout: " +:+ command))
               (updateIpc this
                  (λ o, ipc_with_messageHandlers
                          (delete id (messageHandlers o)) o)
                  (clearTimeout t
                     (onClose (owner sk) (setSockState s SockClosed w)))))
      as (Hi & _).
    rewrite (handlerOf_ipcs _ _ _ _ Hi).
    unfold handlerOf, updateIpc; simpl. rewrite lookup_alter_eq.
    destruct (ipcs _ !! this); simpl; [|done]. apply lookup_delete_eq.
Qed.

End CloseFacts.

(** witness of C2: the socket of the world with one ping in flight
    closes *)
Lemma close_leaves_requests_pending_witness :
  Core.promises
    (Core.onClose 0 (Core.setSockState 0 Core.SockClosed Core.worldPingInFlight))
  = Core.promises Core.worldPingInFlight.
Proof.
  exact (proj1 (close_leaves_requests_pending Core.worldPingInFlight
                  (Core.onClose 0
                     (Core.setSockState 0 Core.SockClosed Core.worldPingInFlight))
                  0%nat eq_refl)).
Defined.
(** ** getStatus *)

Section StatusFacts.
Import Core.

Lemma getStatus_playModeState w :
  playModeState (getStatus w) =
    match getActiveConnection w with
    | Some c => if truthy (isPlaying c) then Playing else Stopped
    | None => Stopped
    end.
Proof.
  unfold getStatus, getActiveConnection.
  destruct (activeConnection w) as [active|]; [|done].
  destruct (Js.truthy_str active); [|done].
  destruct (mapGet active (connections w)) as [c|]; simpl; [|done].
  by destruct (conns w !! c).
Qed.

(** C10. getStatus never answers Paused: the play mode is Playing exactly
    when there is an active connection whose cached isPlaying is truthy,
    and Stopped in every other case, among them the case of no active
    target. *)
Theorem getStatus_never_paused (w : World) :
  playModeState (getStatus w) ≠ Paused
  ∧ (playModeState (getStatus w) = Playing
     ↔ ∃ c, getActiveConnection w = Some c ∧ truthy (isPlaying c) = true)
  ∧ (playModeState (getStatus w) = Stopped
     ↔ ¬ ∃ c, getActiveConnection w = Some c ∧ truthy (isPlaying c) = true)
  ∧ (activeConnection w = None → playModeState (getStatus w) = Stopped).
Proof.
  rewrite getStatus_playModeState.
  split; [|split; [|split]].
  - destruct (getActiveConnection w) as [c|]; [|done].
    by destruct (truthy (isPlaying c)).
  - split.
    + destruct (getActiveConnection w) as [c|]; [|done].
      destruct (truthy (isPlaying c)) eqn:E; [|done]. eauto.
    + intros (c & -> & ->). done.
  - split.
    + intros H (c & Hc & Hp). rewrite Hc, Hp in H. done.
    + intros H. destruct (getActiveConnection w) as [c|]; [|done].
      destruct (truthy (isPlaying c)) eqn:E; [|done].
      destruct H. eauto.
  - unfold getActiveConnection. by intros ->.
Qed.

(** A peer that reports isPlaying and isPaused both true is shown as
    Playing, and one that reports isPaused alone as Stopped. *)
Example getStatus_paused_peer :
  playModeState
    (getStatus
       (connectToProject "/proj/A" (Some infoA) Accepted noProcs rnd1
          (Some (stateReply (generateMessageId rnd1) true true))
          (initial "linux")).2) = Playing
  ∧ playModeState
      (getStatus
         (connectToProject "/proj/A" (Some infoA) Accepted noProcs rnd1
            (Some (stateReply (generateMessageId rnd1) false true))
            (initial "linux")).2) = Stopped.
Proof. split; by vm_compute. Qed.

End StatusFacts.

(** witness of C10: before any connection there is no active target *)
Lemma getStatus_never_paused_witness :
  Core.playModeState (Core.getStatus (Core.initial "linux")) = Core.Stopped.
Proof.
  exact (proj2 (proj2 (proj2 (getStatus_never_paused (Core.initial "linux"))))
           eq_refl).
Defined.
(** ** The health sweep *)

Section HealthFacts.
Import Core.

(** What the sweep makes of one record. *)
Definition swept (access : string → bool) (time : Z) (r : UnityConnection)
    : UnityConnection :=
  if isConnectionHealthy access r then conn_with_lastHeartbeat time r
  else conn_with_status StError r.

(** The notification the sweep emits for an entry, if any. *)
Definition sweepError (access : string → bool) (w : World)
    (entry : string * nat) : option Emitted :=
  r ← conns w !! entry.2;
  if isConnectionHealthy access r then None else Some (connectionError entry.2).

Lemma isConnectionHealthy_spec access r :
  isConnectionHealthy access r = true
  ↔ projectPath r ≠ "" ∧ status r = StConnected ∧ access (projectPath r) = true.
Proof.
  unfold isConnectionHealthy, Js.truthy_str.
  destruct (String.eqb_spec (projectPath r) "") as [He|He]; simpl.
  - split; [done|]. by intros [? _].
  - case_bool_decide as Hs; simpl; [tauto|].
    split; [done|]. by intros (_ & ? & _).
Qed.

Lemma swept_healthy access time r :
  isConnectionHealthy access (swept access time r) = isConnectionHealthy access r.
Proof.
  unfold swept. destruct (isConnectionHealthy access r) eqn:E; [done|].
  unfold isConnectionHealthy; simpl. by rewrite orb_true_r.
Qed.

Lemma swept_idemp access time r :
  swept access time (swept access time r) = swept access time r.
Proof.
  unfold swept at 1. rewrite swept_healthy. unfold swept.
  by destruct (isConnectionHealthy access r), r.
Qed.

Lemma checkOne_conns access w path c c' :
  conns (checkOne access w (path, c)) !! c' =
    if decide (c' = c) then swept access (now w) <$> conns w !! c
    else conns w !! c'.
Proof.
  unfold checkOne, swept.
  destruct (conns w !! c) as [r|] eqn:Hr.
  - simpl. destruct (isConnectionHealthy access r); simpl;
      unfold updateConn; simpl; rewrite lookup_alter;
      destruct (decide (c = c')), (decide (c' = c)); subst; try done;
      by rewrite Hr.
  - case_decide; by subst.
Qed.

Lemma checkOne_emitted access w entry :
  emitted (checkOne access w entry)
  = emitted w ++ option_list (sweepError access w entry).
Proof.
  destruct entry as [path c]. unfold checkOne, sweepError; simpl.
  destruct (conns w !! c) as [r|]; simpl; [|by rewrite app_nil_r].
  destruct (isConnectionHealthy access r); simpl; [by rewrite app_nil_r|done].
Qed.

Lemma checkOne_frame access w entry :
  let w' := checkOne access w entry in
  now w' = now w ∧ connections w' = connections w
  ∧ activeConnection w' = activeConnection w
  ∧ unityIPCConnections w' = unityIPCConnections w
  ∧ ipcs w' = ipcs w ∧ sockets w' = sockets w ∧ timers w' = timers w
  ∧ promises w' = promises w ∧ settled w' = settled w.
Proof.
  destruct entry as [path c]. unfold checkOne.
  destruct (conns w !! c) as [r|]; [|done].
  by destruct (isConnectionHealthy access r).
Qed.

Lemma sweepError_checkOne access w entry entry' :
  sweepError access (checkOne access w entry) entry'
  = sweepError access w entry'.
Proof.
  destruct entry as [path c]. unfold sweepError.
  rewrite checkOne_conns. case_decide as Hc; [|done]. rewrite Hc.
  destruct (conns w !! c) as [r|]; simpl; [|done].
  by rewrite swept_healthy.
Qed.

Lemma omap_pointwise {A B} (f g : A → option B) (l : list A) :
  (∀ x, f x = g x) → omap f l = omap g l.
Proof.
  intros H. induction l as [|x l IH]; [done|].
  cbn [omap list_omap]. rewrite H. destruct (g x); by rewrite ?IH.
Qed.

(** The sweep as a whole: every record that has an entry is swept once,
    whatever the other entries are; the notifications follow Map order. *)
Lemma checkConnectionHealth_fold access entries w :
  let w' := fold_left (checkOne access) entries w in
  (∀ c, conns w' !! c =
          if decide (c ∈ entries.*2) then swept access (now w) <$> conns w !! c
          else conns w !! c)
  ∧ emitted w' = emitted w ++ omap (sweepError access w) entries
  ∧ now w' = now w ∧ connections w' = connections w
  ∧ activeConnection w' = activeConnection w
  ∧ unityIPCConnections w' = unityIPCConnections w
  ∧ ipcs w' = ipcs w ∧ sockets w' = sockets w ∧ timers w' = timers w
  ∧ promises w' = promises w ∧ settled w' = settled w.
Proof.
  revert w. induction entries as [|[path c] entries IH]; intros w.
  - cbn. split; [done|]. by rewrite app_nil_r.
  - rewrite fold_left_step. cbv zeta.
    destruct (IH (checkOne access w (path, c)))
      as (Hc & He & Hrest).
    destruct (checkOne_frame access w (path, c))
      as (Hn & H1 & H2 & H3 & H4 & H5 & H6 & H7 & H8).
    split; [|split].
    + intros c'. rewrite Hc, Hn, !checkOne_conns, fmap_cons.
      change ((path, c).2) with c.
      destruct (decide (c' ∈ entries.*2)) as [Hin|Hin],
        (decide (c' = c)) as [->|Hne],
        (decide (_ ∈ _ :: _)) as [Hin'|Hin'];
        try done.
      * destruct (conns w !! c); simpl; [|done]. by rewrite swept_idemp.
      * destruct Hin'. apply list_elem_of_here.
      * destruct Hin'. by apply list_elem_of_further.
      * destruct Hin'. apply list_elem_of_here.
      * apply elem_of_cons in Hin' as [?|?]; done.
    + rewrite He, checkOne_emitted, <- app_assoc. f_equal.
      assert (omap (sweepError access (checkOne access w (path, c))) entries
              = omap (sweepError access w) entries) as ->.
      { apply omap_pointwise. intros; apply sweepError_checkOne. }
      cbn [omap list_omap].
      by destruct (sweepError access w (path, c)).
    + rewrite Hn, H1, H2, H3, H4, H5, H6, H7, H8 in Hrest. exact Hrest.
Qed.

(** C6 as the specification words it: an entry whose directory is
    reachable keeps its status and gets a fresh heartbeat. *)
Definition sweep_keeps_reachable : Prop :=
  ∀ access w path c r,
    (path, c) ∈ connections w → conns w !! c = Some r →
    access (projectPath r) = true →
    ∃ r', conns (checkConnectionHealth access w) !! c = Some r'
          ∧ status r' = status r ∧ lastHeartbeat r' = now w.

(** A project whose editor is not running is recorded as project_only;
    its directory is there, and the first sweep marks it as error. *)
Lemma sweep_project_only_counterexample :
  (status <$> conns worldProjectOnlyA !! 0%nat) = Some StProjectOnly
  ∧ (status <$> conns (checkConnectionHealth (λ _, true) worldProjectOnlyA)
                  !! 0%nat) = Some StError
  ∧ ¬ sweep_keeps_reachable.
Proof.
  split; [by vm_compute|]. split; [by vm_compute|].
  intros H.
  destruct (H (λ _, true) worldProjectOnlyA "/proj/A" 0%nat
              (recordA StProjectOnly))
    as (r' & Hr' & Hst & _).
  - vm_compute. apply list_elem_of_here.
  - by vm_compute.
  - done.
  - vm_compute in Hr'. injection Hr' as <-. done.
Qed.

(** C6, amended. One sweep treats every record by its own state alone: a
    record that has an entry, is connected, has a non-empty path and a
    reachable directory gets the current time as heartbeat and nothing
    else changes; any other record that has an entry (directory out of
    reach, or status other than connected) gets status error, keeps its
    other fields, and connectionError is emitted for it; records without
    an entry stay as they are.  The sweep is a total function. *)
Theorem health_sweep_per_entry (access : string → bool) (w : World)
    (c : nat) (r : UnityConnection) (Hr : conns w !! c = Some r) :
  let w' := checkConnectionHealth access w in
  (isConnectionHealthy access r = true
   ↔ projectPath r ≠ "" ∧ status r = StConnected
     ∧ access (projectPath r) = true)
  ∧ (c ∈ (connections w).*2 → isConnectionHealthy access r = true →
     conns w' !! c = Some (conn_with_lastHeartbeat (now w) r)
     ∧ connectionError c ∉ omap (sweepError access w) (connections w))
  ∧ (c ∈ (connections w).*2 → isConnectionHealthy access r = false →
     conns w' !! c = Some (conn_with_status StError r)
     ∧ connectionError c ∈ emitted w')
  ∧ (c ∉ (connections w).*2 → conns w' !! c = Some r)
  ∧ emitted w' = emitted w ++ omap (sweepError access w) (connections w)
  ∧ connections w' = connections w
  ∧ activeConnection w' = activeConnection w.
Proof.
  intros w'.
  destruct (checkConnectionHealth_fold access (connections w) w)
    as (Hc & He & _ & Hm & Ha & _).
  fold (checkConnectionHealth access w) in Hc, He, Hm, Ha. fold w' in Hc, He, Hm, Ha.
  split; [apply isConnectionHealthy_spec|].
  split; [|split; [|split; [|split; [done|split; done]]]].
  - intros Hin Hh. split.
    + rewrite Hc, decide_True, Hr by done. simpl. unfold swept. by rewrite Hh.
    + rewrite list_elem_of_omap. intros ([p c'] & _ & Hs).
      unfold sweepError in Hs; simpl in Hs.
      destruct (conns w !! c') as [r''|] eqn:Hr''; simpl in Hs; [|done].
      destruct (isConnectionHealthy access r'') eqn:Hh''; [done|].
      injection Hs as ->. rewrite Hr in Hr''. congruence.
  - intros Hin Hh. split.
    + rewrite Hc, decide_True, Hr by done. simpl. unfold swept. by rewrite Hh.
    + rewrite He. apply elem_of_app. right.
      apply list_elem_of_fmap in Hin as ([p c'] & -> & Hin).
      apply list_elem_of_omap. exists (p, c'). split; [done|].
      unfold sweepError; simpl. simpl in Hr. rewrite Hr. simpl. by rewrite Hh.
  - intros Hnin. by rewrite Hc, decide_False.
Qed.

End HealthFacts.

(** witness of C6: the sweep over a connected project whose directory is
    reachable *)
Lemma health_sweep_per_entry_witness :
  Core.status <$>
    Core.conns (Core.checkConnectionHealth (λ _, true) Core.worldConnectedA)
      !! 0%nat
  = Some Core.StConnected.
Proof.
  pose proof (health_sweep_per_entry (λ _, true) Core.worldConnectedA 0%nat
    (Core.recordA Core.StConnected) ltac:(by vm_compute)) as H.
  destruct H as (_ & H & _).
  destruct H as [H _]; [vm_compute; apply list_elem_of_here | by vm_compute |].
  by rewrite H.
Defined.
(** ** connectToProject *)

Section ConnectFacts.
Import Core.
Import Detector (Completion, Return, Throw).

Lemma mapGet_mapSet {V} k (v : V) m : mapGet k (mapSet k v m) = Some v.
Proof.
  induction m as [|[k' v'] m IH]; simpl.
  - by rewrite String.eqb_refl.
  - destruct (String.eqb k k') eqn:E; simpl; rewrite E; [done|apply IH].
Qed.

Lemma mapGet_mapSet_ne {V} k k' (v : V) m :
  k ≠ k' → mapGet k' (mapSet k v m) = mapGet k' m.
Proof.
  intros Hne. induction m as [|[k'' v''] m IH]; simpl.
  - destruct (String.eqb_spec k' k); [congruence|done].
  - destruct (String.eqb_spec k k''); simpl.
    + subst. destruct (String.eqb_spec k' k''); [congruence|done].
    + destruct (String.eqb k' k''); [done|apply IH].
Qed.





End ConnectFacts.

(** ** disconnect and the reconnect timer *)

Section ReconnectFacts.
Import Core.

Lemma updateIpc_id this f w o :
  ipcs w !! this = Some o → f o = o → updateIpc this f w = w.
Proof.
  intros Ho Hf. unfold updateIpc. rewrite alter_id.
  - by destruct w.
  - intros o' Ho'. congruence.
Qed.

(** What [disconnect] leaves of the instance: no socket, no timer, not
    connected; its other fields as they were. *)
Lemma disconnect_ipc this w o :
  ipcs w !! this = Some o →
  ipcs (disconnect this w) !! this
  = Some (ipc_with_isConnected false
            (ipc_with_socket None (ipc_with_reconnectTimer None o))).
Proof.
  intros Ho. unfold disconnect. rewrite Ho.
  destruct o as [sk ic pp pn [t|] mh ls], sk as [s|]; simpl;
    unfold updateIpc; simpl; rewrite !lookup_alter_eq, Ho; done.
Qed.

(** [disconnect] cancels the pending reconnect timer. *)
Lemma disconnect_cancels_timer this w o t :
  ipcs w !! this = Some o → reconnectTimer o = Some t →
  timers (disconnect this w) !! t = None.
Proof.
  intros Ho Ht. unfold disconnect. rewrite Ho, Ht.
  destruct (socket o); simpl; apply lookup_delete_eq.
Qed.

(** [disconnect] starts no timer. *)
Lemma disconnect_starts_no_timer this w t callback :
  timers (disconnect this w) !! t = Some callback →
  timers w !! t = Some callback.
Proof.
  unfold disconnect. destruct (ipcs w !! this) as [o|]; [|done].
  destruct (reconnectTimer o) as [t'|], (socket o); simpl; try done;
    intros H; apply lookup_delete_Some in H as [_ H]; done.
Qed.

(** A second [disconnect] changes nothing. *)
Lemma disconnect_idempotent this w :
  disconnect this (disconnect this w) = disconnect this w.
Proof.
  destruct (ipcs w !! this) as [o|] eqn:Ho.
  - pose proof (disconnect_ipc this w o Ho) as Hd.
    unfold disconnect at 1. rewrite Hd. simpl.
    by apply (updateIpc_id _ _ _ _ Hd).
  - unfold disconnect. rewrite Ho. simpl. by rewrite Ho.
Qed.

(** C4, the code at the failing input.  The owner connects and then
    disconnects: no timer is pending and the socket is destroyed.  Node
    then emits close on the destroyed socket; the listener of [connect]
    is still attached and starts the reconnect timer; 5 s later the timer
    calls [connect], which opens a second socket, and when the editor
    accepts it the instance is connected again. *)
Theorem disconnect_then_reconnects :
  (w ← ipcRun (take 4 traceDisconnectReconnect) (initial "linux");
   Some (isConnected <$> ipcs w !! 0%nat, socket <$> ipcs w !! 0%nat,
         reconnectTimer <$> ipcs w !! 0%nat,
         state <$> sockets w !! 0%nat, map_to_list (timers w)))
  = Some (Some false, Some None, Some None, Some SockDestroyed,
          [(0%nat, ConnectTimeout 0)])
  ∧ (w ← ipcRun (take 5 traceDisconnectReconnect) (initial "linux");
     Some (reconnectTimer <$> ipcs w !! 0%nat, timers w !! 1%nat))
    = Some (Some (Some 1%nat), Some (ReconnectTimer 0))
  ∧ (w ← ipcRun traceDisconnectReconnect (initial "linux");
     Some (isConnected <$> ipcs w !! 0%nat, socket <$> ipcs w !! 0%nat,
           sockets w !! 1%nat))
    = Some (Some true, Some (Some 1%nat),
            Some {| owner := 0; path := "/tmp/unity-mcp-2078156542";
                    state := SockOpen |}).
Proof. repeat split; by vm_compute. Qed.

(** C3, the code at the failing input.  After disconnect and an immediate
    connect on the same project, the UnityIPC that was dropped reconnects
    by itself: two sockets are open for the project, the one the registry
    knows and the one of the dropped instance. *)
Theorem disconnect_connect_two_transports :
  (w ← run (take 3 traceDisconnectConnect) (initial "linux");
   Some (liveTransports "/proj/A" w, unityIPCConnections w !! "/proj/A"))
  = Some ([1%nat], Some 1%nat)
  ∧ (w ← run traceDisconnectConnect (initial "linux");
     Some (liveTransports "/proj/A" w, unityIPCConnections w !! "/proj/A",
           owner <$> sockets w !! 1%nat, owner <$> sockets w !! 2%nat,
           isConnected <$> ipcs w !! 0%nat, isConnected <$> ipcs w !! 1%nat))
    = Some ([2%nat; 1%nat], Some 1%nat, Some 1%nat, Some 0%nat,
            Some true, Some true).
Proof. split; by vm_compute. Qed.

End ReconnectFacts.
(** ** Message ids *)

Section MessageIdFacts.
Import Core.

Definition hexPair (b : N) : list ascii :=
  [hexDigit ((b / 16) mod 16); hexDigit (b mod 16)]%N.

Lemma generateMessageId_chars rnd :
  String.list_ascii_of_string (generateMessageId rnd) = rnd ≫= hexPair.
Proof. apply String.list_ascii_of_string_of_list_ascii. Qed.

Lemma nibble_cases (n : N) :
  (n < 16)%N →
  n ∈ [0; 1; 2; 3; 4; 5; 6; 7; 8; 9; 10; 11; 12; 13; 14; 15]%N.
Proof.
  intros H.
  assert (∃ k, (k < 16)%nat ∧ n = N.of_nat k) as (k & Hk & ->).
  { exists (N.to_nat n). split; lia. }
  do 16 (destruct k as [|k]; [set_solver|]). lia.
Qed.

Lemma hexDigit_inj a b :
  (a < 16)%N → (b < 16)%N → hexDigit a = hexDigit b → a = b.
Proof.
  intros Ha%nibble_cases Hb%nibble_cases.
  repeat (apply elem_of_cons in Ha as [->|Ha]);
    try (by apply elem_of_nil in Ha);
    repeat (apply elem_of_cons in Hb as [->|Hb]);
    try (by apply elem_of_nil in Hb);
    first [reflexivity | by vm_compute].
Qed.

Lemma hexDigit_lower n :
  (n < 16)%N →
  hexDigit n ∈ String.list_ascii_of_string "0123456789abcdef".
Proof.
  intros Hn%nibble_cases.
  repeat (apply elem_of_cons in Hn as [->|Hn]);
    try (by apply elem_of_nil in Hn); vm_compute; set_solver.
Qed.

Lemma hexPair_inj a b :
  (a < 256)%N → (b < 256)%N → hexPair a = hexPair b → a = b.
Proof.
  intros Ha Hb [= H1 H2].
  apply hexDigit_inj in H1; [|apply N.mod_lt; lia..].
  apply hexDigit_inj in H2; [|apply N.mod_lt; lia..].
  rewrite (N.div_mod a 16), (N.div_mod b 16) by lia.
  rewrite N.mod_small in H1 by (apply N.Div0.div_lt_upper_bound; lia).
  rewrite N.mod_small in H1 by (apply N.Div0.div_lt_upper_bound; lia).
  by rewrite H1, H2.
Qed.

Lemma hexPairs_inj r1 r2 :
  Forall (λ b, b < 256)%N r1 → Forall (λ b, b < 256)%N r2 →
  r1 ≫= hexPair = r2 ≫= hexPair → r1 = r2.
Proof.
  intros H1. revert r2. induction H1 as [|a r1 Ha _ IH]; intros r2 H2 Heq.
  - destruct r2; [done|]. discriminate Heq.
  - destruct H2 as [|b r2 Hb H2]; [discriminate Heq|].
    injection Heq as E1 E2 E3.
    rewrite (hexPair_inj a b Ha Hb) by (unfold hexPair; congruence).
    f_equal. by apply IH.
Qed.

Lemma length_string_of_list_ascii l :
  String.length (String.string_of_list_ascii l) = length l.
Proof. induction l as [|c l IH]; simpl; by rewrite ?IH. Qed.

Lemma length_hexPairs r : length (r ≫= hexPair) = (2 * length r)%nat.
Proof.
  induction r as [|b r IH]; [done|].
  change ((b :: r) ≫= hexPair) with (hexPair b ++ (r ≫= hexPair)).
  rewrite length_app, IH. simpl. lia.
Qed.

(** X1. A message id has two characters per byte drawn, all of them
    lower-case hexadecimal digits, and two draws of bytes give the same id
    only if they are the same draw. *)
Theorem generateMessageId_injective (r1 r2 : list N)
    (H1 : Forall (λ b, b < 256)%N r1) (H2 : Forall (λ b, b < 256)%N r2) :
  String.length (generateMessageId r1) = (2 * length r1)%nat
  ∧ Forall (λ c, c ∈ String.list_ascii_of_string "0123456789abcdef")
      (String.list_ascii_of_string (generateMessageId r1))
  ∧ (generateMessageId r1 = generateMessageId r2 → r1 = r2).
Proof.
  split; [|split].
  - unfold generateMessageId. rewrite length_string_of_list_ascii.
    apply length_hexPairs.
  - rewrite generateMessageId_chars. clear H2 r2.
    induction H1 as [|b r Hb _ IH]; [constructor|].
    change ((b :: r) ≫= hexPair) with (hexPair b ++ (r ≫= hexPair)).
    apply Forall_app. split; [|done].
    constructor; [|constructor; [|constructor]];
      apply hexDigit_lower, N.mod_lt; lia.
  - intros Heq. apply hexPairs_inj; [done..|].
    by rewrite <- !generateMessageId_chars, Heq.
Qed.

End MessageIdFacts.

(** witness of X1 at the two sample draws *)
Lemma generateMessageId_injective_witness :
  String.length (Core.generateMessageId Core.rnd1) = 16%nat.
Proof.
  refine (proj1 (generateMessageId_injective Core.rnd1 Core.rnd2 _ _));
    repeat constructor.
Defined.
(** ** Requests and responses *)

Section CorrelatorFacts.
Import Core.

Lemma truthy_str_true s : Js.truthy_str s = true ↔ s ≠ "".
Proof.
  unfold Js.truthy_str. destruct (String.eqb_spec s ""); simpl; split;
    congruence.
Qed.

(** The fields of the world after a [sendCommand] on a connected
    instance. *)
Lemma sendCommand_connected this command parameters rnd w o s :
  ipcs w !! this = Some o → isConnected o = true → socket o = Some s →
  let p := fresh (dom (promises w)) in
  let id := generateMessageId rnd in
  let w' := (sendCommand this command parameters rnd w).2 in
  (sendCommand this command parameters rnd w).1 = p
  ∧ promises w' = <[p := Pending]> (promises w)
  ∧ ipcs w' = <[this := ipc_with_messageHandlers
                          (<[id := p]> (messageHandlers o)) o]> (ipcs w)
  ∧ timers w' = <[fresh (dom (timers w)) := CommandTimeout this id command p]>
                  (timers w)
  ∧ settled w' = settled w
  ∧ sockets w' = sockets w
  ∧ written w' =
      written w ++
        [(s, {| msg_id := Some id; msg_command := Some command;
                msg_type := None; msg_data := None;
                msg_parameters := Some parameters; msg_success := None;
                msg_error := None; msg_timestamp := Some (now w) |})].
Proof.
  intros Ho Hc Hs. unfold sendCommand. simpl. rewrite Ho, Hc, Hs. simpl.
  repeat split; try done.
  apply map_eq. intros i. rewrite lookup_alter, lookup_insert.
  destruct (decide (this = i)); [|done]. subst. by rewrite Ho.
Qed.

(** What a [sendCommand] on an instance that is down leaves behind. *)
Lemma sendCommand_down (this : nat) (command : string)
    (parameters : Obj) (rnd : list N) (w : World) (o : UnityIPC)
    (Ho : ipcs w !! this = Some o)
    (Hdown : isConnected o = false ∨ socket o = None) :
  let p := (sendCommand this command parameters rnd w).1 in
  let w' := (sendCommand this command parameters rnd w).2 in
  (p ∉ dom (promises w))
  ∧ promises w' !! p = Some (Rejected "Not connected to Unity Editor")
  ∧ settled w' = settled w ++ [(p, Rejected "Not connected to Unity Editor")]
  ∧ ipcs w' = ipcs w ∧ timers w' = timers w ∧ written w' = written w
  ∧ sockets w' = sockets w.
Proof.
  unfold sendCommand. simpl. rewrite Ho.
  destruct (isConnected o) eqn:Hc, (socket o) as [s|] eqn:Hs;
    try (by destruct Hdown);
    unfold settle; simpl; rewrite lookup_insert_eq; simpl;
    (split; [apply is_fresh|]); (split; [apply lookup_insert_eq|]); done.
Qed.

(** X2. A [sendCommand] on an instance that is not connected, or has no
    socket, rejects its promise at once with the not-connected error:
    no handler is registered, nothing is written and no timer starts. *)
Theorem sendCommand_not_connected (this : nat) (command : string)
    (parameters : Obj) (rnd : list N) (w : World) (o : UnityIPC)
    (Ho : ipcs w !! this = Some o)
    (Hdown : isConnected o = false ∨ socket o = None) :
  let p := (sendCommand this command parameters rnd w).1 in
  let w' := (sendCommand this command parameters rnd w).2 in
  (p ∉ dom (promises w))
  ∧ promises w' !! p = Some (Rejected "Not connected to Unity Editor")
  ∧ settled w' = settled w ++ [(p, Rejected "Not connected to Unity Editor")]
  ∧ ipcs w' = ipcs w ∧ timers w' = timers w ∧ written w' = written w
  ∧ sockets w' = sockets w.
Proof. exact (sendCommand_down this command parameters rnd w o Ho Hdown). Qed.

Definition forget (id : string) (o : UnityIPC) : UnityIPC :=
  ipc_with_messageHandlers (delete id (messageHandlers o)) o.

Lemma handlerOf_forget this id w this' id' :
  handlerOf (updateIpc this (forget id) w) this' id' =
    if decide (this' = this ∧ id' = id) then None else handlerOf w this' id'.
Proof.
  unfold handlerOf, updateIpc; simpl. rewrite lookup_alter.
  destruct (decide (this = this')) as [->|Hne].
  - destruct (ipcs w !! this') as [o|]; simpl.
    + rewrite lookup_delete. destruct (decide (id = id')) as [->|Hid].
      * by rewrite decide_True.
      * rewrite decide_False; [done|]. intros [_ ?]. congruence.
    + by case_decide.
  - rewrite decide_False; [done|]. intros [? _]. congruence.
Qed.

(** A chunk that answers a pending request: the handler is taken out of
    the map and called. *)
Lemma handleIncomingMessage_matched this m id p w :
  msg_id m = Some id → id ≠ "" → handlerOf w this id = Some p →
  handleIncomingMessage this (Some m) w
  = settle p (Resolved m) (updateIpc this (forget id) w).
Proof.
  intros Hid Hne Hh. unfold handleIncomingMessage. rewrite Hid. simpl.
  by rewrite (proj2 (truthy_str_true id) Hne), Hh.
Qed.

(** Every other chunk leaves promises, handlers, timers and sockets
    alone: at most it is passed on as an event. *)
Lemma handleIncomingMessage_unmatched this data w :
  (∀ m id, data = Some m → msg_id m = Some id → id ≠ "" →
           handlerOf w this id = None) →
  let w' := handleIncomingMessage this data w in
  ipcs w' = ipcs w ∧ sockets w' = sockets w ∧ timers w' = timers w
  ∧ promises w' = promises w ∧ settled w' = settled w
  ∧ written w' = written w ∧ connections w' = connections w
  ∧ activeConnection w' = activeConnection w
  ∧ unityIPCConnections w' = unityIPCConnections w.
Proof.
  intros Hno. destruct data as [m|]; [|done]. simpl.
  assert ((msg_id m ≫= λ id,
             if Js.truthy_str id
             then (λ handler, (id, handler)) <$> handlerOf w this id
             else None) = None) as ->.
  { destruct (msg_id m) as [id|] eqn:Hid; [|done]. simpl.
    destruct (Js.truthy_str id) eqn:Ht; [|done].
    by rewrite (Hno m id eq_refl Hid (proj1 (truthy_str_true id) Ht)). }
  destruct (msg_type m) as [type|]; [|done].
  destruct (Js.truthy_str type); [|done].
  set (w1 := emit this (ev_unity_event m) w).
  destruct (emit_frame this (ev_unity_event m) w)
    as (E1 & E2 & E3 & E4 & E5 & E6 & E7 & E8 & E9). fold w1 in E1, E2, E3, E4, E5, E6, E7, E8, E9.
  repeat match goal with
         | |- context [if ?b then _ else _] => destruct b
         end;
    [ destruct (emit_frame this (ev_state_update (msg_data m)) w1)
        as (F1 & F2 & F3 & F4 & F5 & F6 & F7 & F8 & F9)
    | destruct (emit_frame this (ev_play_mode_changed (msg_data m)) w1)
        as (F1 & F2 & F3 & F4 & F5 & F6 & F7 & F8 & F9)
    | destruct (emit_frame this (ev_scene_opened (msg_data m)) w1)
        as (F1 & F2 & F3 & F4 & F5 & F6 & F7 & F8 & F9)
    | destruct (emit_frame this (ev_hierarchy_changed (msg_data m)) w1)
        as (F1 & F2 & F3 & F4 & F5 & F6 & F7 & F8 & F9)
    | done ];
    by rewrite F1, F2, F3, F4, F5, F6, F7, F8, F9.
Qed.

(** A promise that is settled stays as it is, whatever arrives. *)
Lemma handleIncomingMessage_settled_stable this data w p o :
  promises w !! p = Some o → o ≠ Pending →
  promises (handleIncomingMessage this data w) !! p = Some o.
Proof.
  intros Hp Ho.
  destruct data as [m|]; [|done].
  destruct (msg_id m) as [id|] eqn:Hid.
  - destruct (decide (id = "")) as [->|Hne].
    + destruct (handleIncomingMessage_unmatched this (Some m) w)
        as (_ & _ & _ & E & _); [|by rewrite E].
      intros m' id' [= <-] Hid'. congruence.
    + destruct (handlerOf w this id) as [q|] eqn:Hh.
      * rewrite (handleIncomingMessage_matched _ _ _ _ _ Hid Hne Hh).
        rewrite settle_promises. case_decide as Hq; [|done].
        destruct Hq as [-> Hq]. simpl in Hq. congruence.
      * destruct (handleIncomingMessage_unmatched this (Some m) w)
          as (_ & _ & _ & E & _); [|by rewrite E].
        intros m' id' [= <-] Hid'. congruence.
  - destruct (handleIncomingMessage_unmatched this (Some m) w)
      as (_ & _ & _ & E & _); [|by rewrite E].
    intros m' id' [= <-] Hid'. congruence.
Qed.

Lemma deliverAll_settled_stable this chunks w p o :
  promises w !! p = Some o → o ≠ Pending →
  promises (deliverAll this chunks w) !! p = Some o.
Proof.
  revert w. induction chunks as [|m chunks IH]; intros w Hp Ho; [done|].
  unfold deliverAll. rewrite fold_left_step. apply IH; [|done].
  by apply handleIncomingMessage_settled_stable.
Qed.

Lemma handlerOf_register this id p o w this' id' :
  ipcs w !! this = Some o →
  handlerOf
    (with_ipcs
       (<[this := ipc_with_messageHandlers (<[id := p]> (messageHandlers o)) o]>
          (ipcs w)) w) this' id' =
    if decide (this' = this ∧ id' = id) then Some p else handlerOf w this' id'.
Proof.
  intros Ho. unfold handlerOf; simpl. rewrite lookup_insert.
  destruct (decide (this = this')) as [->|Hne]; simpl.
  - rewrite Ho; simpl. rewrite lookup_insert.
    destruct (decide (id = id')) as [->|Hid].
    + by rewrite decide_True.
    + rewrite decide_False; [done|]. intros [_ ?]. congruence.
  - rewrite decide_False; [done|]. intros [? _]. congruence.
Qed.

(** What a batch of [sendCommand] calls leaves behind: one pending
    promise and one handler per request. *)
Lemma sendAll_spec this reqs : ∀ w o s,
  ipcs w !! this = Some o → isConnected o = true → socket o = Some s →
  NoDup (requestId <$> reqs) →
  let ps := (sendAll this reqs w).1 in
  let w' := (sendAll this reqs w).2 in
  length ps = length reqs
  ∧ NoDup ps
  ∧ (∀ p, p ∈ ps → p ∉ dom (promises w))
  ∧ (∀ k req p, reqs !! k = Some req → ps !! k = Some p →
       handlerOf w' this (requestId req) = Some p
       ∧ promises w' !! p = Some Pending)
  ∧ (∀ q, q ∈ dom (promises w) → promises w' !! q = promises w !! q)
  ∧ (∀ id, id ∉ requestId <$> reqs →
       handlerOf w' this id = handlerOf w this id).
Proof.
  induction reqs as [|[[command parameters] rnd] reqs IH];
    intros w o s Ho Hc Hs Hnd.
  - simpl. repeat split; try done; [constructor | by intros ? ?%elem_of_nil].
  - rewrite fmap_cons in Hnd. apply NoDup_cons in Hnd as [Hfresh Hnd].
    destruct (sendCommand_connected this command parameters rnd w o s Ho Hc Hs)
      as (E1 & E2 & E3 & _).
    cbn [sendAll].
    destruct (sendCommand this command parameters rnd w) as [p w1] eqn:Hsend.
    simpl in E1, E2, E3. subst p.
    set (p := fresh (dom (promises w))) in *.
    assert (ipcs w1 !! this
            = Some (ipc_with_messageHandlers
                      (<[generateMessageId rnd := p]> (messageHandlers o)) o))
      as Ho1 by (rewrite E3; apply lookup_insert_eq).
    specialize (IH w1 _ s Ho1 Hc Hs Hnd).
    destruct (sendAll this reqs w1) as [ps w2] eqn:Hrest.
    simpl in IH. destruct IH as (Hlen & Hndp & Hnew & Hreg & Hold & Hoth).
    assert (p ∈ dom (promises w1)) as Hp1.
    { rewrite E2. apply elem_of_dom. rewrite lookup_insert_eq. eauto. }
    assert (∀ q, promises w1 !! q
                 = if decide (q = p) then Some Pending else promises w !! q)
      as Hw1.
    { intros q. rewrite E2, lookup_insert.
      destruct (decide (p = q)), (decide (q = p)); congruence. }
    assert (∀ this' id', handlerOf w1 this' id' =
              if decide (this' = this ∧ id' = generateMessageId rnd)
              then Some p else handlerOf w this' id') as Hh1.
    { intros this' id'. rewrite <- (handlerOf_register _ _ _ _ _ _ _ Ho).
      unfold handlerOf. by rewrite E3. }
    simpl. split; [by rewrite Hlen|]. split; [|split; [|split; [|split]]].
    + apply NoDup_cons. split; [|done]. intros Hin. by apply (Hnew p).
    + intros q [->|Hq]%elem_of_cons; [apply is_fresh|].
      intros Hin. apply (Hnew q Hq). apply elem_of_dom.
      rewrite Hw1. case_decide; [eauto|]. by apply elem_of_dom.
    + intros [|k] req q Hk Hq; simpl in Hk, Hq.
      * injection Hk as <-. injection Hq as <-. unfold requestId; simpl.
        split.
        -- rewrite Hoth; [|done]. rewrite Hh1. by rewrite decide_True.
        -- rewrite Hold by done. rewrite Hw1. by rewrite decide_True.
      * by apply (Hreg k).
    + intros q Hq. rewrite Hold.
      * rewrite Hw1. rewrite decide_False; [done|].
        intros ->. by apply (is_fresh (dom (promises w))).
      * apply elem_of_dom. rewrite Hw1. case_decide; [eauto|].
        by apply elem_of_dom.
    + intros id Hid.
      apply not_elem_of_cons in Hid as [Hid1 Hid2].
      rewrite Hoth by done. rewrite Hh1. rewrite decide_False; [done|].
      intros [_ ->]. by apply Hid1.
Qed.

Lemma NoDup_snd_inj {A B} (T : list (A * B)) a b p :
  NoDup (T.*2) → (a, p) ∈ T → (b, p) ∈ T → a = b.
Proof.
  induction T as [|[a' p'] T IH]; intros Hnd Ha Hb.
  - by apply elem_of_nil in Ha.
  - rewrite fmap_cons in Hnd. apply NoDup_cons in Hnd as [Hnin Hnd].
    apply elem_of_cons in Ha as [Ha|Ha];
      apply elem_of_cons in Hb as [Hb|Hb]; simplify_eq; try done.
    + destruct Hnin. apply list_elem_of_fmap. by exists (b, p').
    + destruct Hnin. apply list_elem_of_fmap. by exists (a, p').
    + by apply IH.
Qed.

(** Chunks that answer pending requests resolve them one by one, in
    whatever order they arrive. *)
Lemma deliverAll_resolves this chunks : ∀ w (T : list (string * nat)),
  NoDup (T.*2) → NoDup (msg_id <$> chunks) →
  (∀ m, m ∈ chunks → ∃ id p, msg_id m = Some id ∧ id ≠ "" ∧ (id, p) ∈ T) →
  (∀ id p, (id, p) ∈ T → Some id ∈ (msg_id <$> chunks) →
     handlerOf w this id = Some p ∧ promises w !! p = Some Pending) →
  ∀ id p m, (id, p) ∈ T → m ∈ chunks → msg_id m = Some id →
    promises (deliverAll this chunks w) !! p = Some (Resolved m).
Proof.
  induction chunks as [|m0 chunks IH]; intros w T HT Hnd Hall Hpend id p m HinT Hm Hid.
  - by apply elem_of_nil in Hm.
  - rewrite fmap_cons in Hnd. apply NoDup_cons in Hnd as [Hhead Hnd].
    destruct (Hall m0) as (id0 & p0 & Hid0 & Hne0 & HT0);
      [apply list_elem_of_here|].
    destruct (Hpend id0 p0 HT0) as [Hh0 Hp0].
    { rewrite fmap_cons, Hid0. apply list_elem_of_here. }
    unfold deliverAll. rewrite fold_left_step.
    fold (deliverAll this chunks (handleIncomingMessage this (Some m0) w)).
    rewrite (handleIncomingMessage_matched _ _ _ _ _ Hid0 Hne0 Hh0).
    set (w1 := settle p0 (Resolved m0) (updateIpc this (forget id0) w)).
    assert (∀ q, promises w1 !! q =
              if decide (q = p0) then Some (Resolved m0) else promises w !! q)
      as Hw1.
    { intros q. unfold w1. rewrite settle_promises. simpl.
      destruct (decide (q = p0)) as [->|Hq].
      - by rewrite decide_True.
      - rewrite decide_False; [done|]. by intros [? _]. }
    apply elem_of_cons in Hm as [->|Hm].
    + assert (id = id0) as -> by congruence.
      assert (p = p0) as ->.
      { destruct (Hpend id0 p HinT) as [Hh _]; [|congruence].
        rewrite fmap_cons, Hid0. apply list_elem_of_here. }
      apply deliverAll_settled_stable; [|done].
      rewrite Hw1. by rewrite decide_True.
    + apply (IH w1 T HT Hnd) with (id := id); try done.
      * intros m' Hm'. apply Hall. by apply list_elem_of_further.
      * intros id' p' HT' Hin'.
        assert (id' ≠ id0) as Hne'.
        { intros ->. apply Hhead. by rewrite Hid0. }
        destruct (Hpend id' p' HT') as [Hh' Hp'].
        { rewrite fmap_cons. by apply list_elem_of_further. }
        split.
        -- unfold w1.
           destruct (settle_frame p0 (Resolved m0)
                       (updateIpc this (forget id0) w)) as (Ei & _).
           rewrite (handlerOf_ipcs _ _ _ _ Ei), handlerOf_forget.
           rewrite decide_False; [done|]. by intros [_ ?].
        -- rewrite Hw1. rewrite decide_False; [done|].
           intros ->. apply Hne'. by apply (NoDup_snd_inj T id' id0 p0).
Qed.

Lemma requestId_nonempty req : length req.2 = 8%nat → requestId req ≠ "".
Proof.
  intros Hlen Heq.
  assert (String.length (requestId req) = 16%nat) as H16.
  { unfold requestId, generateMessageId.
    rewrite length_string_of_list_ascii, length_hexPairs, Hlen. done. }
  by rewrite Heq in H16.
Qed.

(** X3. Requests sent in one batch on a connected instance, with ids that
    are pairwise distinct, and one response per request arriving in any
    order: every promise is resolved with the one response that bears the
    id of its request. *)
Theorem responses_matched_by_id (this : nat) (w : World) (o : UnityIPC)
    (s : nat) (reqs : list (string * Obj * list N))
    (chunks : list UnityIPCMessage)
    (Ho : ipcs w !! this = Some o) (Hc : isConnected o = true)
    (Hs : socket o = Some s)
    (Hdraw : Forall (λ req, length req.2 = 8%nat) reqs)
    (Hnd : NoDup (requestId <$> reqs))
    (Hperm : msg_id <$> chunks ≡ₚ (λ req, Some (requestId req)) <$> reqs) :
  let ps := (sendAll this reqs w).1 in
  let w' := deliverAll this chunks (sendAll this reqs w).2 in
  length ps = length reqs
  ∧ ∀ k req p, reqs !! k = Some req → ps !! k = Some p →
      ∃ m, m ∈ chunks ∧ msg_id m = Some (requestId req)
           ∧ promises w' !! p = Some (Resolved m)
           ∧ ∀ m', m' ∈ chunks → msg_id m' = msg_id m → m' = m.
Proof.
  intros ps w'.
  destruct (sendAll_spec this reqs w o s Ho Hc Hs Hnd)
    as (Hlen & Hndp & _ & Hreg & _).
  fold ps in Hlen, Hndp, Hreg.
  split; [done|]. intros k req p Hk Hp.
  set (T := zip (requestId <$> reqs) ps).
  assert (∀ id q, (id, q) ∈ T ↔
            ∃ i r, reqs !! i = Some r ∧ id = requestId r ∧ ps !! i = Some q)
    as HT.
  { intros id q. unfold T. rewrite list_elem_of_lookup. split.
    - intros (i & Hi). apply lookup_zip_with_Some in Hi
        as (id' & q' & [= -> ->] & Hid & Hq).
      rewrite list_lookup_fmap in Hid.
      destruct (reqs !! i) as [r|] eqn:Hr; [|done]. injection Hid as <-.
      eauto.
    - intros (i & r & Hr & -> & Hq). exists i.
      apply lookup_zip_with_Some. exists (requestId r), q.
      split; [done|]. split; [|done]. by rewrite list_lookup_fmap, Hr. }
  assert (NoDup (T.*2)) as HndT.
  { unfold T. rewrite snd_zip; [done|]. rewrite length_fmap. lia. }
  assert (NoDup (msg_id <$> chunks)) as Hndc.
  { rewrite Hperm, (list_fmap_compose requestId Some).
    apply (NoDup_fmap_2 Some), Hnd. }
  assert (Some (requestId req) ∈ msg_id <$> chunks) as Hin.
  { rewrite Hperm. apply list_elem_of_fmap. exists req. split; [done|].
    by eapply list_elem_of_lookup_2. }
  apply list_elem_of_fmap in Hin as (m & Hm & Hmin).
  exists m. split; [done|]. split; [done|]. split.
  - apply (deliverAll_resolves this chunks _ T HndT Hndc)
      with (id := requestId req); try done.
    + intros m' Hm'.
      assert (msg_id m' ∈ (λ r, Some (requestId r)) <$> reqs) as Hin'.
      { rewrite <- Hperm. apply list_elem_of_fmap. eauto. }
      apply list_elem_of_fmap in Hin' as (r & Hr & Hrin).
      apply list_elem_of_lookup in Hrin as (i & Hi).
      destruct (lookup_lt_is_Some_2 ps i) as [q Hq].
      { rewrite Hlen. by eapply lookup_lt_Some. }
      exists (requestId r), q. split; [done|]. split.
      * apply requestId_nonempty.
        eapply (proj1 (Forall_forall _ _) Hdraw), list_elem_of_lookup_2, Hi.
      * apply HT. eauto.
    + intros id q (i & r & Hr & -> & Hq)%HT _. by apply (Hreg i).
    + apply HT. eauto.
  - intros m' Hm' Heq.
    apply list_elem_of_lookup in Hmin as (i & Hi).
    apply list_elem_of_lookup in Hm' as (i' & Hi').
    assert (i' = i) as ->; [|congruence].
    apply (NoDup_lookup _ _ _ (msg_id m) Hndc);
      rewrite list_lookup_fmap;
      [rewrite Hi'; simpl; by rewrite Heq | by rewrite Hi].
Qed.

(** X4. A chunk that cannot be parsed changes nothing.  A chunk that
    matches no pending request settles no promise, removes no handler,
    cancels no timer and writes nothing; when it also has no type it
    changes nothing at all. *)
Theorem unmatched_chunk_settles_nothing (this : nat) (m : UnityIPCMessage)
    (w : World)
    (Hno : ∀ id, msg_id m = Some id → id ≠ "" → handlerOf w this id = None) :
  handleIncomingMessage this None w = w
  ∧ (let w' := handleIncomingMessage this (Some m) w in
     promises w' = promises w ∧ settled w' = settled w
     ∧ (∀ this' id, handlerOf w' this' id = handlerOf w this' id)
     ∧ timers w' = timers w ∧ sockets w' = sockets w
     ∧ written w' = written w)
  ∧ (msg_type m = None ∨ msg_type m = Some "" →
     handleIncomingMessage this (Some m) w = w).
Proof.
  split; [done|]. split.
  - destruct (handleIncomingMessage_unmatched this (Some m) w)
      as (E1 & E2 & E3 & E4 & E5 & E6 & _).
    { intros m' id [= <-]. apply Hno. }
    repeat split; try done. intros this' id. by apply handlerOf_ipcs.
  - intros Hty. unfold handleIncomingMessage.
    assert ((msg_id m ≫= λ id,
               if Js.truthy_str id
               then (λ handler, (id, handler)) <$> handlerOf w this id
               else None) = None) as ->.
    { destruct (msg_id m) as [id|] eqn:Hid; [|done]. simpl.
      destruct (Js.truthy_str id) eqn:Ht; [|done].
      by rewrite (Hno id eq_refl (proj1 (truthy_str_true id) Ht)). }
    by destruct Hty as [-> | ->].
Qed.

(** X5. The timer of one request touches that request alone: when it
    fires it leaves every other handler and every other promise as it
    is; it rejects its own promise with the command timeout error when
    the request is still pending, and does nothing when the request was
    answered before. *)
Theorem command_timeout_isolated (w w' : World) (t this : nat)
    (id command : string) (p : nat)
    (Ht : timers w !! t = Some (CommandTimeout this id command p))
    (Hstep : ipcStep (TimerFires t) w = Some w') :
  timers w' = delete t (timers w)
  ∧ sockets w' = sockets w
  ∧ (∀ this' id', (this', id') ≠ (this, id) →
       handlerOf w' this' id' = handlerOf w this' id')
  ∧ (∀ q, q ≠ p → promises w' !! q = promises w !! q)
  ∧ handlerOf w' this id = None
  ∧ (is_Some (handlerOf w this id) → promises w !! p = Some Pending →
     promises w' !! p = Some (Rejected ("Command timeout: " +:+ command)))
  ∧ (handlerOf w this id = None →
     promises w' = promises w ∧ settled w' = settled w).
Proof.
  unfold ipcStep in Hstep. rewrite Ht in Hstep. simpl in Hstep.
  injection Hstep as <-. unfold onCommandTimeout.
  change (handlerOf (clearTimeout t w) this id) with (handlerOf w this id).
  destruct (handlerOf w this id) as [h|] eqn:Hh.
  - set (w1 := updateIpc this (forget id) (clearTimeout t w)).
    destruct (settle_frame p (Rejected ("Command timeout: " +:+ command)) w1)
      as (Ei & Et & Es & _).
    fold (forget id). fold w1.
    split; [by rewrite Et|]. split; [by rewrite Es|].
    split; [|split; [|split; [|split]]].
    + intros this' id' Hne. rewrite (handlerOf_ipcs _ _ _ _ Ei).
      unfold w1. rewrite handlerOf_forget.
      rewrite decide_False; [done|]. intros [-> ->]. done.
    + intros q Hq. rewrite settle_promises.
      rewrite decide_False; [done|]. by intros [? _].
    + rewrite (handlerOf_ipcs _ _ _ _ Ei). unfold w1.
      rewrite handlerOf_forget. by rewrite decide_True.
    + intros _ Hp. rewrite settle_promises. by rewrite decide_True.
    + done.
  - repeat split; done.
Qed.

End CorrelatorFacts.

(** Sample input: two requests on the connected instance of the sample
    world, answered in the opposite order. *)
(** witness of X2: a command on an instance that never connected *)
Lemma sendCommand_not_connected_witness :
  Core.promises (Core.sendCommand 0 "ping" ∅ Core.rnd1 Core.worldIpcNew).2
    !! (Core.sendCommand 0 "ping" ∅ Core.rnd1 Core.worldIpcNew).1
  = Some (Core.Rejected "Not connected to Unity Editor").
Proof.
  refine (proj1 (proj2
    (sendCommand_not_connected 0 "ping" ∅ Core.rnd1 Core.worldIpcNew
       {| Core.socket := None; Core.isConnected := false;
          Core.ipc_projectPath := "/proj/A";
          Core.pipeName := Naming.pipeName "/proj/A";
          Core.reconnectTimer := None; Core.messageHandlers := ∅;
          Core.listeners := None |} _ _))).
  - by vm_compute.
  - by left.
Defined.

(** witness of X3: two requests answered in the opposite order *)
Lemma responses_matched_by_id_witness :
  ∃ m, m ∈ Core.twoResponses
       ∧ Core.msg_id m = Some (Core.generateMessageId Core.rnd1)
       ∧ Core.promises
           (Core.deliverAll 0 Core.twoResponses
              (Core.sendAll 0 Core.twoRequests Core.worldIpcConnected).2)
           !! 0%nat = Some (Core.Resolved m).
Proof.
  assert (Core.ipcs Core.worldIpcConnected !! 0%nat
          = Some {| Core.socket := Some 0%nat; Core.isConnected := true;
                    Core.ipc_projectPath := "/proj/A";
                    Core.pipeName := Naming.pipeName "/proj/A";
                    Core.reconnectTimer := None; Core.messageHandlers := ∅;
                    Core.listeners := None |}) as Ho by (by vm_compute).
  destruct (responses_matched_by_id 0 Core.worldIpcConnected _ 0%nat
              Core.twoRequests Core.twoResponses Ho eq_refl eq_refl)
    as [_ H].
  - repeat constructor.
  - vm_compute. apply NoDup_cons. split; [|apply NoDup_singleton].
    intros Hin%list_elem_of_singleton. discriminate Hin.
  - apply perm_swap.
  - destruct (H 0%nat ("ping", ∅, Core.rnd1) 0%nat eq_refl)
      as (m & Hm & Hid & Hp & _); [by vm_compute|].
    exists m. exact (conj Hm (conj Hid Hp)).
Defined.

(** witness of X4: a response for an id nobody waits for *)
Lemma unmatched_chunk_settles_nothing_witness :
  Core.handleIncomingMessage 0 (Some Core.strayChunk) Core.worldPingInFlight
  = Core.worldPingInFlight.
Proof.
  refine (proj2 (proj2
    (unmatched_chunk_settles_nothing 0 Core.strayChunk Core.worldPingInFlight
       _)) _).
  - intros id [= <-] _. by vm_compute.
  - by left.
Defined.

(** witness of X5: the timer of the ping in flight fires *)
Lemma command_timeout_isolated_witness :
  Core.handlerOf
    (Core.fire (Core.CommandTimeout 0 "0102030405060708" "ping" 0)
       (Core.clearTimeout 1 Core.worldPingInFlight))
    0 "0102030405060708" = None.
Proof.
  refine (proj1 (proj2 (proj2 (proj2 (proj2
    (command_timeout_isolated Core.worldPingInFlight _ 1%nat 0%nat
       "0102030405060708" "ping" 0%nat _ _)))))).
  - by vm_compute.
  - by vm_compute.
Defined.
(** ** The reconnect timer *)

Section TimerFacts.
Import Core.
Import Detector (Completion, Return, Throw).

(** [this.reconnectTimer] of an instance. *)
Definition reconnectTimerOf (w : World) (this : nat) : option nat :=
  ipcs w !! this ≫= reconnectTimer.

(** The pending reconnect timers are exactly the ones the instances hold
    in their [reconnectTimer] field. *)
Definition reconnectInv (w : World) : Prop :=
  ∀ this t,
    timers w !! t = Some (ReconnectTimer this) ↔ reconnectTimerOf w this = Some t.

Lemma reconnectTimerOf_updateIpc this g w this' :
  (∀ o, reconnectTimer (g o) = reconnectTimer o) →
  reconnectTimerOf (updateIpc this g w) this' = reconnectTimerOf w this'.
Proof.
  intros Hg. unfold reconnectTimerOf, updateIpc; simpl. rewrite lookup_alter.
  case_decide; [|done]. subst.
  destruct (ipcs w !! this'); simpl; [|done]. apply Hg.
Qed.

Lemma reconnectInv_frame w w' :
  (∀ this, reconnectTimerOf w' this = reconnectTimerOf w this) →
  timers w' = timers w →
  reconnectInv w → reconnectInv w'.
Proof.
  intros Hi Ht Hinv this t. rewrite Ht, Hi. apply (Hinv this t).
Qed.

Lemma reconnectInv_ipcs w w' :
  ipcs w' = ipcs w → timers w' = timers w → reconnectInv w → reconnectInv w'.
Proof.
  intros Hi. apply reconnectInv_frame. intros this.
  unfold reconnectTimerOf. by rewrite Hi.
Qed.

Lemma reconnectInv_updateIpc this g w :
  (∀ o, reconnectTimer (g o) = reconnectTimer o) →
  reconnectInv w → reconnectInv (updateIpc this g w).
Proof.
  intros Hg. apply reconnectInv_frame; [|done].
  intros this'. by apply reconnectTimerOf_updateIpc.
Qed.

Definition isReconnect (callback : Timer) : Prop :=
  match callback with ReconnectTimer _ => True | _ => False end.

Lemma reconnectInv_setTimeout callback w :
  ¬ isReconnect callback →
  reconnectInv w → reconnectInv (setTimeout callback w).2.
Proof.
  intros Hcb Hinv this t. unfold setTimeout; simpl.
  change (reconnectTimerOf (with_timers ?m w) this)
    with (reconnectTimerOf w this).
  rewrite <- (Hinv this t), lookup_insert.
  case_decide as Ht; [|done]. subst. split.
  - intros [= ->]. by destruct Hcb.
  - intros Hin. exfalso. apply (is_fresh (dom (timers w))), elem_of_dom. eauto.
Qed.

Lemma reconnectInv_clearTimeout t w :
  (∀ this, timers w !! t ≠ Some (ReconnectTimer this)) →
  reconnectInv w → reconnectInv (clearTimeout t w).
Proof.
  intros Hcb Hinv this t'. unfold clearTimeout; simpl.
  change (reconnectTimerOf (with_timers ?m w) this)
    with (reconnectTimerOf w this).
  rewrite <- (Hinv this t'), lookup_delete.
  case_decide as Ht; [|done]. subst. split; [done|]. intros H.
  by destruct (Hcb this).
Qed.

Lemma reconnectInv_newUnityIPC projectPath w :
  reconnectInv w → reconnectInv (newUnityIPC projectPath w).2.
Proof.
  intros Hinv this t. unfold newUnityIPC, reconnectTimerOf; simpl.
  rewrite lookup_insert. case_decide as Hthis.
  - subst. simpl. split; [|done]. intros Ht. apply Hinv in Ht.
    unfold reconnectTimerOf in Ht.
    destruct (ipcs w !! fresh (dom (ipcs w))) as [o|] eqn:Ho; [|done].
    exfalso. apply (is_fresh (dom (ipcs w))), elem_of_dom. eauto.
  - apply Hinv.
Qed.

Lemma reconnectInv_connect this w :
  reconnectInv w → reconnectInv (connect this w).
Proof.
  intros Hinv. unfold connect. destruct (ipcs w !! this) as [o|]; [|done].
  apply reconnectInv_setTimeout; [by intros []|].
  apply reconnectInv_updateIpc; [done|].
  by apply (reconnectInv_ipcs w).
Qed.

Lemma reconnectInv_destroy s w :
  reconnectInv w → reconnectInv (destroy s w).
Proof. by apply reconnectInv_ipcs. Qed.

Lemma reconnectInv_emit this ev w :
  reconnectInv w → reconnectInv (emit this ev w).
Proof.
  destruct (emit_frame this ev w) as (Ei & _ & Et & _).
  by apply reconnectInv_ipcs.
Qed.

Lemma reconnectInv_settle p o w :
  reconnectInv w → reconnectInv (settle p o w).
Proof.
  destruct (settle_frame p o w) as (Ei & Et & _). by apply reconnectInv_ipcs.
Qed.

Lemma reconnectInv_scheduleReconnect this w :
  reconnectInv w → reconnectInv (scheduleReconnect this w).
Proof.
  intros Hinv. unfold scheduleReconnect.
  destruct (ipcs w !! this) as [o|] eqn:Ho; [|done].
  destruct (reconnectTimer o) as [t0|] eqn:Hrt; [done|]. simpl.
  intros this' t. unfold reconnectTimerOf, updateIpc; simpl.
  rewrite lookup_alter, lookup_insert.
  pose proof (is_fresh (dom (timers w))) as Hfresh.
  destruct (decide (fresh (dom (timers w)) = t)) as [<-|Ht].
  - destruct (decide (this = this')) as [<-|Hthis].
    + rewrite Ho. simpl. done.
    + split; [congruence|]. intros Hin. exfalso.
      apply Hfresh, elem_of_dom. exists (ReconnectTimer this').
      by apply Hinv.
  - rewrite (Hinv this' t). unfold reconnectTimerOf.
    destruct (decide (this = this')) as [<-|Hthis]; [|done].
    rewrite Ho; simpl. rewrite Hrt. split; [done|]. congruence.
Qed.

Lemma reconnectInv_disconnect this w :
  reconnectInv w → reconnectInv (disconnect this w).
Proof.
  intros Hinv. unfold disconnect.
  destruct (ipcs w !! this) as [o|] eqn:Ho; [|done].
  apply reconnectInv_updateIpc; [done|].
  assert (reconnectInv
            match reconnectTimer o with
            | Some t => updateIpc this (ipc_with_reconnectTimer None)
                          (clearTimeout t w)
            | None => w
            end) as Hinv1.
  { destruct (reconnectTimer o) as [t0|] eqn:Hrt; [|done].
    intros this' t. unfold reconnectTimerOf, updateIpc, clearTimeout; simpl.
    rewrite lookup_alter, lookup_delete.
    destruct (decide (this = this')) as [<-|Hthis].
    - rewrite Ho; simpl. split; [|done].
      case_decide; [done|]. intros Ht%Hinv.
      unfold reconnectTimerOf in Ht. rewrite Ho in Ht. simpl in Ht. congruence.
    - case_decide as Ht; [|apply Hinv]. subst. split; [done|].
      intros Hin%Hinv.
      assert (timers w !! t = Some (ReconnectTimer this)) as H1.
      { apply Hinv. unfold reconnectTimerOf. by rewrite Ho. }
      congruence. }
  destruct (socket o) as [s|]; [|done].
  apply reconnectInv_updateIpc; [done|]. by apply reconnectInv_destroy.
Qed.

Lemma reconnectInv_sendCommand this command parameters rnd w :
  reconnectInv w → reconnectInv (sendCommand this command parameters rnd w).2.
Proof.
  intros Hinv. unfold sendCommand.
  set (w0 := with_promises _ w).
  assert (reconnectInv w0) as Hinv0 by (by apply (reconnectInv_ipcs w)).
  change (ipcs w0) with (ipcs w).
  destruct (ipcs w !! this) as [o|]; [|done].
  destruct (isConnected o), (socket o) as [s|]; cbn [snd];
    try (by apply reconnectInv_settle).
  apply reconnectInv_setTimeout; [by intros []|].
  eapply (reconnectInv_ipcs (updateIpc this _ w0)); [reflexivity..|].
  by apply reconnectInv_updateIpc.
Qed.

Lemma reconnectInv_handleIncomingMessage this data w :
  reconnectInv w → reconnectInv (handleIncomingMessage this data w).
Proof.
  intros Hinv. unfold handleIncomingMessage.
  destruct data as [m|]; [|done].
  destruct (msg_id m ≫= _) as [[id handler]|].
  - apply reconnectInv_settle. by apply reconnectInv_updateIpc.
  - destruct (msg_type m) as [type|]; [|done].
    destruct (Js.truthy_str type); [|done].
    repeat match goal with
           | |- context [if ?b then _ else _] => destruct b
           end; by repeat apply reconnectInv_emit.
Qed.

Lemma reconnectInv_onCommandTimeout this id command p w :
  reconnectInv w → reconnectInv (onCommandTimeout this id command p w).
Proof.
  intros Hinv. unfold onCommandTimeout.
  destruct (handlerOf w this id); [|done].
  apply reconnectInv_settle. by apply reconnectInv_updateIpc.
Qed.

Lemma reconnectInv_onConnectTimeout this w :
  reconnectInv w → reconnectInv (onConnectTimeout this w).
Proof.
  intros Hinv. unfold onConnectTimeout.
  destruct (ipcs w !! this) as [o|]; [|done].
  destruct (isConnected o); [done|].
  destruct (socket o); [|done]. by apply reconnectInv_destroy.
Qed.

(** Firing a pending timer: the timer leaves the table and its callback
    runs. *)
Lemma reconnectInv_fire t callback w :
  timers w !! t = Some callback →
  reconnectInv w → reconnectInv (fire callback (clearTimeout t w)).
Proof.
  intros Ht Hinv. destruct callback as [this|this id command p|this]; simpl.
  - apply reconnectInv_onConnectTimeout, reconnectInv_clearTimeout; [|done].
    intros this'. congruence.
  - apply reconnectInv_onCommandTimeout, reconnectInv_clearTimeout; [|done].
    intros this'. congruence.
  - unfold onReconnectTimer. apply reconnectInv_connect.
    intros this' t'. unfold reconnectTimerOf, updateIpc, clearTimeout; simpl.
    rewrite lookup_alter, lookup_delete.
    assert (reconnectTimerOf w this = Some t) as Hrt by (by apply Hinv).
    unfold reconnectTimerOf in Hrt.
    destruct (ipcs w !! this) as [o|] eqn:Ho; [|done]. simpl in Hrt.
    destruct (decide (this = this')) as [<-|Hthis].
    + simpl. split; [|done].
      case_decide; [done|]. intros Hin%Hinv.
      unfold reconnectTimerOf in Hin. rewrite Ho in Hin. simpl in Hin.
      congruence.
    + case_decide as Heq; [|apply Hinv]. subst. split; [done|].
      intros Hin%Hinv. congruence.
Qed.

Lemma reconnectInv_setSockState s st w :
  reconnectInv w → reconnectInv (setSockState s st w).
Proof. by apply reconnectInv_ipcs. Qed.

Lemma reconnectInv_onConnect this w :
  reconnectInv w → reconnectInv (onConnect this w).
Proof.
  intros Hinv. unfold onConnect.
  by apply reconnectInv_emit, reconnectInv_updateIpc.
Qed.

Lemma reconnectInv_onError this w :
  reconnectInv w → reconnectInv (onError this w).
Proof. intros Hinv. by apply reconnectInv_updateIpc. Qed.

Lemma reconnectInv_onClose this w :
  reconnectInv w → reconnectInv (onClose this w).
Proof.
  intros Hinv. unfold onClose.
  by apply reconnectInv_scheduleReconnect, reconnectInv_emit,
    reconnectInv_updateIpc.
Qed.

Lemma reconnectInv_ipcStep e w w' :
  ipcStep e w = Some w' → reconnectInv w → reconnectInv w'.
Proof.
  intros Hstep Hinv. destruct e; simpl in Hstep.
  - injection Hstep as <-. by apply reconnectInv_newUnityIPC.
  - injection Hstep as <-. by apply reconnectInv_connect.
  - injection Hstep as <-. by apply reconnectInv_disconnect.
  - injection Hstep as <-. by apply reconnectInv_sendCommand.
  - destruct (sockets w !! s) as [sk|]; simpl in Hstep; [|done].
    destruct (state sk); try done. injection Hstep as <-.
    by apply reconnectInv_onConnect, reconnectInv_setSockState.
  - destruct (sockets w !! s) as [sk|]; simpl in Hstep; [|done].
    destruct (state sk); try done. injection Hstep as <-.
    by apply reconnectInv_handleIncomingMessage.
  - destruct (sockets w !! s) as [sk|]; simpl in Hstep; [|done].
    destruct (state sk); try done; injection Hstep as <-;
      by apply reconnectInv_onError, reconnectInv_setSockState.
  - destruct (sockets w !! s) as [sk|]; simpl in Hstep; [|done].
    destruct (state sk); try done; injection Hstep as <-;
      by apply reconnectInv_onClose, reconnectInv_setSockState.
  - destruct (timers w !! t) as [callback|] eqn:Ht; simpl in Hstep; [|done].
    injection Hstep as <-. by apply reconnectInv_fire.
  - injection Hstep as <-. by apply (reconnectInv_ipcs w).
Qed.

Lemma findTimer_Some P w t callback :
  findTimer P w = Some (t, callback) →
  timers w !! t = Some callback ∧ P callback = true.
Proof.
  unfold findTimer. intros H.
  assert (In (t, callback) (List.filter (λ x, P x.2) (map_to_list (timers w))))
    as Hin.
  { destruct (List.filter _ _) as [|x l]; [done|].
    injection H as ->. by left. }
  apply List.filter_In in Hin as [Hin HP]. split; [|done].
  by apply elem_of_map_to_list, list_elem_of_In.
Qed.

Lemma reconnectInv_fireTimer P w :
  reconnectInv w → reconnectInv (fireTimer P w).
Proof.
  intros Hinv. unfold fireTimer.
  destruct (findTimer P w) as [[t callback]|] eqn:Hf; [|done].
  apply findTimer_Some in Hf as [Ht _]. by apply reconnectInv_fire.
Qed.

Lemma reconnectInv_awaitConnect unityIPC attempt w :
  reconnectInv w → reconnectInv (awaitConnect unityIPC attempt w).2.
Proof.
  intros Hinv. unfold awaitConnect.
  pose proof (reconnectInv_connect unityIPC w Hinv) as Hc.
  destruct attempt; cbn [snd].
  - by apply reconnectInv_onConnect, reconnectInv_setSockState.
  - by apply reconnectInv_onError, reconnectInv_setSockState.
  - by apply reconnectInv_fireTimer.
Qed.

Lemma reconnectInv_getUnityState unityIPC rnd reply w :
  reconnectInv w → reconnectInv (getUnityState unityIPC rnd reply w).2.
Proof.
  intros Hinv. unfold getUnityState.
  pose proof (reconnectInv_sendCommand unityIPC "get_state" ∅ rnd w Hinv) as H1.
  destruct (sendCommand unityIPC "get_state" ∅ rnd w) as [p w1].
  cbn [snd] in H1.
  set (w2 := match reply with
             | Some m => handleIncomingMessage unityIPC (Some m) w1
             | None => w1
             end).
  assert (reconnectInv w2) as H2.
  { unfold w2. destruct reply; [|done].
    by apply reconnectInv_handleIncomingMessage. }
  set (w3 := match promises w2 !! p with
             | Some Pending => fireTimer (isCommandTimeoutOf p) w2
             | _ => w2
             end).
  assert (reconnectInv w3) as H3.
  { unfold w3. destruct (promises w2 !! p) as [[]|]; try done.
    by apply reconnectInv_fireTimer. }
  by destruct (promises w3 !! p) as [[]|].
Qed.

Lemma reconnectInv_updateConn c f w :
  reconnectInv w → reconnectInv (updateConn c f w).
Proof. by apply reconnectInv_ipcs. Qed.

Lemma reconnectInv_connectToProject projectPath info attempt procs rnd reply w :
  reconnectInv w →
  reconnectInv (connectToProject projectPath info attempt procs rnd reply w).2.
Proof.
  intros Hinv. unfold connectToProject.
  destruct info as [projectInfo|]; [|done].
  destruct (connectedEntry projectPath w); [done|].
  pose proof (reconnectInv_newUnityIPC projectPath w Hinv) as H1.
  destruct (newUnityIPC projectPath w) as [unityIPC w1]. cbn [snd] in H1.
  pose proof (reconnectInv_awaitConnect unityIPC attempt w1 H1) as H2.
  destruct (awaitConnect unityIPC attempt w1) as [isUnityRunning w2].
  cbn [snd] in H2.
  set (connection := fresh (dom (conns w2))).
  set (w3 := with_conns _ w2).
  assert (reconnectInv w3) as H3 by (by apply (reconnectInv_ipcs w2)).
  cbn [snd].
  eapply reconnectInv_ipcs; [reflexivity..|].
  eapply reconnectInv_ipcs; [reflexivity..|].
  eapply reconnectInv_ipcs; [reflexivity..|].
  destruct isUnityRunning; [|done].
  set (w4 := with_unityIPCConnections _ _).
  assert (reconnectInv w4) as H4.
  { unfold w4. eapply reconnectInv_ipcs; [reflexivity..|].
    by apply reconnectInv_updateIpc. }
  pose proof (reconnectInv_getUnityState unityIPC rnd reply w4 H4) as H5.
  destruct (getUnityState unityIPC rnd reply w4) as [[[unityState|]|e] w5];
    cbn [snd] in H5; done.
Qed.

Lemma reconnectInv_disconnectFromProject projectPath w :
  reconnectInv w → reconnectInv (disconnectFromProject projectPath w).2.
Proof.
  intros Hinv. unfold disconnectFromProject.
  destruct (match projectPath with
            | Some path =>
                if Js.truthy_str path then Some path else activeConnection w
            | None => activeConnection w
            end) as [targetPath|]; [|done].
  destruct (Js.truthy_str targetPath); [|done]. cbn [negb].
  destruct (mapGet targetPath (connections w)) as [connection|]; [|done].
  cbn [snd].
  set (w1 := match unityIPCConnections w !! targetPath with
             | Some unityIPC => _
             | None => w
             end).
  assert (reconnectInv w1) as H1.
  { unfold w1. destruct (unityIPCConnections w !! targetPath); [|done].
    eapply reconnectInv_ipcs; [reflexivity..|].
    by apply reconnectInv_disconnect. }
  eapply reconnectInv_ipcs; [reflexivity..|].
  eapply reconnectInv_ipcs; [reflexivity..|].
  set (w2 := updateConn connection (conn_with_status StDisconnected) w1).
  assert (reconnectInv w2) as H2 by (by apply reconnectInv_updateConn).
  by destruct (bool_decide (activeConnection w2 = Some targetPath)).
Qed.

Lemma reconnectInv_switchActiveProject projectPath w :
  reconnectInv w → reconnectInv (switchActiveProject projectPath w).2.
Proof.
  intros Hinv. unfold switchActiveProject.
  destruct (mapGet projectPath (connections w) ≫= _) as [connection|]; [|done].
  by destruct (bool_decide (status connection = StConnected)).
Qed.

Lemma reconnectInv_checkConnectionHealth access w :
  reconnectInv w → reconnectInv (checkConnectionHealth access w).
Proof.
  destruct (checkConnectionHealth_fold access (connections w) w)
    as (_ & _ & _ & _ & _ & _ & Hi & _ & Ht & _).
  by apply reconnectInv_ipcs.
Qed.

Lemma reconnectInv_step e w w' :
  step e w = Some w' → reconnectInv w → reconnectInv w'.
Proof.
  intros Hstep Hinv. destruct e; simpl in Hstep.
  - by eapply reconnectInv_ipcStep.
  - injection Hstep as <-. by apply reconnectInv_connectToProject.
  - injection Hstep as <-. by apply reconnectInv_disconnectFromProject.
  - injection Hstep as <-. by apply reconnectInv_switchActiveProject.
  - injection Hstep as <-. by apply reconnectInv_checkConnectionHealth.
Qed.

(** Induction over the steps of a run. *)
Lemma run_invariant (P : World → Prop) es w w' :
  (∀ e w1 w2, step e w1 = Some w2 → P w1 → P w2) →
  run es w = Some w' → P w → P w'.
Proof.
  intros Hstep. revert w. induction es as [|e es IH]; intros w Hrun Hw.
  - by injection Hrun as <-.
  - simpl in Hrun. destruct (step e w) as [w1|] eqn:He; [|done].
    simpl in Hrun. eauto.
Qed.

(** X6. Whatever the owner calls and whatever Node delivers, an instance
    never has two reconnect timers pending: the pending reconnect timers
    are exactly the handles the instances hold in [reconnectTimer], so the
    one [disconnect] clears is the only one there is. *)
Theorem reconnect_timer_unique (platform : string) (es : list Step)
    (w : World) (Hrun : run es (initial platform) = Some w) :
  (∀ this t, timers w !! t = Some (ReconnectTimer this)
             ↔ reconnectTimerOf w this = Some t)
  ∧ (∀ this t1 t2,
       timers w !! t1 = Some (ReconnectTimer this) →
       timers w !! t2 = Some (ReconnectTimer this) → t1 = t2)
  ∧ (∀ this t, timers w !! t = Some (ReconnectTimer this) →
               ∀ callback, timers (disconnect this w) !! t ≠ Some callback).
Proof.
  assert (reconnectInv w) as Hinv.
  { apply (run_invariant reconnectInv es (initial platform) w);
      [apply reconnectInv_step | done |].
    intros this t. unfold reconnectTimerOf; simpl.
    by rewrite !lookup_empty. }
  split; [done|]. split.
  - intros this t1 t2 H1%Hinv H2%Hinv. congruence.
  - intros this t Ht%Hinv callback. unfold reconnectTimerOf in Ht.
    destruct (ipcs w !! this) as [o|] eqn:Ho; [|done]. simpl in Ht.
    by rewrite (disconnect_cancels_timer this w o t Ho Ht).
Qed.

End TimerFacts.

(** witness of X6: the run in which the dropped instance sets its timer *)
Lemma reconnect_timer_unique_witness :
  Core.timers Core.worldDroppedTimer !! 4%nat = Some (Core.ReconnectTimer 0)
  ↔ reconnectTimerOf Core.worldDroppedTimer 0 = Some 4%nat.
Proof.
  refine (proj1 (reconnect_timer_unique "linux"
                   (take 4 Core.traceDisconnectConnect)
                   Core.worldDroppedTimer _) 0%nat 4%nat).
  by vm_compute.
Defined.
(** ** The registry under every run *)

Section RegistryFacts.
Import Core.
Import Detector (Completion, Return, Throw).

(** How a connection record may change while it stays in place: its path
    stays, and its status stays or drops to project_only. *)
Definition recEvolves (r r' : UnityConnection) : Prop :=
  projectPath r' = projectPath r
  ∧ (status r' = status r ∨ status r' = StProjectOnly).

(** What the operations of UnityIPC and the events of Node leave of the
    manager: its three fields, the records it holds (up to [recEvolves])
    and the instances with their project paths. *)
Definition ipcFrame (w w' : World) : Prop :=
  connections w' = connections w
  ∧ activeConnection w' = activeConnection w
  ∧ unityIPCConnections w' = unityIPCConnections w
  ∧ (∀ c, conns w' !! c = None ↔ conns w !! c = None)
  ∧ (∀ c r r', conns w !! c = Some r → conns w' !! c = Some r' →
               recEvolves r r')
  ∧ (∀ i o, ipcs w !! i = Some o →
            ∃ o', ipcs w' !! i = Some o'
                  ∧ ipc_projectPath o' = ipc_projectPath o).

Lemma recEvolves_refl r : recEvolves r r.
Proof. split; [done|by left]. Qed.

Lemma recEvolves_trans r1 r2 r3 :
  recEvolves r1 r2 → recEvolves r2 r3 → recEvolves r1 r3.
Proof.
  intros [H1 [S1|S1]] [H2 [S2|S2]]; split; try congruence;
    first [left; congruence | right; congruence].
Qed.

Lemma ipcFrame_refl w : ipcFrame w w.
Proof.
  split; [done|]. split; [done|]. split; [done|]. split; [done|]. split.
  - intros c r r' H1 H2. assert (r' = r) as -> by congruence.
    apply recEvolves_refl.
  - eauto.
Qed.

Lemma ipcFrame_trans w1 w2 w3 :
  ipcFrame w1 w2 → ipcFrame w2 w3 → ipcFrame w1 w3.
Proof.
  intros (A1 & A2 & A3 & A4 & A5 & A6) (B1 & B2 & B3 & B4 & B5 & B6).
  split; [congruence|]. split; [congruence|]. split; [congruence|].
  split; [|split].
  - intros c. by rewrite B4, A4.
  - intros c r r'' H1 H3.
    destruct (conns w2 !! c) as [r'|] eqn:H2.
    + eapply recEvolves_trans; eauto.
    + apply A4 in H2. congruence.
  - intros i o Ho. destruct (A6 i o Ho) as (o' & Ho' & Hp).
    destruct (B6 i o' Ho') as (o'' & Ho'' & Hp'). exists o''.
    split; [done|congruence].
Qed.

(** A change that touches neither the manager's fields nor the records
    nor the instances. *)
Lemma ipcFrame_same w w' :
  connections w' = connections w → activeConnection w' = activeConnection w →
  unityIPCConnections w' = unityIPCConnections w →
  conns w' = conns w → ipcs w' = ipcs w → ipcFrame w w'.
Proof.
  intros H1 H2 H3 H4 H5. destruct (ipcFrame_refl w) as (_ & _ & _ & A4 & A5 & A6).
  unfold ipcFrame. rewrite H1, H2, H3, H4, H5. done.
Qed.

Lemma ipcFrame_updateIpc this g w :
  (∀ o, ipc_projectPath (g o) = ipc_projectPath o) →
  ipcFrame w (updateIpc this g w).
Proof.
  intros Hg.
  split; [done|]. split; [done|]. split; [done|]. split; [done|]. split.
  - intros c r r' H1 H2. simpl in H2. assert (r' = r) as -> by congruence.
    apply recEvolves_refl.
  - intros i o Ho. unfold updateIpc; simpl. rewrite lookup_alter.
    case_decide; subst; rewrite Ho; simpl; eauto.
Qed.

Lemma ipcFrame_updateConn c f w :
  (∀ r, recEvolves r (f r)) → ipcFrame w (updateConn c f w).
Proof.
  intros Hf. unfold updateConn.
  split; [done|]. split; [done|]. split; [done|]. split; [|split].
  - intros c'. simpl. rewrite lookup_alter. case_decide; [|done]. subst.
    by destruct (conns w !! c').
  - intros c' r r' H1 H2. simpl in H2. rewrite lookup_alter in H2.
    case_decide; subst.
    + rewrite H1 in H2. injection H2 as <-. apply Hf.
    + assert (r' = r) as -> by congruence. apply recEvolves_refl.
  - simpl. eauto.
Qed.

Lemma ipcFrame_setupUnityIPCHandlers connection ev w :
  ipcFrame w (setupUnityIPCHandlers connection ev w).
Proof.
  destruct ev as [| |m|state|data|data|data]; cbn [setupUnityIPCHandlers].
  - apply ipcFrame_refl.
  - apply ipcFrame_updateConn. intros r. split; [done|by right].
  - apply ipcFrame_refl.
  - destruct state as [state|]; [|apply ipcFrame_refl].
    eapply ipcFrame_trans; [apply ipcFrame_updateConn|by apply ipcFrame_same].
    intros r. split; [done|by left].
  - destruct data as [data|]; [|apply ipcFrame_refl].
    eapply ipcFrame_trans; [apply ipcFrame_updateConn|by apply ipcFrame_same].
    intros r. split; [done|by left].
  - by apply ipcFrame_same.
  - apply ipcFrame_refl.
Qed.

Lemma ipcFrame_emit this ev w : ipcFrame w (emit this ev w).
Proof.
  unfold emit. destruct (ipcs w !! this ≫= listeners);
    [apply ipcFrame_setupUnityIPCHandlers | apply ipcFrame_refl].
Qed.

Lemma ipcFrame_settle p o w : ipcFrame w (settle p o w).
Proof.
  apply ipcFrame_same; unfold settle; simpl;
    by destruct (promises w !! p) as [[]|].
Qed.

Lemma ipcFrame_newUnityIPC projectPath w :
  ipcFrame w (newUnityIPC projectPath w).2.
Proof.
  destruct (ipcFrame_refl w) as (_ & _ & _ & A4 & A5 & _).
  split; [done|]. split; [done|]. split; [done|]. split; [done|].
  split; [exact A5|].
  intros i o Ho. exists o. split; [|done]. simpl.
  rewrite lookup_insert_ne; [done|]. intros <-.
  apply (is_fresh (dom (ipcs w))), elem_of_dom. eauto.
Qed.

Lemma ipcFrame_connect this w : ipcFrame w (connect this w).
Proof.
  unfold connect. destruct (ipcs w !! this) as [o|]; [|apply ipcFrame_refl].
  eapply ipcFrame_trans; [|by apply ipcFrame_same].
  eapply ipcFrame_trans; [|by apply ipcFrame_updateIpc].
  by apply ipcFrame_same.
Qed.

Lemma ipcFrame_scheduleReconnect this w : ipcFrame w (scheduleReconnect this w).
Proof.
  unfold scheduleReconnect.
  destruct (ipcs w !! this) as [o|]; [|apply ipcFrame_refl].
  destruct (reconnectTimer o); [apply ipcFrame_refl|]. simpl.
  eapply ipcFrame_trans; [|by apply ipcFrame_updateIpc].
  by apply ipcFrame_same.
Qed.

Lemma ipcFrame_disconnect this w : ipcFrame w (disconnect this w).
Proof.
  unfold disconnect.
  destruct (ipcs w !! this) as [o|]; [|apply ipcFrame_refl].
  set (w1 := match reconnectTimer o with
             | Some t => _
             | None => w
             end).
  assert (ipcFrame w w1) as H1.
  { unfold w1. destruct (reconnectTimer o) as [t|]; [|apply ipcFrame_refl].
    eapply ipcFrame_trans; [|by apply ipcFrame_updateIpc].
    by apply ipcFrame_same. }
  set (w2 := match socket o with
             | Some s => _
             | None => w1
             end).
  assert (ipcFrame w1 w2) as H2.
  { unfold w2. destruct (socket o) as [s|]; [|apply ipcFrame_refl].
    eapply ipcFrame_trans; [|by apply ipcFrame_updateIpc].
    by apply ipcFrame_same. }
  eapply ipcFrame_trans; [exact H1|].
  eapply ipcFrame_trans; [exact H2|]. by apply ipcFrame_updateIpc.
Qed.

Lemma ipcFrame_sendCommand this command parameters rnd w :
  ipcFrame w (sendCommand this command parameters rnd w).2.
Proof.
  unfold sendCommand.
  set (w0 := with_promises _ w).
  assert (ipcFrame w w0) as H0 by (by apply ipcFrame_same).
  change (ipcs w0) with (ipcs w).
  destruct (ipcs w !! this) as [o|]; [|done].
  destruct (isConnected o), (socket o) as [s|]; cbn [snd];
    try (eapply ipcFrame_trans; [exact H0|apply ipcFrame_settle]).
  eapply ipcFrame_trans; [exact H0|].
  eapply ipcFrame_trans; [|by apply ipcFrame_same].
  eapply ipcFrame_trans; [|by apply ipcFrame_same].
  by apply ipcFrame_updateIpc.
Qed.

Lemma ipcFrame_handleIncomingMessage this data w :
  ipcFrame w (handleIncomingMessage this data w).
Proof.
  unfold handleIncomingMessage.
  destruct data as [m|]; [|apply ipcFrame_refl].
  destruct (msg_id m ≫= _) as [[id handler]|].
  - eapply ipcFrame_trans; [|apply ipcFrame_settle].
    by apply ipcFrame_updateIpc.
  - destruct (msg_type m) as [type|]; [|apply ipcFrame_refl].
    destruct (Js.truthy_str type); [|apply ipcFrame_refl].
    repeat match goal with
           | |- context [if ?b then _ else _] => destruct b
           end;
      repeat first [apply ipcFrame_emit
                   | eapply ipcFrame_trans; [apply ipcFrame_emit|]].
Qed.

Lemma ipcFrame_fire callback w : ipcFrame w (fire callback w).
Proof.
  destruct callback as [this|this id command p|this]; simpl.
  - unfold onConnectTimeout.
    destruct (ipcs w !! this) as [o|]; [|apply ipcFrame_refl].
    destruct (isConnected o); [apply ipcFrame_refl|].
    destruct (socket o); [by apply ipcFrame_same|apply ipcFrame_refl].
  - unfold onCommandTimeout.
    destruct (handlerOf w this id); [|apply ipcFrame_refl].
    eapply ipcFrame_trans; [|apply ipcFrame_settle].
    by apply ipcFrame_updateIpc.
  - unfold onReconnectTimer.
    eapply ipcFrame_trans; [|apply ipcFrame_connect].
    by apply ipcFrame_updateIpc.
Qed.

Lemma ipcFrame_fireTimer P w : ipcFrame w (fireTimer P w).
Proof.
  unfold fireTimer. destruct (findTimer P w) as [[t callback]|];
    [|apply ipcFrame_refl].
  eapply ipcFrame_trans; [|apply ipcFrame_fire]. by apply ipcFrame_same.
Qed.

Lemma ipcFrame_onConnect this w : ipcFrame w (onConnect this w).
Proof.
  unfold onConnect. eapply ipcFrame_trans; [|apply ipcFrame_emit].
  by apply ipcFrame_updateIpc.
Qed.

Lemma ipcFrame_onError this w : ipcFrame w (onError this w).
Proof. by apply ipcFrame_updateIpc. Qed.

Lemma ipcFrame_onClose this w : ipcFrame w (onClose this w).
Proof.
  unfold onClose. eapply ipcFrame_trans; [|apply ipcFrame_scheduleReconnect].
  eapply ipcFrame_trans; [|apply ipcFrame_emit].
  by apply ipcFrame_updateIpc.
Qed.

Lemma ipcFrame_ipcStep e w w' : ipcStep e w = Some w' → ipcFrame w w'.
Proof.
  intros Hstep. destruct e; simpl in Hstep.
  - injection Hstep as <-. apply ipcFrame_newUnityIPC.
  - injection Hstep as <-. apply ipcFrame_connect.
  - injection Hstep as <-. apply ipcFrame_disconnect.
  - injection Hstep as <-. apply ipcFrame_sendCommand.
  - destruct (sockets w !! s) as [sk|]; simpl in Hstep; [|done].
    destruct (state sk); try done. injection Hstep as <-.
    eapply ipcFrame_trans; [|apply ipcFrame_onConnect]. by apply ipcFrame_same.
  - destruct (sockets w !! s) as [sk|]; simpl in Hstep; [|done].
    destruct (state sk); try done. injection Hstep as <-.
    apply ipcFrame_handleIncomingMessage.
  - destruct (sockets w !! s) as [sk|]; simpl in Hstep; [|done].
    destruct (state sk); try done; injection Hstep as <-;
      (eapply ipcFrame_trans; [|apply ipcFrame_onError]);
      by apply ipcFrame_same.
  - destruct (sockets w !! s) as [sk|]; simpl in Hstep; [|done].
    destruct (state sk); try done; injection Hstep as <-;
      (eapply ipcFrame_trans; [|apply ipcFrame_onClose]);
      by apply ipcFrame_same.
  - destruct (timers w !! t) as [callback|]; simpl in Hstep; [|done].
    injection Hstep as <-.
    eapply ipcFrame_trans; [|apply ipcFrame_fire]. by apply ipcFrame_same.
  - injection Hstep as <-. by apply ipcFrame_same.
Qed.

(** *** The insertion-ordered Map *)

Lemma mapGet_elem {V} k (v : V) m : mapGet k m = Some v → (k, v) ∈ m.
Proof.
  induction m as [|[k' v'] m IH]; simpl; [done|].
  destruct (String.eqb_spec k k') as [->|Hne].
  - intros [= ->]. apply list_elem_of_here.
  - intros H. apply list_elem_of_further. by apply IH.
Qed.


Lemma mapGet_None_keys {V} k (m : JsMap V) : mapGet k m = None ↔ k ∉ m.*1.
Proof.
  induction m as [|[k' v'] m IH]; simpl.
  - split; [|done]. intros _ ?%elem_of_nil. done.
  - destruct (String.eqb_spec k k') as [->|Hne].
    + split; [done|]. intros H. destruct H. apply list_elem_of_here.
    + rewrite IH, not_elem_of_cons. naive_solver.
Qed.

Lemma NoDup_keys_mapGet {V} k (v : V) m :
  NoDup (m.*1) → (k, v) ∈ m → mapGet k m = Some v.
Proof.
  induction m as [|[k' v'] m IH]; simpl; intros Hnd Hin.
  - by apply elem_of_nil in Hin.
  - apply NoDup_cons in Hnd as [Hk Hnd].
    apply elem_of_cons in Hin as [[= <- <-]|Hin].
    + by rewrite String.eqb_refl.
    + destruct (String.eqb_spec k k') as [->|Hne]; [|by apply IH].
      destruct Hk. apply list_elem_of_fmap. by exists (k', v).
Qed.

Lemma mapSet_keys {V} k (v : V) m :
  (mapSet k v m).*1 = if decide (k ∈ m.*1) then m.*1 else m.*1 ++ [k].
Proof.
  induction m as [|[k' v'] m IH]; [done|].
  cbn [mapSet]. destruct (String.eqb_spec k k') as [->|Hne];
    rewrite !fmap_cons; cbn [fst].
  - destruct (decide (k' ∈ k' :: m.*1)) as [|H]; [done|].
    destruct H. apply list_elem_of_here.
  - rewrite IH.
    destruct (decide (k ∈ m.*1)) as [Hin|Hin],
      (decide (k ∈ k' :: m.*1)) as [Hin'|Hin']; try done.
    + destruct Hin'. by apply list_elem_of_further.
    + apply elem_of_cons in Hin' as [?|?]; done.
Qed.

Lemma mapSet_keys_NoDup {V} k (v : V) m :
  NoDup (m.*1) → NoDup ((mapSet k v m).*1).
Proof.
  intros Hnd. rewrite mapSet_keys. case_decide as Hin; [done|].
  apply NoDup_app. split; [done|]. split; [|apply NoDup_singleton].
  intros x Hx ->%list_elem_of_singleton. done.
Qed.

Lemma elem_of_mapSet {V} k (v : V) m k' v' :
  NoDup (m.*1) →
  (k', v') ∈ mapSet k v m ↔ (k' = k ∧ v' = v) ∨ (k' ≠ k ∧ (k', v') ∈ m).
Proof.
  induction m as [|[k0 v0] m IH]; simpl; intros Hnd.
  - rewrite list_elem_of_singleton. split.
    + intros [= -> ->]. by left.
    + intros [[-> ->]|[_ ?%elem_of_nil]]; done.
  - apply NoDup_cons in Hnd as [Hk Hnd].
    destruct (String.eqb_spec k k0) as [->|Hne].
    + rewrite !elem_of_cons. split.
      * intros [[= -> ->]|Hin]; [by left|]. right. split; [|by right].
        intros ->. apply Hk, list_elem_of_fmap. by exists (k0, v').
      * intros [[-> ->]|[Hne [[= ? ?]|Hin]]]; [by left|done|by right].
    + rewrite !elem_of_cons, IH by done. split.
      * intros [[= -> ->]|[[-> ->]|[? ?]]].
        -- right. split; [done|by left].
        -- by left.
        -- right. split; [done|by right].
      * intros [[-> ->]|[? [[= -> ->]|?]]].
        -- right. by left.
        -- by left.
        -- right. right. done.
Qed.

Lemma mapSet_values {V} k (v : V) m x :
  x ∈ (mapSet k v m).*2 → x = v ∨ x ∈ m.*2.
Proof.
  induction m as [|[k0 v0] m IH]; simpl.
  - intros ->%list_elem_of_singleton. by left.
  - destruct (String.eqb_spec k k0) as [->|Hne]; simpl;
      rewrite !elem_of_cons; [tauto|].
    intros [->|Hx]; [tauto|]. destruct (IH Hx); tauto.
Qed.

Lemma mapSet_values_NoDup {V} k (v : V) m :
  NoDup (m.*2) → v ∉ m.*2 → NoDup ((mapSet k v m).*2).
Proof.
  induction m as [|[k0 v0] m IH]; simpl; intros Hnd Hv.
  - apply NoDup_singleton.
  - apply NoDup_cons in Hnd as [Hv0 Hnd].
    apply not_elem_of_cons in Hv as [Hne Hv].
    destruct (String.eqb_spec k k0) as [->|Hk]; simpl.
    + apply NoDup_cons. done.
    + apply NoDup_cons. split; [|by apply IH].
      intros [->|Hin]%mapSet_values; done.
Qed.

Lemma mapDelete_sublist {V} k (m : JsMap V) : mapDelete k m `sublist_of` m.
Proof.
  induction m as [|[k0 v0] m IH]; simpl; [done|].
  destruct (String.eqb k k0); [by apply sublist_cons | by apply sublist_skip].
Qed.

Lemma elem_of_mapDelete {V} k (m : JsMap V) k' v' :
  NoDup (m.*1) →
  (k', v') ∈ mapDelete k m ↔ k' ≠ k ∧ (k', v') ∈ m.
Proof.
  induction m as [|[k0 v0] m IH]; simpl; intros Hnd.
  - split; [by intros ?%elem_of_nil | by intros [_ ?%elem_of_nil]].
  - apply NoDup_cons in Hnd as [Hk Hnd].
    destruct (String.eqb_spec k k0) as [->|Hne].
    + rewrite elem_of_cons. split.
      * intros Hin. split; [|by right]. intros ->.
        apply Hk, list_elem_of_fmap. by exists (k0, v').
      * intros [Hne [[= ? ?]|Hin]]; done.
    + rewrite !elem_of_cons, IH by done. split.
      * intros [[= -> ->]|[? ?]]; [split; [done|by left]|split; [done|by right]].
      * intros [? [[= -> ->]|?]]; [by left|by right].
Qed.

Lemma mapGet_mapDelete_ne {V} k k' (m : JsMap V) :
  k' ≠ k → mapGet k' (mapDelete k m) = mapGet k' m.
Proof.
  intros Hne. induction m as [|[k0 v0] m IH]; simpl; [done|].
  destruct (String.eqb_spec k k0) as [->|Hk]; simpl.
  - destruct (String.eqb_spec k' k0); [done|done].
  - destruct (String.eqb k' k0); [done|apply IH].
Qed.

Lemma mapGet_mapDelete {V} k (m : JsMap V) :
  NoDup (m.*1) → mapGet k (mapDelete k m) = None.
Proof.
  intros Hnd. apply mapGet_None_keys. intros Hin.
  apply list_elem_of_fmap in Hin as ([k' v'] & -> & Hin).
  apply elem_of_mapDelete in Hin as [? _]; done.
Qed.

(** *** The invariant *)

(** Records and instances persist; a record keeps its path and its status
    or drops to project_only. *)
Definition storeEvolves (w w' : World) : Prop :=
  (∀ c r, conns w !! c = Some r →
          ∃ r', conns w' !! c = Some r' ∧ recEvolves r r')
  ∧ (∀ i o, ipcs w !! i = Some o →
            ∃ o', ipcs w' !! i = Some o'
                  ∧ ipc_projectPath o' = ipc_projectPath o).

Lemma storeEvolves_refl w : storeEvolves w w.
Proof. split; eauto using recEvolves_refl. Qed.

Lemma storeEvolves_trans w1 w2 w3 :
  storeEvolves w1 w2 → storeEvolves w2 w3 → storeEvolves w1 w3.
Proof.
  intros [A1 A2] [B1 B2]. split.
  - intros c r Hr. destruct (A1 c r Hr) as (r' & Hr' & E1).
    destruct (B1 c r' Hr') as (r'' & Hr'' & E2).
    eauto using recEvolves_trans.
  - intros i o Ho. destruct (A2 i o Ho) as (o' & Ho' & E1).
    destruct (B2 i o' Ho') as (o'' & Ho'' & E2). exists o''.
    split; [done|congruence].
Qed.

Lemma ipcFrame_storeEvolves w w' : ipcFrame w w' → storeEvolves w w'.
Proof.
  intros (_ & _ & _ & A4 & A5 & A6). split; [|done].
  intros c r Hr. destruct (conns w' !! c) as [r'|] eqn:Hr'.
  - eauto.
  - apply A4 in Hr'. congruence.
Qed.

Lemma storeEvolves_same w w' :
  conns w' = conns w → ipcs w' = ipcs w → storeEvolves w w'.
Proof.
  intros H1 H2. destruct (storeEvolves_refl w) as [A B].
  unfold storeEvolves. by rewrite H1, H2.
Qed.

(** The registry is well formed: every path has one entry at most, no two
    entries share a record, every entry has a record with that path whose
    status is not disconnected, the active path has an entry, and every
    path with a UnityIPC has an entry and a UnityIPC made for that
    path. *)
Definition registryInv (w : World) : Prop :=
  NoDup (connections w).*1
  ∧ NoDup (connections w).*2
  ∧ (∀ path c, (path, c) ∈ connections w →
       ∃ r, conns w !! c = Some r ∧ projectPath r = path
            ∧ status r ≠ StDisconnected)
  ∧ (∀ a, activeConnection w = Some a → is_Some (mapGet a (connections w)))
  ∧ (∀ path ipc, unityIPCConnections w !! path = Some ipc →
       is_Some (mapGet path (connections w))
       ∧ ∃ o, ipcs w !! ipc = Some o ∧ ipc_projectPath o = path).

Lemma recEvolves_live r r' :
  recEvolves r r' → status r ≠ StDisconnected → status r' ≠ StDisconnected.
Proof. intros [_ [->| ->]]; done. Qed.

Lemma registryInv_ipcFrame w w' :
  ipcFrame w w' → registryInv w → registryInv w'.
Proof.
  intros Hf (R1 & R2 & R3 & R4 & R5).
  pose proof (ipcFrame_storeEvolves _ _ Hf) as [S1 S2].
  destruct Hf as (F1 & F2 & F3 & _).
  unfold registryInv. rewrite F1, F2, F3.
  split; [done|]. split; [done|]. split; [|split; [done|]].
  - intros path c Hin. destruct (R3 path c Hin) as (r & Hr & Hp & Hs).
    destruct (S1 c r Hr) as (r' & Hr' & He). exists r'.
    split; [done|]. split; [destruct He; congruence|].
    by eapply recEvolves_live.
  - intros path ipc Hipc. destruct (R5 path ipc Hipc) as (Hm & o & Ho & Hp).
    split; [done|]. destruct (S2 ipc o Ho) as (o' & Ho' & Hp').
    exists o'. split; [done|congruence].
Qed.

(** *** connectToProject, step by step *)

Lemma ipcFrame_awaitConnect unityIPC attempt w :
  ipcFrame w (awaitConnect unityIPC attempt w).2
  ∧ ((awaitConnect unityIPC attempt w).1 = true ↔ attempt = Accepted).
Proof.
  unfold awaitConnect.
  pose proof (ipcFrame_connect unityIPC w) as Hc.
  destruct attempt; cbn [fst snd]; (split; [|done]).
  - eapply ipcFrame_trans; [exact Hc|].
    eapply ipcFrame_trans; [|apply ipcFrame_onConnect]. by apply ipcFrame_same.
  - eapply ipcFrame_trans; [exact Hc|].
    eapply ipcFrame_trans; [|apply ipcFrame_onError]. by apply ipcFrame_same.
  - eapply ipcFrame_trans; [exact Hc|]. apply ipcFrame_fireTimer.
Qed.

Lemma ipcFrame_getUnityState unityIPC rnd reply w :
  ipcFrame w (getUnityState unityIPC rnd reply w).2.
Proof.
  unfold getUnityState.
  pose proof (ipcFrame_sendCommand unityIPC "get_state" ∅ rnd w) as H1.
  destruct (sendCommand unityIPC "get_state" ∅ rnd w) as [p w1].
  cbn [snd] in H1.
  set (w2 := match reply with
             | Some m => handleIncomingMessage unityIPC (Some m) w1
             | None => w1
             end).
  assert (ipcFrame w1 w2) as H2.
  { unfold w2. destruct reply; [|apply ipcFrame_refl].
    apply ipcFrame_handleIncomingMessage. }
  set (w3 := match promises w2 !! p with
             | Some Pending => fireTimer (isCommandTimeoutOf p) w2
             | _ => w2
             end).
  assert (ipcFrame w2 w3) as H3.
  { unfold w3. destruct (promises w2 !! p) as [[]|];
      try apply ipcFrame_refl. apply ipcFrame_fireTimer. }
  assert (ipcFrame w w3) as H by eauto using ipcFrame_trans.
  by destruct (promises w3 !! p) as [[]|].
Qed.

(** The record [connectToProject] stores for a fresh attempt. *)
Definition newRecord (path : string) (projectInfo : UnityProjectInfo)
    (running : bool) (pid : option Z) (time : Z) : UnityConnection :=
  {| projectPath := path; unityVersion := info_unityVersion projectInfo;
     editorPID := pid;
     status := if running then StConnected else StProjectOnly;
     lastHeartbeat := time;
     targetPlatform := info_targetPlatform projectInfo;
     projectName := info_projectName projectInfo;
     isPlaying := JUndefined; isCompiling := JUndefined |}.

(** What a call that goes through a connection attempt returns and
    leaves behind. *)
Lemma connectToProject_attempt path projectInfo attempt procs rnd reply w :
  connectedEntry path w = None →
  ∃ connection w' unityIPC,
    connectToProject path (Some projectInfo) attempt procs rnd reply w
    = (Return connection, w')
    ∧ connections w' = mapSet path connection (connections w)
    ∧ activeConnection w' = Some path
    ∧ storeEvolves w w'
    ∧ conns w !! connection = None
    ∧ (∃ r, conns w' !! connection = Some r ∧ projectPath r = path
            ∧ (status r = StProjectOnly
               ∨ status r = StConnected ∧ attempt = Accepted))
    ∧ ipcs w !! unityIPC = None
    ∧ (∃ o, ipcs w' !! unityIPC = Some o ∧ ipc_projectPath o = path)
    ∧ unityIPCConnections w' =
        (if bool_decide (attempt = Accepted)
         then <[path := unityIPC]> (unityIPCConnections w)
         else unityIPCConnections w)
    ∧ last (emitted w') = Some (projectConnected connection).
Proof.
  intros Hnone. unfold connectToProject. rewrite Hnone.
  pose proof (ipcFrame_newUnityIPC path w) as F1.
  assert (ipcs w !! (newUnityIPC path w).1 = None) as Hfresh.
  { apply not_elem_of_dom, is_fresh. }
  assert (∃ o, ipcs (newUnityIPC path w).2 !! (newUnityIPC path w).1 = Some o
               ∧ ipc_projectPath o = path) as Hipc1.
  { eexists. split; [apply lookup_insert_eq|done]. }
  destruct (newUnityIPC path w) as [unityIPC w1]. cbn [fst snd] in *.
  destruct (ipcFrame_awaitConnect unityIPC attempt w1) as [F2 Hrun].
  destruct (awaitConnect unityIPC attempt w1) as [running w2].
  cbn [fst snd] in *.
  set (connection := fresh (dom (conns w2))).
  set (rec := {| projectPath := path |}).
  set (w3 := with_conns (<[connection := rec]> (conns w2)) w2).
  assert (conns w2 !! connection = None) as Hc2.
  { apply not_elem_of_dom, is_fresh. }
  assert (storeEvolves w2 w3) as S3.
  { split; [|by eauto]. intros c r Hr. exists r.
    split; [|apply recEvolves_refl]. simpl.
    rewrite lookup_insert_ne; [done|]. intros <-. congruence. }
  set (w6 := if running then _ else w3).
  assert (storeEvolves w3 w6
          ∧ connections w6 = connections w3
          ∧ unityIPCConnections w6 =
              (if running then <[path := unityIPC]> (unityIPCConnections w3)
               else unityIPCConnections w3)) as (S6 & C6 & U6).
  { unfold w6. destruct running; [|by split; [apply storeEvolves_refl|]].
    set (w4 := with_unityIPCConnections _ _).
    assert (storeEvolves w3 w4) as S4.
    { apply (storeEvolves_trans _
                (updateIpc unityIPC (ipc_with_listeners (Some connection)) w3));
        [|by apply storeEvolves_same].
      apply ipcFrame_storeEvolves. by apply ipcFrame_updateIpc. }
    pose proof (ipcFrame_getUnityState unityIPC rnd reply w4) as F5.
    destruct (getUnityState unityIPC rnd reply w4) as [res w5].
    cbn [snd] in F5.
    assert (ipcFrame w5 match res with
                        | Return (Some unityState) =>
                            updateConn connection
                              (λ c, conn_with_isCompiling
                                      (prop unityState "isCompiling")
                                      (conn_with_isPlaying
                                         (prop unityState "isPlaying") c)) w5
                        | _ => w5
                        end) as F6.
    { destruct res as [[unityState|]|e]; try apply ipcFrame_refl.
      apply ipcFrame_updateConn. intros r. split; [done|by left]. }
    pose proof (ipcFrame_trans _ _ _ F5 F6) as F56.
    split; [|split].
    - eapply storeEvolves_trans; [exact S4|].
      by apply ipcFrame_storeEvolves.
    - destruct F56 as (-> & _). done.
    - destruct F56 as (_ & _ & -> & _). done. }
  clearbody w6.
  assert (storeEvolves w w6) as S.
  { eapply storeEvolves_trans; [apply ipcFrame_storeEvolves, F1|].
    eapply storeEvolves_trans; [apply ipcFrame_storeEvolves, F2|].
    eapply storeEvolves_trans; [exact S3|exact S6]. }
  assert (connections w6 = connections w) as C.
  { rewrite C6. simpl. destruct F2 as (-> & _). by destruct F1 as (-> & _). }
  assert (unityIPCConnections w3 = unityIPCConnections w) as U.
  { simpl. destruct F2 as (_ & _ & -> & _). by destruct F1 as (_ & _ & -> & _). }
  exists connection. eexists. exists unityIPC. split; [reflexivity|].
  cbn [connections activeConnection unityIPCConnections conns ipcs emitted
       with_emitted with_activeConnection with_connections].
  split; [by rewrite C|]. split; [done|]. split.
  { eapply storeEvolves_trans; [exact S|]. by apply storeEvolves_same. }
  split.
  { destruct (conns w !! connection) as [r|] eqn:Hr; [|done].
    destruct (ipcFrame_storeEvolves _ _ (ipcFrame_trans _ _ _ F1 F2))
      as [S12 _].
    destruct (S12 connection r Hr) as (r' & Hr' & _). congruence. }
  split.
  { destruct S6 as [S6 _]. destruct (S6 connection rec) as (r & Hr & He & Hs).
    { apply lookup_insert_eq. }
    exists r. split; [done|]. split; [done|].
    destruct Hs as [Hs|Hs]; [|by left]. rewrite Hs. simpl.
    destruct running; [|by left]. right. split; [done|]. by apply Hrun. }
  split; [done|]. split.
  { destruct Hipc1 as (o1 & Ho1 & Hp1).
    destruct (ipcFrame_storeEvolves _ _ F2) as [_ S2'].
    destruct (S2' unityIPC o1 Ho1) as (o2 & Ho2 & Hp2).
    destruct (storeEvolves_trans _ _ _ S3 S6) as [_ S36].
    destruct (S36 unityIPC o2 Ho2) as (o6 & Ho6 & Hp6).
    exists o6. split; [done|congruence]. }
  split; [|apply last_snoc].
  rewrite U6, U. destruct running.
  - by rewrite bool_decide_true by (by apply Hrun).
  - rewrite bool_decide_false; [done|]. intros Ha. by apply Hrun in Ha.
Qed.

(** *** disconnectFromProject *)

(** [projectPath || this.activeConnection], when it is truthy. *)
Definition resolveTarget (projectPath : option string) (w : World)
    : option string :=
  match (match projectPath with
         | Some path =>
             if Js.truthy_str path then Some path else activeConnection w
         | None => activeConnection w
         end) with
  | Some targetPath => if Js.truthy_str targetPath then Some targetPath else None
  | None => None
  end.

(** The two ways disconnectFromProject throws, and when no target is
    found. *)
Lemma disconnectFromProject_throws (projectPath : option string)
    (w : World) :
  (resolveTarget projectPath w = None →
   disconnectFromProject projectPath w
   = (Throw "No project specified and no active connection", w))
  ∧ (∀ targetPath,
       resolveTarget projectPath w = Some targetPath →
       mapGet targetPath (connections w) = None →
       disconnectFromProject projectPath w
       = (Throw ("No connection found for project: " +:+ targetPath), w))
  ∧ (resolveTarget None w = None
     ↔ activeConnection w = None ∨ activeConnection w = Some "").
Proof.
  unfold resolveTarget, disconnectFromProject. split; [|split].
  - destruct (match projectPath with
              | Some path => _
              | None => activeConnection w
              end) as [targetPath|]; [|done].
    by destruct (Js.truthy_str targetPath).
  - intros targetPath.
    destruct (match projectPath with
              | Some path => _
              | None => activeConnection w
              end) as [t|]; [|done].
    destruct (Js.truthy_str t) eqn:Ht; [|done].
    intros [= ->] ->. done.
  - destruct (activeConnection w) as [a|]; [|by split; [left|]].
    destruct (Js.truthy_str a) eqn:Ha.
    + apply truthy_str_true in Ha. split; [done|]. by intros [|[= ->]].
    + apply truthy_str_false in Ha as ->. split; [by right|done].
Qed.

(** X7. disconnectFromProject fails without changing anything when no
    path is given and none is active (an empty path counts as none), and
    when the path it settles on has no entry. *)
Theorem disconnectFromProject_errors (projectPath : option string)
    (w : World) :
  (resolveTarget projectPath w = None →
   disconnectFromProject projectPath w
   = (Throw "No project specified and no active connection", w))
  ∧ (∀ targetPath,
       resolveTarget projectPath w = Some targetPath →
       mapGet targetPath (connections w) = None →
       disconnectFromProject projectPath w
       = (Throw ("No connection found for project: " +:+ targetPath), w))
  ∧ (resolveTarget None w = None
     ↔ activeConnection w = None ∨ activeConnection w = Some "").
Proof. exact (disconnectFromProject_throws projectPath w). Qed.

(** What a successful disconnectFromProject leaves behind. *)
Lemma disconnectFromProject_success given w targetPath connection :
  resolveTarget given w = Some targetPath →
  mapGet targetPath (connections w) = Some connection →
  ∃ w',
    disconnectFromProject given w = (Return (), w')
    ∧ connections w' = mapDelete targetPath (connections w)
    ∧ activeConnection w' =
        (if decide (activeConnection w = Some targetPath) then None
         else activeConnection w)
    ∧ unityIPCConnections w' = delete targetPath (unityIPCConnections w)
    ∧ (∀ c r, c ≠ connection → conns w !! c = Some r →
         ∃ r', conns w' !! c = Some r' ∧ recEvolves r r')
    ∧ (∀ r, conns w !! connection = Some r →
         ∃ r', conns w' !! connection = Some r'
               ∧ status r' = StDisconnected
               ∧ projectPath r' = projectPath r)
    ∧ (∀ i o, ipcs w !! i = Some o →
         ∃ o', ipcs w' !! i = Some o'
               ∧ ipc_projectPath o' = ipc_projectPath o)
    ∧ (∀ unityIPC o, unityIPCConnections w !! targetPath = Some unityIPC →
         ipcs w !! unityIPC = Some o →
         ipcs w' !! unityIPC
         = Some (ipc_with_isConnected false
                   (ipc_with_socket None (ipc_with_reconnectTimer None o))))
    ∧ emitted w' = emitted w ++ [projectDisconnected connection].
Proof.
  unfold resolveTarget, disconnectFromProject.
  destruct (match given with
            | Some path => _
            | None => activeConnection w
            end) as [t|]; [|done].
  destruct (Js.truthy_str t) eqn:Ht; [|done].
  intros [= ->] Hget. rewrite Hget. cbn [negb].
  set (w1 := match unityIPCConnections w !! targetPath with
             | Some unityIPC => _
             | None => w
             end).
  assert (storeEvolves w w1 ∧ conns w1 = conns w
          ∧ connections w1 = connections w
          ∧ activeConnection w1 = activeConnection w
          ∧ emitted w1 = emitted w
          ∧ unityIPCConnections w1 = delete targetPath (unityIPCConnections w)
          ∧ (∀ unityIPC o, unityIPCConnections w !! targetPath = Some unityIPC →
               ipcs w !! unityIPC = Some o →
               ipcs w1 !! unityIPC
               = Some (ipc_with_isConnected false
                         (ipc_with_socket None
                            (ipc_with_reconnectTimer None o)))))
    as (S1 & C1 & M1 & A1 & E1 & U1 & I1).
  { unfold w1.
    destruct (unityIPCConnections w !! targetPath) as [unityIPC|] eqn:Hu.
    - pose proof (ipcFrame_disconnect unityIPC w) as F.
      split; [|split; [|split; [|split; [|split; [|split]]]]].
      + eapply storeEvolves_trans; [apply ipcFrame_storeEvolves, F|].
        by apply storeEvolves_same.
      + unfold disconnect. destruct (ipcs w !! unityIPC) as [o|]; [|done].
        by destruct (reconnectTimer o), (socket o).
      + change (connections (disconnect unityIPC w) = connections w).
        by destruct F as (-> & _).
      + change (activeConnection (disconnect unityIPC w) = activeConnection w).
        by destruct F as (_ & -> & _).
      + unfold disconnect. destruct (ipcs w !! unityIPC) as [o|]; [|done].
        by destruct (reconnectTimer o), (socket o).
      + done.
      + intros u o [= <-] Ho.
        change (ipcs (disconnect unityIPC w) !! unityIPC = Some
                  (ipc_with_isConnected false
                     (ipc_with_socket None (ipc_with_reconnectTimer None o)))).
        by apply disconnect_ipc.
    - split; [apply storeEvolves_refl|]. repeat split; try done.
      by rewrite delete_id. }
  clearbody w1.
  eexists. split; [reflexivity|].
  cbn [connections activeConnection unityIPCConnections conns ipcs emitted
       with_emitted with_activeConnection with_connections updateConn
       with_conns].
  assert (∀ (b : bool) (x : World),
            connections (if b then with_activeConnection None x else x)
            = connections x) as Hb1 by (by intros []).
  assert (∀ (b : bool) (x : World),
            conns (if b then with_activeConnection None x else x) = conns x)
    as Hb2 by (by intros []).
  assert (∀ (b : bool) (x : World),
            ipcs (if b then with_activeConnection None x else x) = ipcs x)
    as Hb3 by (by intros []).
  assert (∀ (b : bool) (x : World),
            unityIPCConnections (if b then with_activeConnection None x else x)
            = unityIPCConnections x) as Hb4 by (by intros []).
  assert (∀ (b : bool) (x : World),
            emitted (if b then with_activeConnection None x else x)
            = emitted x) as Hb5 by (by intros []).
  rewrite !Hb1, !Hb2, !Hb3, !Hb4, !Hb5. simpl.
  split; [by rewrite M1|]. split.
  { rewrite A1. case_bool_decide; [by rewrite decide_True|].
    by rewrite decide_False. }
  split; [done|]. split.
  { intros c r Hne Hr. destruct S1 as [S1 _].
    destruct (S1 c r Hr) as (r' & Hr' & He). exists r'. split; [|done].
    by rewrite lookup_alter_ne. }
  split.
  { intros r Hr. rewrite lookup_alter_eq, C1, Hr. simpl. eauto. }
  split; [by destruct S1|]. split; [done|]. by rewrite E1.
Qed.

(** *** The invariant holds in every run *)

Lemma registryInv_connectToProject path info attempt procs rnd reply w :
  registryInv w →
  registryInv (connectToProject path info attempt procs rnd reply w).2.
Proof.
  intros Hinv. destruct info as [projectInfo|]; [|done].
  destruct (connectedEntry path w) as [c|] eqn:Hentry.
  { unfold connectToProject. by rewrite Hentry. }
  destruct (connectToProject_attempt path projectInfo attempt procs rnd reply
              w Hentry)
    as (connection & w' & unityIPC & -> & C & A & [S1 S2] & Hnew & Hrec & Hi0
        & Hi & U & _).
  destruct Hinv as (R1 & R2 & R3 & R4 & R5). cbn [snd].
  assert (∀ p, is_Some (mapGet p (connections w)) →
               is_Some (mapGet p (connections w'))) as Hkeep.
  { intros p Hp. rewrite C. destruct (decide (path = p)) as [<-|Hne].
    - rewrite mapGet_mapSet. eauto.
    - by rewrite mapGet_mapSet_ne. }
  unfold registryInv. rewrite C.
  split; [by apply mapSet_keys_NoDup|]. split; [|split; [|split]].
  - apply mapSet_values_NoDup; [done|]. intros Hin.
    apply list_elem_of_fmap in Hin as ([p c] & -> & Hin).
    destruct (R3 p c Hin) as (r & Hr & _). simpl in Hnew. congruence.
  - intros p c [[-> ->]|[Hne Hin]]%elem_of_mapSet; [| |done].
    + destruct Hrec as (r & Hr & Hp & Hs). exists r. split; [done|].
      split; [done|]. destruct Hs as [->|[-> _]]; done.
    + destruct (R3 p c Hin) as (r & Hr & Hp & Hs).
      destruct (S1 c r Hr) as (r' & Hr' & He). exists r'. split; [done|].
      split; [destruct He; congruence|]. by eapply recEvolves_live.
  - intros a. rewrite A. intros [= <-]. rewrite mapGet_mapSet. eauto.
  - intros p ipc Hp. rewrite <- C.
    rewrite U in Hp. case_bool_decide.
    + rewrite lookup_insert in Hp. case_decide as Hpath.
      * injection Hp as <-. subst p. split; [|done].
        rewrite C, mapGet_mapSet. eauto.
      * destruct (R5 p ipc Hp) as (Hm & o & Ho & Hpo).
        split; [by apply Hkeep|]. destruct (S2 ipc o Ho) as (o' & Ho' & E).
        exists o'. split; [done|congruence].
    + destruct (R5 p ipc Hp) as (Hm & o & Ho & Hpo).
      split; [by apply Hkeep|]. destruct (S2 ipc o Ho) as (o' & Ho' & E).
      exists o'. split; [done|congruence].
Qed.

Lemma registryInv_disconnectFromProject given w :
  registryInv w → registryInv (disconnectFromProject given w).2.
Proof.
  intros Hinv.
  destruct (disconnectFromProject_throws given w) as (E1 & E2 & _).
  destruct (resolveTarget given w) as [targetPath|] eqn:Ht;
    [|by rewrite E1].
  destruct (mapGet targetPath (connections w)) as [connection|] eqn:Hget;
    [|by rewrite (E2 targetPath)].
  destruct (disconnectFromProject_success given w targetPath connection Ht Hget)
    as (w' & -> & C & A & U & S1 & _ & S2 & _).
  destruct Hinv as (R1 & R2 & R3 & R4 & R5). cbn [snd].
  unfold registryInv. rewrite C, A, U.
  split; [|split; [|split; [|split]]].
  - apply (sublist_NoDup _ ((connections w).*1));
      [exact R1|apply fmap_sublist, mapDelete_sublist].
  - apply (sublist_NoDup _ ((connections w).*2));
      [exact R2|apply fmap_sublist, mapDelete_sublist].
  - intros p c [Hne Hin]%elem_of_mapDelete; [|done].
    destruct (R3 p c Hin) as (r & Hr & Hp & Hs).
    assert (c ≠ connection) as Hc.
    { intros ->. apply Hne.
      apply (NoDup_snd_inj (connections w) p targetPath connection);
        [done..|]. by apply mapGet_elem. }
    destruct (S1 c r Hc Hr) as (r' & Hr' & He). exists r'. split; [done|].
    split; [destruct He; congruence|]. by eapply recEvolves_live.
  - intros a. case_decide as Hact; [done|]. intros Ha.
    rewrite mapGet_mapDelete_ne; [by apply R4|]. intros ->. done.
  - intros p ipc Hp. apply lookup_delete_Some in Hp as [Hne Hp].
    destruct (R5 p ipc Hp) as (Hm & o & Ho & Hpo).
    split; [by rewrite mapGet_mapDelete_ne|].
    destruct (S2 ipc o Ho) as (o' & Ho' & E). exists o'.
    split; [done|congruence].
Qed.

Lemma registryInv_switchActiveProject path w :
  registryInv w → registryInv (switchActiveProject path w).2.
Proof.
  intros Hinv. unfold switchActiveProject.
  destruct (mapGet path (connections w)) as [c|] eqn:Hget; [|done]. simpl.
  destruct (conns w !! c) as [r|]; [|done]. simpl.
  case_bool_decide; [|done]. cbn [snd].
  destruct Hinv as (R1 & R2 & R3 & R4 & R5).
  split; [done|]. split; [done|]. split; [done|]. split; [|done].
  intros a [= <-]. simpl. rewrite Hget. eauto.
Qed.

Lemma registryInv_checkConnectionHealth access w :
  registryInv w → registryInv (checkConnectionHealth access w).
Proof.
  intros (R1 & R2 & R3 & R4 & R5).
  destruct (checkConnectionHealth_fold access (connections w) w)
    as (Hc & _ & _ & C & A & U & I & _).
  fold (checkConnectionHealth access w) in Hc, C, A, U, I.
  unfold registryInv. rewrite C, A, U, I.
  split; [done|]. split; [done|]. split; [|done].
  intros p c Hin. destruct (R3 p c Hin) as (r & Hr & Hp & Hs).
  rewrite Hc, decide_True, Hr.
  2: { apply list_elem_of_fmap. by exists (p, c). }
  simpl. eexists. split; [done|]. unfold swept.
  destruct (isConnectionHealthy access r); done.
Qed.

Lemma registryInv_step e w w' :
  step e w = Some w' → registryInv w → registryInv w'.
Proof.
  intros Hstep Hinv. destruct e; simpl in Hstep.
  - eapply registryInv_ipcFrame; [|done]. by eapply ipcFrame_ipcStep.
  - injection Hstep as <-. by apply registryInv_connectToProject.
  - injection Hstep as <-. by apply registryInv_disconnectFromProject.
  - injection Hstep as <-. by apply registryInv_switchActiveProject.
  - injection Hstep as <-. by apply registryInv_checkConnectionHealth.
Qed.

Lemma registryInv_initial platform : registryInv (initial platform).
Proof.
  unfold registryInv; simpl.
  split; [constructor|]. split; [constructor|]. split; [|split].
  - by intros ? ? ?%elem_of_nil.
  - done.
  - intros p ipc. by rewrite lookup_empty.
Qed.

Lemma reachable_registryInv platform es w :
  run es (initial platform) = Some w → registryInv w.
Proof.
  intros Hrun. eapply (run_invariant registryInv); eauto using registryInv_step.
  apply registryInv_initial.
Qed.


(** X8. In a world a run can reach, disconnectFromProject of a path
    that has an entry removes that entry and no other, unregisters and
    disconnects the UnityIPC of the path, clears the active path exactly
    when it was this one, marks the removed record disconnected and emits
    projectDisconnected for it. *)
Theorem disconnect_removes_entry (platform : string) (es : list Step)
    (w : World) (given : option string) (targetPath : string)
    (connection : nat)
    (Hrun : run es (initial platform) = Some w)
    (Ht : resolveTarget given w = Some targetPath)
    (Hget : mapGet targetPath (connections w) = Some connection) :
  ∃ w',
    disconnectFromProject given w = (Return (), w')
    ∧ mapGet targetPath (connections w') = None
    ∧ (∀ p, p ≠ targetPath →
         mapGet p (connections w') = mapGet p (connections w))
    ∧ getUnityIPC targetPath w' = None
    ∧ (∀ unityIPC, getUnityIPC targetPath w = Some unityIPC →
         ∃ o, ipcs w' !! unityIPC = Some o ∧ socket o = None
              ∧ isConnected o = false ∧ reconnectTimer o = None)
    ∧ activeConnection w' =
        (if decide (activeConnection w = Some targetPath) then None
         else activeConnection w)
    ∧ status <$> conns w' !! connection = Some StDisconnected
    ∧ emitted w' = emitted w ++ [projectDisconnected connection].
Proof.
  destruct (reachable_registryInv _ _ _ Hrun) as (R1 & R2 & R3 & R4 & R5).
  destruct (disconnectFromProject_success given w targetPath connection Ht Hget)
    as (w' & Hres & C & A & U & S1 & Sc & S2 & I & E).
  exists w'. split; [done|]. rewrite C.
  split; [by apply mapGet_mapDelete|].
  split; [intros p Hp; by apply mapGet_mapDelete_ne|].
  split; [unfold getUnityIPC; rewrite U; apply lookup_delete_eq|].
  split; [|split; [done|split; [|done]]].
  - intros unityIPC Hu. destruct (R5 targetPath unityIPC Hu) as (_ & o & Ho & _).
    eexists. split; [by apply (I unityIPC o)|]. done.
  - destruct (R3 targetPath connection (mapGet_elem _ _ _ Hget))
      as (r & Hr & _).
    destruct (Sc r Hr) as (r' & -> & Hs & _). simpl. by rewrite Hs.
Qed.

(** X9. switchActiveProject makes a path active only when its entry is
    connected: for a path without entry and for an entry in any other
    status it throws and changes nothing; on success the path is active,
    getActiveConnection returns its record, nothing else of the registry
    changes, and activeProjectChanged is emitted. *)
Theorem switchActiveProject_only_connected (path : string) (w : World) :
  (mapGet path (connections w) ≫= (λ c, conns w !! c) = None →
   switchActiveProject path w
   = (Throw ("No connection found for project: " +:+ path), w))
  ∧ (∀ r, mapGet path (connections w) ≫= (λ c, conns w !! c) = Some r →
          status r ≠ StConnected →
          switchActiveProject path w
          = (Throw ("Project is not connected: " +:+ path), w))
  ∧ (∀ r, mapGet path (connections w) ≫= (λ c, conns w !! c) = Some r →
          status r = StConnected →
          ∃ w', switchActiveProject path w = (Return (), w')
                ∧ activeConnection w' = Some path
                ∧ (path ≠ "" → getActiveConnection w' = Some r)
                ∧ connections w' = connections w ∧ conns w' = conns w
                ∧ unityIPCConnections w' = unityIPCConnections w
                ∧ ipcs w' = ipcs w ∧ sockets w' = sockets w
                ∧ ∃ previous,
                    emitted w' = emitted w ++
                                   [activeProjectChanged previous path]).
Proof.
  unfold switchActiveProject. split; [|split].
  - by intros ->.
  - intros r -> Hs. by rewrite bool_decide_false.
  - intros r Hr Hs. rewrite Hr, bool_decide_true by done.
    eexists. split; [reflexivity|]. split; [done|]. split.
    { intros Hne. unfold getActiveConnection. simpl.
      by rewrite (proj2 (truthy_str_true path) Hne). }
    repeat split; try done. eauto.
Qed.

(** X11. In a world a run can reach, connectToProject of a project that
    is valid on disk never throws; afterwards the path has exactly one
    entry, the one returned, whose record carries the path and is
    connected or project_only; and an attempt that was not accepted
    leaves it project_only. *)
Theorem connect_leaves_one_entry (platform : string) (es : list Step)
    (w : World) (path : string) (projectInfo : UnityProjectInfo)
    (attempt : ConnectAttempt) (procs : Detector.ExecResult) (rnd : list N)
    (reply : option UnityIPCMessage)
    (Hrun : run es (initial platform) = Some w) :
  ∃ c w' r,
    connectToProject path (Some projectInfo) attempt procs rnd reply w
    = (Return c, w')
    ∧ mapGet path (connections w') = Some c
    ∧ (∀ c', (path, c') ∈ connections w' → c' = c)
    ∧ conns w' !! c = Some r ∧ projectPath r = path
    ∧ (status r = StConnected ∨ status r = StProjectOnly)
    ∧ (connectedEntry path w = None → attempt ≠ Accepted →
       status r = StProjectOnly ∧ getUnityIPC path w' = getUnityIPC path w).
Proof.
  pose proof (reachable_registryInv _ _ _ Hrun) as Hinv.
  pose proof (registryInv_connectToProject path (Some projectInfo) attempt
                procs rnd reply w Hinv) as (R1' & _).
  destruct Hinv as (R1 & R2 & R3 & R4 & R5).
  destruct (connectedEntry path w) as [c|] eqn:Hentry.
  - assert (connectToProject path (Some projectInfo) attempt procs rnd reply w
            = (Return c, w)) as Hres.
    { unfold connectToProject. by rewrite Hentry. }
    unfold connectedEntry in Hentry.
    destruct (mapGet path (connections w)) as [c0|] eqn:Hget; [|done].
    simpl in Hentry. destruct (conns w !! c0) as [r|] eqn:Hr; [|done].
    simpl in Hentry. case_bool_decide as Hs; [|done]. injection Hentry as ->.
    exists c, w, r. split; [done|]. split; [done|]. split.
    { intros c' Hin. apply NoDup_keys_mapGet in Hin; [|done]. congruence. }
    split; [done|]. split.
    { destruct (R3 path c (mapGet_elem _ _ _ Hget)) as (r' & Hr' & Hp & _).
      congruence. }
    split; [by left|]. done.
  - destruct (connectToProject_attempt path projectInfo attempt procs rnd
                reply w Hentry)
      as (c & w' & unityIPC & Hres & C & A & _ & _ & (r & Hr & Hp & Hs) & _ & _
          & U & _).
    rewrite Hres in R1'. cbn [snd] in R1'.
    exists c, w', r. split; [done|].
    assert (mapGet path (connections w') = Some c) as Hget.
    { rewrite C. apply mapGet_mapSet. }
    split; [done|]. split.
    { intros c' Hin. apply NoDup_keys_mapGet in Hin; [|done]. congruence. }
    split; [done|]. split; [done|]. split.
    { destruct Hs as [->|[-> _]]; [by right|by left]. }
    intros _ Hna. split.
    + destruct Hs as [Hs|[_ Ha]]; done.
    + unfold getUnityIPC. rewrite U. by rewrite bool_decide_false.
Qed.

End RegistryFacts.

(** witness of X7: disconnect with nothing connected *)
Lemma disconnectFromProject_errors_witness :
  Core.disconnectFromProject None (Core.initial "linux")
  = (Detector.Throw "No project specified and no active connection",
     Core.initial "linux").
Proof.
  exact (proj1 (disconnectFromProject_errors None (Core.initial "linux"))
           eq_refl).
Defined.

(** witness of X8: disconnect of the active project A *)
Lemma disconnect_removes_entry_witness :
  ∃ w', Core.disconnectFromProject None Core.worldConnectedA
        = (Detector.Return (), w')
        ∧ Core.mapGet "/proj/A" (Core.connections w') = None.
Proof.
  destruct (disconnect_removes_entry "linux" Core.runConnectedA
              Core.worldConnectedA None "/proj/A" 0%nat)
    as (w' & H1 & H2 & _); [by vm_compute | by vm_compute | by vm_compute |].
  exists w'. exact (conj H1 H2).
Defined.

(** witness of X9: with A and B connected, A is made active again *)
Lemma switchActiveProject_only_connected_witness :
  ∃ w', Core.switchActiveProject "/proj/A" Core.worldConnectedAB
        = (Detector.Return (), w')
        ∧ Core.activeConnection w' = Some "/proj/A".
Proof.
  destruct (proj2 (proj2 (switchActiveProject_only_connected "/proj/A"
                            Core.worldConnectedAB))
              (Core.recordA Core.StConnected))
    as (w' & H1 & H2 & _); [by vm_compute | reflexivity |].
  exists w'. exact (conj H1 H2).
Defined.


(** witness of X11: project B, whose editor does not answer, is connected
    after project A *)
Lemma connect_leaves_one_entry_witness :
  ∃ c w' r,
    Core.connectToProject "/proj/B" (Some Core.infoB) Core.Refused
      Core.noProcs Core.rnd2 None Core.worldConnectedA
    = (Detector.Return c, w')
    ∧ Core.conns w' !! c = Some r
    ∧ Core.status r = Core.StProjectOnly.
Proof.
  destruct (connect_leaves_one_entry "linux" Core.runConnectedA
              Core.worldConnectedA "/proj/B" Core.infoB Core.Refused
              Core.noProcs Core.rnd2 None ltac:(by vm_compute))
    as (c & w' & r & H1 & _ & _ & H2 & _ & _ & H3).
  exists c, w', r. split; [exact H1|]. split; [exact H2|].
  apply H3; [by vm_compute | discriminate].
Defined.
(** ** The commands built on sendCommand *)

Section CommandFacts.
Import Core.
Import Detector (Completion, Return, Throw).










































End CommandFacts.


(** ** shutdown *)

Section ShutdownFacts.
Import Core.
Import Detector (Completion, Return, Throw).








End ShutdownFacts.

(** ** Events of the editor and of the socket *)

Section EventFacts.
Import Core.
Import Detector (Completion, Return, Throw).

(** A chunk that is no response: the search for a pending request finds
    nothing. *)
Lemma no_match this m w :
  (∀ id, msg_id m = Some id → id ≠ "" → handlerOf w this id = None) →
  (msg_id m ≫= λ id,
     if Js.truthy_str id
     then (λ handler, (id, handler)) <$> handlerOf w this id
     else None) = None.
Proof.
  intros Hno. destruct (msg_id m) as [id|] eqn:Hid; [|done]. simpl.
  destruct (Js.truthy_str id) eqn:Ht; [|done].
  by rewrite (Hno id eq_refl (proj1 (truthy_str_true id) Ht)).
Qed.

(** The record after a state update. *)
Definition stateApplied (state : Obj) (time : Z) (r : UnityConnection)
    : UnityConnection :=
  conn_with_lastHeartbeat time
    (conn_with_isCompiling (prop state "isCompiling")
       (conn_with_isPlaying (prop state "isPlaying") r)).

Lemma getStatus_active w a c r :
  activeConnection w = Some a → a ≠ "" →
  mapGet a (connections w) = Some c → conns w !! c = Some r →
  playModeState (getStatus w)
  = (if truthy (isPlaying r) then Playing else Stopped)
  ∧ status_isCompiling (getStatus w)
    = (if truthy (isCompiling r) then isCompiling r else JBool false).
Proof.
  intros Ha Hne%truthy_str_true Hc Hr. unfold getStatus.
  rewrite Ha, Hne, Hc. simpl. rewrite Hr. done.
Qed.

(** X15. A state_update event that arrives on an instance whose listeners
    the manager has bound to a record writes isPlaying and isCompiling of
    its payload into that record, refreshes its heartbeat, leaves its
    status and every other record alone and emits unityStateUpdate with
    the path of the record; when the record is the one of the active
    path, getStatus shows the new play mode and compile state.  An event
    without payload changes nothing: the listener fails before it writes,
    and handleIncomingMessage swallows the failure. *)
Theorem state_update_reaches_status (this : nat) (m : UnityIPCMessage)
    (w : World) (o : UnityIPC) (c : nat) (r : UnityConnection)
    (Ho : ipcs w !! this = Some o) (Hl : listeners o = Some c)
    (Hr : conns w !! c = Some r)
    (Hty : msg_type m = Some "state_update")
    (Hno : ∀ id, msg_id m = Some id → id ≠ "" → handlerOf w this id = None) :
  let w' := handleIncomingMessage this (Some m) w in
  match msg_data m with
  | None => w' = w
  | Some state =>
      conns w' = <[c := stateApplied state (now w) r]> (conns w)
      ∧ status (stateApplied state (now w) r) = status r
      ∧ emitted w' = emitted w ++ [unityStateUpdate (projectPath r) state]
      ∧ connections w' = connections w
      ∧ activeConnection w' = activeConnection w
      ∧ ipcs w' = ipcs w ∧ promises w' = promises w
      ∧ (∀ a, activeConnection w = Some a → a ≠ "" →
              mapGet a (connections w) = Some c →
              playModeState (getStatus w')
              = (if truthy (prop state "isPlaying") then Playing else Stopped)
              ∧ status_isCompiling (getStatus w')
                = (if truthy (prop state "isCompiling")
                   then prop state "isCompiling" else JBool false))
  end.
Proof.
  intros w'.
  assert (w' = emit this (ev_state_update (msg_data m))
                 (emit this (ev_unity_event m) w)) as Hw'.
  { unfold w', handleIncomingMessage. by rewrite (no_match _ _ _ Hno), Hty. }
  assert (emit this (ev_unity_event m) w = w) as He.
  { unfold emit. by rewrite Ho; simpl; rewrite Hl. }
  rewrite He in Hw'. unfold emit in Hw'. rewrite Ho in Hw'. simpl in Hw'.
  rewrite Hl in Hw'.
  destruct (msg_data m) as [state|]; [|done].
  cbn [setupUnityIPCHandlers] in Hw'.
  assert (conns w' = <[c := stateApplied state (now w) r]> (conns w)) as Hc.
  { rewrite Hw'. cbn [conns with_emitted updateConn with_conns].
    apply map_eq. intros i. rewrite lookup_alter, lookup_insert.
    case_decide; [|done]. subst. by rewrite Hr. }
  split; [done|]. split; [done|]. split.
  { rewrite Hw'. cbn [emitted with_emitted updateConn with_conns].
    unfold pathOf. cbn [conns updateConn with_conns].
    by rewrite lookup_alter_eq, Hr. }
  split; [by rewrite Hw'|]. split; [by rewrite Hw'|].
  split; [by rewrite Hw'|]. split; [by rewrite Hw'|].
  intros a Ha Hne Hget.
  apply (getStatus_active w' a c (stateApplied state (now w) r));
    [by rewrite Hw'|done|by rewrite Hw'|].
  rewrite Hc. apply lookup_insert_eq.
Qed.

(** X24. The other events of the editor, on an instance whose listeners
    the manager has bound to a record.  play_mode_changed writes isPlaying
    of its payload into the record, and nothing else: the heartbeat is not
    refreshed; without payload it changes nothing.  scene_opened changes
    no record and emits sceneOpened with the path of the record, with or
    without payload.  Every other type, hierarchy_changed among them, has
    no listener and changes nothing. *)
Theorem other_events_by_type (this : nat) (m : UnityIPCMessage)
    (type : string) (w : World) (o : UnityIPC) (c : nat)
    (r : UnityConnection)
    (Ho : ipcs w !! this = Some o) (Hl : listeners o = Some c)
    (Hr : conns w !! c = Some r)
    (Hty : msg_type m = Some type)
    (Hno : ∀ id, msg_id m = Some id → id ≠ "" → handlerOf w this id = None) :
  let w' := handleIncomingMessage this (Some m) w in
  (type = "play_mode_changed" →
   match msg_data m with
   | None => w' = w
   | Some data =>
       conns w' = <[c := conn_with_isPlaying (prop data "isPlaying") r]> (conns w)
       ∧ emitted w' = emitted w ++ [playModeChanged (projectPath r) data]
       ∧ connections w' = connections w
       ∧ activeConnection w' = activeConnection w ∧ ipcs w' = ipcs w
   end)
  ∧ (type = "scene_opened" →
     conns w' = conns w
     ∧ emitted w' = emitted w ++ [sceneOpened (projectPath r) (msg_data m)]
     ∧ connections w' = connections w
     ∧ activeConnection w' = activeConnection w ∧ ipcs w' = ipcs w)
  ∧ (type ∉ ["state_update"; "play_mode_changed"; "scene_opened"] → w' = w).
Proof.
  intros w'.
  assert (emit this (ev_unity_event m) w = w) as He.
  { unfold emit. by rewrite Ho; simpl; rewrite Hl. }
  assert (∀ ev, emit this ev w = setupUnityIPCHandlers c ev w) as Hemit.
  { intros ev. unfold emit. by rewrite Ho; simpl; rewrite Hl. }
  split; [|split].
  - intros ->.
    assert (w' = emit this (ev_play_mode_changed (msg_data m)) w) as ->.
    { unfold w', handleIncomingMessage.
      by rewrite (no_match _ _ _ Hno), Hty, He. }
    rewrite Hemit. destruct (msg_data m) as [data|]; [|done].
    cbn [setupUnityIPCHandlers].
    split; [|split; [|done]].
    + cbn [conns with_emitted updateConn with_conns].
      apply map_eq. intros i. rewrite lookup_alter, lookup_insert.
      case_decide; [|done]. subst. by rewrite Hr.
    + cbn [emitted with_emitted updateConn with_conns].
      unfold pathOf. cbn [conns updateConn with_conns].
      by rewrite lookup_alter_eq, Hr.
  - intros ->.
    assert (w' = emit this (ev_scene_opened (msg_data m)) w) as ->.
    { unfold w', handleIncomingMessage.
      by rewrite (no_match _ _ _ Hno), Hty, He. }
    rewrite Hemit. cbn [setupUnityIPCHandlers].
    split; [done|]. split; [|done].
    cbn [emitted with_emitted]. unfold pathOf. by rewrite Hr.
  - intros Hother.
    apply not_elem_of_cons in Hother as [H1 Hother].
    apply not_elem_of_cons in Hother as [H2 Hother].
    apply not_elem_of_cons in Hother as [H3 _].
    unfold w', handleIncomingMessage.
    rewrite (no_match _ _ _ Hno), Hty, He.
    destruct (Js.truthy_str type); [|done].
    destruct (String.eqb_spec type "state_update"); [done|].
    destruct (String.eqb_spec type "play_mode_changed"); [done|].
    destruct (String.eqb_spec type "scene_opened"); [done|].
    destruct (String.eqb type "hierarchy_changed"); [|done].
    by rewrite Hemit.
Qed.

(** The record after the close of the socket. *)
Definition downgraded (r : UnityConnection) : UnityConnection :=
  conn_with_editorPID None (conn_with_status StProjectOnly r).

(** X16. When the socket of an instance closes, the instance is marked
    not connected and has a reconnect timer pending afterwards: the one it
    had, or a new one and no other new timer.  The record its listeners
    are bound to drops to project_only and loses its editor PID, whatever
    its status was; no other record changes, and the registry keeps the
    entry, the active path and the registered instance. *)
Theorem close_downgrades_record (s : nat) (w w' : World) (sk : Socket)
    (o : UnityIPC)
    (Hstep : ipcStep (SocketCloses s) w = Some w')
    (Hsk : sockets w !! s = Some sk)
    (Ho : ipcs w !! owner sk = Some o) :
  let this := owner sk in
  (∃ o', ipcs w' !! this = Some o' ∧ isConnected o' = false
         ∧ socket o' = socket o
         ∧ messageHandlers o' = messageHandlers o
         ∧ match reconnectTimer o with
           | Some t => reconnectTimer o' = Some t ∧ timers w' = timers w
           | None =>
               reconnectTimer o' = Some (fresh (dom (timers w)))
               ∧ timers w'
                 = <[fresh (dom (timers w)) := ReconnectTimer this]> (timers w)
           end)
  ∧ (∀ c, listeners o = Some c →
          conns w' = alter downgraded c (conns w))
  ∧ (listeners o = None → conns w' = conns w)
  ∧ connections w' = connections w
  ∧ activeConnection w' = activeConnection w
  ∧ unityIPCConnections w' = unityIPCConnections w
  ∧ promises w' = promises w.
Proof.
  intros this. unfold ipcStep in Hstep. rewrite Hsk in Hstep.
  simpl in Hstep. fold this in Hstep, Ho. clearbody this.
  assert (w' = onClose this (setSockState s SockClosed w)) as ->.
  { destruct (state sk); congruence. }
  clear Hstep. unfold onClose.
  set (w0 := setSockState s SockClosed w).
  set (w1 := updateIpc this (ipc_with_isConnected false) w0).
  set (o1 := ipc_with_isConnected false o).
  assert (ipcs w1 = <[this := o1]> (ipcs w)) as Hi1.
  { unfold w1, updateIpc; simpl. apply map_eq. intros i.
    rewrite lookup_alter, lookup_insert. case_decide; [|done]. subst.
    by rewrite Ho. }
  assert (ipcs w1 !! this = Some o1) as Ho1.
  { rewrite Hi1. apply lookup_insert_eq. }
  set (w2 := emit this ev_disconnected w1).
  destruct (emit_frame this ev_disconnected w1)
    as (Ei & _ & Et & Ep & _ & _ & Ec & Ea & Eu).
  fold w2 in Ei, Et, Ep, Ec, Ea, Eu.
  assert (conns w2 = match listeners o with
                     | Some c => alter downgraded c (conns w)
                     | None => conns w
                     end) as Hc2.
  { unfold w2, emit. rewrite Ho1. simpl. by destruct (listeners o). }
  assert (ipcs w2 !! this = Some o1) as Ho2 by (by rewrite Ei).
  unfold scheduleReconnect. rewrite Ho2.
  change (reconnectTimer o1) with (reconnectTimer o).
  destruct (reconnectTimer o) as [t|] eqn:Hrt.
  - split.
    { exists o1. split; [done|]. split; [done|]. split; [done|].
      split; [done|]. split; [done|]. by rewrite Et. }
    rewrite Hc2, Ec, Ea, Eu, Ep.
    split; [by intros c ->|]. split; [by intros ->|]. done.
  - cbn [setTimeout fst snd].
    assert (timers w2 = timers w) as Ht2 by (by rewrite Et).
    split.
    { eexists. split.
      - unfold updateIpc; simpl. rewrite lookup_alter_eq, Ho2. simpl. done.
      - simpl. rewrite Ht2. done. }
    cbn [conns connections activeConnection unityIPCConnections promises
         updateIpc with_ipcs with_timers].
    rewrite Hc2, Ec, Ea, Eu, Ep.
    split; [by intros c ->|]. split; [by intros ->|]. done.
Qed.

End EventFacts.

(** witness of X15: the editor of project A reports that it is playing *)
Lemma state_update_reaches_status_witness :
  Core.playModeState
    (Core.getStatus
       (Core.handleIncomingMessage 0 (Some Core.playingEvent)
          Core.worldConnectedA)) = Core.Playing.
Proof.
  pose proof (state_update_reaches_status 0 Core.playingEvent
                Core.worldConnectedA
                {| Core.socket := Some 0%nat; Core.isConnected := true;
                   Core.ipc_projectPath := "/proj/A";
                   Core.pipeName := Naming.pipeName "/proj/A";
                   Core.reconnectTimer := None; Core.messageHandlers := ∅;
                   Core.listeners := Some 0%nat |}
                0%nat (Core.recordA Core.StConnected)
                ltac:(by vm_compute) eq_refl ltac:(by vm_compute) eq_refl
                ltac:(by intros id [=])) as H.
  cbv zeta in H. cbn [Core.msg_data Core.playingEvent] in H.
  destruct H as (_ & _ & _ & _ & _ & _ & _ & H).
  exact (proj1 (H "/proj/A" ltac:(by vm_compute) ltac:(done)
                  ltac:(by vm_compute))).
Defined.

(** witness of X16: the socket of project A closes *)
Lemma close_downgrades_record_witness :
  Core.connections (Core.onClose 0 (Core.setSockState 0 Core.SockClosed Core.worldConnectedA))
  = Core.connections Core.worldConnectedA.
Proof.
  refine (proj1 (proj2 (proj2 (proj2
    (close_downgrades_record 0 Core.worldConnectedA _
       {| Core.owner := 0; Core.path := "/tmp/" +:+ Naming.pipeName "/proj/A";
          Core.state := Core.SockOpen |}
       {| Core.socket := Some 0%nat; Core.isConnected := true;
          Core.ipc_projectPath := "/proj/A";
          Core.pipeName := Naming.pipeName "/proj/A";
          Core.reconnectTimer := None; Core.messageHandlers := ∅;
          Core.listeners := Some 0%nat |} _ _ _))))).
  - by vm_compute.
  - by vm_compute.
  - by vm_compute.
Defined.

(** witness of X24: the editor of project A opens a scene *)
Lemma other_events_by_type_witness :
  Core.conns
    (Core.handleIncomingMessage 0 (Some Core.sceneEvent) Core.worldConnectedA)
  = Core.conns Core.worldConnectedA.
Proof.
  refine (proj1 (proj1 (proj2
    (other_events_by_type 0 Core.sceneEvent "scene_opened"
       Core.worldConnectedA
       {| Core.socket := Some 0%nat; Core.isConnected := true;
          Core.ipc_projectPath := "/proj/A";
          Core.pipeName := Naming.pipeName "/proj/A";
          Core.reconnectTimer := None; Core.messageHandlers := ∅;
          Core.listeners := Some 0%nat |}
       0%nat (Core.recordA Core.StConnected) _ _ _ _ _)) _)).
  - by vm_compute.
  - done.
  - by vm_compute.
  - done.
  - by intros id [=].
  - done.
Defined.
(** ** The tools and their registry *)

Section ToolFacts.
Import Core Tools.
Import Detector (Completion, Return, Throw).
Import UnityToolRegistry.

(** *** The two Maps of the registry *)

Lemma mapDelete_keys {V W} k (m1 : JsMap V) (m2 : JsMap W) :
  m1.*1 = m2.*1 → (mapDelete k m1).*1 = (mapDelete k m2).*1.
Proof.
  revert m2. induction m1 as [|[k1 v1] m1 IH]; intros [|[k2 v2] m2] Heq;
    try done.
  injection Heq as -> Heq. simpl. destruct (String.eqb k k2); [done|].
  simpl. f_equal. by apply IH.
Qed.

Lemma mapSet_fresh {V} k (v : V) m :
  mapGet k m = None → mapSet k v m = m ++ [(k, v)].
Proof.
  induction m as [|[k' v'] m IH]; simpl; [done|].
  destruct (String.eqb k k'); [done|]. intros H. by rewrite IH.
Qed.

Lemma mapDelete_last {V} k (v : V) m :
  mapGet k m = None → mapDelete k (m ++ [(k, v)]) = m.
Proof.
  induction m as [|[k' v'] m IH]; simpl.
  - by rewrite String.eqb_refl.
  - destruct (String.eqb k k'); [done|]. intros H. by rewrite IH.
Qed.

(** The two Maps have the same keys in the same order, no key twice, and
    a tool is stored under its name. *)
Definition inStep (reg : Registry) : Prop :=
  (tools reg).*1 = (toolHandlers reg).*1
  ∧ NoDup (tools reg).*1
  ∧ (∀ k tool, (k, tool) ∈ tools reg → tool_name tool = k).

Lemma inStep_registerTool tool handler reg :
  inStep reg → inStep (registerTool tool handler reg).2.
Proof.
  intros (H1 & H2 & H3). unfold registerTool. case_bool_decide; [done|].
  cbn [snd]. split; [|split]; cbn [tools toolHandlers].
  - rewrite !mapSet_keys, H1. done.
  - by apply mapSet_keys_NoDup.
  - intros k t [[-> ->]|[_ Hin]]%elem_of_mapSet; [done|by apply H3|done].
Qed.

Lemma inStep_unregisterTool toolName reg :
  inStep reg → inStep (unregisterTool toolName reg).2.
Proof.
  intros (H1 & H2 & H3). unfold unregisterTool. case_bool_decide; [|done].
  cbn [snd]. split; [|split]; cbn [tools toolHandlers].
  - by apply mapDelete_keys.
  - apply (sublist_NoDup _ ((tools reg).*1)); [done|].
    apply fmap_sublist, mapDelete_sublist.
  - intros k t [_ Hin]%elem_of_mapDelete; [by apply H3|done].
Qed.

Lemma inStep_same reg reg' :
  tools reg' = tools reg → toolHandlers reg' = toolHandlers reg →
  inStep reg → inStep reg'.
Proof. unfold inStep. by intros -> ->. Qed.

Lemma handle_maps handler command env reg :
  tools (handle handler command env reg).2 = tools reg
  ∧ toolHandlers (handle handler command env reg).2 = toolHandlers reg
  ∧ statusTool (handle handler command env reg).2 = statusTool reg.
Proof.
  destruct handler; simpl; [|done..].
  by destruct (UnityConnectionTool.execute command env (connectionTool reg)).
Qed.

Lemma executeCommand_maps command env reg :
  tools (executeCommand command env reg).2 = tools reg
  ∧ toolHandlers (executeCommand command env reg).2 = toolHandlers reg
  ∧ statusTool (executeCommand command env reg).2 = statusTool reg.
Proof.
  unfold executeCommand.
  destruct (mapGet (method command) (toolHandlers reg)); [|done].
  destruct (mapGet (method command) (tools reg)); [|done].
  apply handle_maps.
Qed.

Lemma inStep_initialize reg : inStep reg → inStep (initialize reg).2.
Proof.
  intros Hinv. unfold initialize, registerBuiltinTools.
  pose proof (inStep_registerTool UnityConnectionTool.getTool
                ConnectionToolExecute reg Hinv) as H1.
  destruct (registerTool UnityConnectionTool.getTool ConnectionToolExecute reg)
    as [[[]|e] reg1]; [|done].
  cbn [snd] in H1.
  set (reg2 := {| tools := tools reg1 |}).
  assert (inStep reg2) as H2 by (by apply (inStep_same reg1)).
  pose proof (inStep_registerTool UnityStatusTool.getTool
                StatusToolExecute reg2 H2) as H3.
  destruct (registerTool UnityStatusTool.getTool StatusToolExecute reg2)
    as [[[]|e] reg3]; [|done].
  cbn [snd] in *. by apply (inStep_same reg3).
Qed.

Lemma inStep_call c reg reg' : call c reg = Some reg' → inStep reg → inStep reg'.
Proof.
  intros Hc Hinv. destruct c; simpl in Hc.
  - injection Hc as <-. by apply inStep_initialize.
  - injection Hc as <-. by apply inStep_registerTool.
  - injection Hc as <-. by apply inStep_unregisterTool.
  - injection Hc as <-.
    destruct (executeCommand_maps command0 env reg) as (E1 & E2 & _).
    by apply (inStep_same reg).
  - destruct (ipcStep e (connectionTool reg)); [|done].
    injection Hc as <-. by apply (inStep_same reg).
Qed.

(** Induction over the calls of a session. *)
Lemma calls_invariant (P : Registry → Prop) cs reg reg' :
  (∀ c r1 r2, call c r1 = Some r2 → P r1 → P r2) →
  calls cs reg = Some reg' → P reg → P reg'.
Proof.
  intros Hstep. revert reg. induction cs as [|c cs IH]; intros reg Hrun Hreg.
  - by injection Hrun as <-.
  - simpl in Hrun. destruct (call c reg) as [reg1|] eqn:Hc; [|done].
    simpl in Hrun. eauto.
Qed.

Lemma reachable_inStep platform cs reg :
  calls cs (empty platform) = Some reg → inStep reg.
Proof.
  intros Hrun. eapply (calls_invariant inStep); eauto using inStep_call.
  split; [done|]. split; [constructor|]. by intros ? ? ?%elem_of_nil.
Qed.

Lemma inStep_lookup reg name :
  inStep reg →
  mapGet name (toolHandlers reg) = None ↔ mapGet name (tools reg) = None.
Proof. intros (H1 & _). rewrite !mapGet_None_keys, H1. done. Qed.

(** X17. However tools are registered and unregistered, the registry
    holds a handler for a name exactly when it holds a tool for it, the
    tool found under a name bears that name, and no two registered tools
    share a name.  So executeCommand fails with its no-handler error for
    an unregistered name and runs the handler otherwise: its check for a
    missing tool never fires. *)
Theorem registry_handler_has_tool (platform : string) (cs : list Call)
    (reg : Registry) (Hrun : calls cs (empty platform) = Some reg) :
  (∀ name, is_Some (mapGet name (toolHandlers reg))
           ↔ is_Some (getTool name reg))
  ∧ (∀ name tool, getTool name reg = Some tool → tool_name tool = name)
  ∧ NoDup (tool_name <$> getAllTools reg)
  ∧ (∀ command env,
       executeCommand command env reg
       = match mapGet (method command) (toolHandlers reg) with
         | None =>
             (Throw ("No handler found for command: " +:+ method command),
              reg)
         | Some handler => handle handler command env reg
         end).
Proof.
  pose proof (reachable_inStep _ _ _ Hrun) as Hinv.
  pose proof (inStep_lookup reg) as Hl.
  destruct Hinv as (H1 & H2 & H3).
  split; [|split; [|split]].
  - intros name. unfold getTool. rewrite <- !not_eq_None_Some.
    by rewrite (Hl name).
  - intros name tool Hget. by apply H3, mapGet_elem.
  - unfold getAllTools.
    assert (tool_name <$> (tools reg).*2 = (tools reg).*1) as ->; [|done].
    revert H3. clear. induction (tools reg) as [|[k t] l IH]; intros H3.
    + done.
    + rewrite !fmap_cons. cbn [fst snd]. f_equal.
      * apply H3, list_elem_of_here.
      * apply IH. intros k' t' Hin. by apply H3, list_elem_of_further.
  - intros command env. unfold executeCommand.
    destruct (mapGet (method command) (toolHandlers reg)) as [h|] eqn:Hh;
      [|done].
    destruct (mapGet (method command) (tools reg)) as [t|] eqn:Ht; [done|].
    apply Hl in Ht; [congruence|done].
Qed.

(** X18. registerTool fails for a name that is taken and changes
    nothing; for a free name it adds the tool at the end, getTool then
    finds it, executeCommand runs its handler, every other name is as
    before, and unregisterTool of the name gives the registry back as it
    was.  unregisterTool fails for a name that is not registered. *)
Theorem register_unregister_round_trip (platform : string) (cs : list Call)
    (reg : Registry) (tool : UnityTool) (handler : Handler)
    (Hrun : calls cs (empty platform) = Some reg) :
  (is_Some (getTool (tool_name tool) reg) →
   registerTool tool handler reg
   = (Throw ("Tool already registered: " +:+ tool_name tool), reg))
  ∧ (getTool (tool_name tool) reg = None →
     unregisterTool (tool_name tool) reg
     = (Throw ("Tool not found: " +:+ tool_name tool), reg)
     ∧ ∃ reg',
         registerTool tool handler reg = (Return (), reg')
         ∧ getTool (tool_name tool) reg' = Some tool
         ∧ (∀ name, name ≠ tool_name tool →
                    getTool name reg' = getTool name reg)
         ∧ getAllTools reg' = getAllTools reg ++ [tool]
         ∧ (∀ command env, method command = tool_name tool →
              executeCommand command env reg'
              = handle handler command env reg')
         ∧ unregisterTool (tool_name tool) reg' = (Return (), reg)).
Proof.
  pose proof (reachable_inStep _ _ _ Hrun) as Hinv.
  pose proof (inStep_lookup reg (tool_name tool) Hinv) as Hl.
  unfold getTool. split.
  - intros Hsome. unfold registerTool. by rewrite bool_decide_true.
  - intros Hnone. split.
    { unfold unregisterTool. rewrite bool_decide_false; [done|].
      rewrite Hnone. by intros [? ?]. }
    pose proof (proj2 Hl Hnone) as Hnoh.
    unfold registerTool. rewrite bool_decide_false
      by (rewrite Hnone; by intros [? ?]).
    eexists. split; [reflexivity|]. cbn [tools toolHandlers].
    split; [apply mapGet_mapSet|]. split.
    { intros name Hne. by apply mapGet_mapSet_ne. }
    split.
    { unfold getAllTools. cbn [tools].
      by rewrite (mapSet_fresh _ _ _ Hnone), fmap_app. }
    split.
    { intros command env Hm. unfold executeCommand. cbn [tools toolHandlers].
      by rewrite Hm, !mapGet_mapSet. }
    unfold unregisterTool. cbn [tools toolHandlers connectionTool statusTool].
    rewrite bool_decide_true by (rewrite mapGet_mapSet; eauto).
    rewrite (mapSet_fresh _ _ _ Hnone), (mapSet_fresh _ _ _ Hnoh).
    rewrite (mapDelete_last _ _ _ Hnone), (mapDelete_last _ _ _ Hnoh).
    by destruct reg.
Qed.

(** *** The status tool *)

Lemma statusTool_call c reg reg' :
  call c reg = Some reg' → statusTool reg' = statusTool reg
  ∨ statusTool reg' = initial (platform (statusTool reg)).
Proof.
  intros Hc. destruct c; simpl in Hc.
  - injection Hc as <-. unfold initialize, registerBuiltinTools, registerTool.
    repeat (case_bool_decide; cbn [fst snd tools toolHandlers statusTool
                                   connectionTool]); auto.
  - injection Hc as <-. unfold registerTool. case_bool_decide; auto.
  - injection Hc as <-. unfold unregisterTool. case_bool_decide; auto.
  - injection Hc as <-. left. apply executeCommand_maps.
  - destruct (ipcStep e (connectionTool reg)); [|done].
    injection Hc as <-. by left.
Qed.

Lemma reachable_statusTool platform cs reg :
  calls cs (empty platform) = Some reg → statusTool reg = initial platform.
Proof.
  intros Hrun.
  eapply (calls_invariant (λ r, statusTool r = initial platform)); eauto.
  intros c r1 r2 Hc H1. destruct (statusTool_call c r1 r2 Hc) as [->| ->];
    [done|]. by rewrite H1.
Qed.

(** X19. The status tool asks a connection manager of its own, which no
    call ever connects: whatever was registered, connected or delivered
    before, the status it reports has no connection, no active project,
    play mode Stopped, not compiling, and no project details, and a
    unity_status command that reaches its handler returns just that. *)
Theorem status_tool_sees_no_connection (platform : string) (cs : list Call)
    (reg : Registry) (command : MCPCommand) (env : Env)
    (Hrun : calls cs (empty platform) = Some reg) :
  ∃ r,
    UnityStatusTool.execute command env (statusTool reg) = Return r
    ∧ UnityStatusTool.result_connections r = []
    ∧ UnityStatusTool.result_activeProject r = None
    ∧ UnityStatusTool.summary r
      = {| UnityStatusTool.totalConnections := 0;
           UnityStatusTool.connectedProjects := 0;
           UnityStatusTool.hasActiveProject := false |}
    ∧ UnityStatusTool.result_playModeState r = Stopped
    ∧ UnityStatusTool.result_isCompiling r = JBool false
    ∧ UnityStatusTool.activeProjectDetails r = None
    ∧ (mapGet (method command) (toolHandlers reg) = Some StatusToolExecute →
       executeCommand command env reg = (Return (OfStatus r), reg)).
Proof.
  pose proof (reachable_statusTool _ _ _ Hrun) as Hs.
  destruct (reachable_inStep _ _ _ Hrun) as (H1 & _).
  eexists. split; [reflexivity|]. rewrite Hs.
  split; [done|]. split; [done|]. split; [done|]. split; [done|].
  split; [done|]. split; [done|].
  intros Hh. unfold executeCommand. rewrite Hh.
  destruct (mapGet (method command) (tools reg)) as [t|] eqn:Ht.
  - simpl. by rewrite Hs.
  - apply mapGet_None_keys in Ht. rewrite H1 in Ht.
    apply mapGet_None_keys in Ht. congruence.
Qed.

(** *** The disconnect tool *)

(** The error of the manager for a value of the parameter. *)
Definition disconnectError (projectPath : JsVal) : string :=
  if truthy projectPath
  then "No connection found for project: " +:+ jsString projectPath
  else "No project specified and no active connection".

Lemma disconnect_execute_initial command platform :
  UnityDisconnectTool.execute command (initial platform)
  = (Throw ("Failed to disconnect from Unity project: "
              +:+ disconnectError (prop (params command) "projectPath")),
     initial platform).
Proof.
  unfold UnityDisconnectTool.execute, UnityDisconnectTool.disconnectFromProjectAny,
    disconnectError.
  destruct (prop (params command) "projectPath") as [| |b|z|s]; try done.
  - by destruct b.
  - simpl. by destruct (negb (z =? 0)).
  - unfold disconnectFromProject. simpl.
    destruct (Js.truthy_str s) eqn:Hs; [|done]. simpl. by rewrite Hs.
Qed.

(** X20. The disconnect tool asks a connection manager of its own, which
    nothing ever connects, so it never succeeds: every command run on it
    throws, with the no-connection error of the manager for a path that
    is given and the no-project error otherwise, and leaves the tool as it
    was. *)
Theorem disconnect_tool_always_throws (platform : string)
    (commands : list MCPCommand) :
  UnityDisconnectTool.executeAll commands (initial platform)
  = ((λ command,
        Throw ("Failed to disconnect from Unity project: "
                 +:+ disconnectError (prop (params command) "projectPath")))
       <$> commands,
     initial platform).
Proof.
  induction commands as [|command commands IH]; [done|].
  cbn [UnityDisconnectTool.executeAll].
  rewrite disconnect_execute_initial, IH. done.
Qed.

(** *** The connection tool *)


End ToolFacts.

(** witness of X17: a session that connects project A *)
Lemma registry_handler_has_tool_witness :
  is_Some (Tools.UnityToolRegistry.getTool "unity_status"
             (default (Tools.UnityToolRegistry.empty "linux")
                (Tools.UnityToolRegistry.calls Tools.sessionConnectA
                   (Tools.UnityToolRegistry.empty "linux")))).
Proof.
  refine (proj1 (proj1 (registry_handler_has_tool "linux" Tools.sessionConnectA
                          _ _) "unity_status") _).
  - by vm_compute.
  - vm_compute. by eexists.
Defined.

(** witness of X18: a tool of the caller, registered after the session *)
Lemma register_unregister_round_trip_witness :
  Tools.UnityToolRegistry.unregisterTool "unity_disconnect"
    (default (Tools.UnityToolRegistry.empty "linux")
       (Tools.UnityToolRegistry.calls Tools.sessionConnectA
          (Tools.UnityToolRegistry.empty "linux")))
  = (Detector.Throw "Tool not found: unity_disconnect",
     default (Tools.UnityToolRegistry.empty "linux")
       (Tools.UnityToolRegistry.calls Tools.sessionConnectA
          (Tools.UnityToolRegistry.empty "linux"))).
Proof.
  refine (proj1 (proj2 (register_unregister_round_trip "linux"
                          Tools.sessionConnectA _
                          Tools.UnityDisconnectTool.getTool
                          (Tools.UnityToolRegistry.External
                             (λ _, Detector.Return Core.JNull)) _) _)).
  - by vm_compute.
  - by vm_compute.
Defined.

(** witness of X19: the status asked for after project A was connected *)
Lemma status_tool_sees_no_connection_witness :
  ∃ r,
    Tools.UnityToolRegistry.executeCommand (Tools.command "unity_status" ∅)
      Tools.envA
      (default (Tools.UnityToolRegistry.empty "linux")
         (Tools.UnityToolRegistry.calls Tools.sessionConnectA
            (Tools.UnityToolRegistry.empty "linux")))
    = (Detector.Return (Tools.UnityToolRegistry.OfStatus r),
       default (Tools.UnityToolRegistry.empty "linux")
         (Tools.UnityToolRegistry.calls Tools.sessionConnectA
            (Tools.UnityToolRegistry.empty "linux")))
    ∧ Tools.UnityStatusTool.result_connections r = [].
Proof.
  destruct (status_tool_sees_no_connection "linux" Tools.sessionConnectA
              (default (Tools.UnityToolRegistry.empty "linux")
                 (Tools.UnityToolRegistry.calls Tools.sessionConnectA
                    (Tools.UnityToolRegistry.empty "linux")))
              (Tools.command "unity_status" ∅) Tools.envA)
    as (r & _ & Hc & _ & _ & _ & _ & _ & Hx).
  - by vm_compute.
  - exists r. split; [|exact Hc]. apply Hx. by vm_compute.
Defined.

(** ** Every promise is settled once *)

Section SettleFacts.
Import Core.

(** A step that leaves requests alone: handlers, promises, the log of
    settlements and the command timers are as before. *)
Definition quiet (w w' : World) : Prop :=
  (∀ this id, handlerOf w' this id = handlerOf w this id)
  ∧ promises w' = promises w ∧ settled w' = settled w
  ∧ (∀ t this id command p,
       timers w' !! t = Some (CommandTimeout this id command p)
       ↔ timers w !! t = Some (CommandTimeout this id command p)).

Lemma quiet_refl w : quiet w w.
Proof. done. Qed.

Lemma quiet_trans w1 w2 w3 : quiet w1 w2 → quiet w2 w3 → quiet w1 w3.
Proof.
  intros (A1 & A2 & A3 & A4) (B1 & B2 & B3 & B4).
  split; [intros; by rewrite B1|]. split; [congruence|]. split; [congruence|].
  intros. by rewrite B4.
Qed.

Lemma quiet_same w w' :
  ipcs w' = ipcs w → promises w' = promises w → settled w' = settled w →
  timers w' = timers w → quiet w w'.
Proof.
  intros Hi Hp Hs Ht. split; [|by rewrite Ht].
  intros this id. by apply handlerOf_ipcs.
Qed.

Lemma quiet_updateIpc this g w :
  (∀ o, messageHandlers (g o) = messageHandlers o) →
  quiet w (updateIpc this g w).
Proof.
  intros Hg. split; [|done]. intros this' id. by apply handlerOf_updateIpc.
Qed.

Lemma quiet_emit this ev w : quiet w (emit this ev w).
Proof.
  destruct (emit_frame this ev w) as (Ei & _ & Et & Ep & Es & _).
  by apply quiet_same.
Qed.

Definition isCommand (callback : Timer) : Prop :=
  match callback with CommandTimeout _ _ _ _ => True | _ => False end.

Lemma quiet_setTimeout callback w :
  ¬ isCommand callback → quiet w (setTimeout callback w).2.
Proof.
  intros Hcb. split; [done|]. split; [done|]. split; [done|].
  intros t this id command p. unfold setTimeout; simpl.
  rewrite lookup_insert. case_decide as Ht; [|done]. subst. split.
  - intros [= ->]. by destruct Hcb.
  - intros Hin. exfalso. apply (is_fresh (dom (timers w))), elem_of_dom. eauto.
Qed.

Lemma quiet_clearTimeout t w :
  (∀ callback, timers w !! t = Some callback → ¬ isCommand callback) →
  quiet w (clearTimeout t w).
Proof.
  intros Hcb. split; [done|]. split; [done|]. split; [done|].
  intros t' this id command p. unfold clearTimeout; simpl.
  rewrite lookup_delete. case_decide as Ht; [|done]. subst. split; [done|].
  intros Hin. by destruct (Hcb _ Hin).
Qed.

Lemma quiet_newUnityIPC projectPath w : quiet w (newUnityIPC projectPath w).2.
Proof.
  split; [|done]. intros this id. unfold handlerOf, newUnityIPC; simpl.
  rewrite lookup_insert. case_decide as Hthis; [|done]. subst. simpl.
  rewrite lookup_empty.
  destruct (ipcs w !! fresh (dom (ipcs w))) as [o|] eqn:Ho; [|done].
  exfalso. apply (is_fresh (dom (ipcs w))), elem_of_dom. eauto.
Qed.

Lemma quiet_connect this w : quiet w (connect this w).
Proof.
  unfold connect. destruct (ipcs w !! this) as [o|]; [|apply quiet_refl].
  eapply quiet_trans; [|by apply quiet_setTimeout; intros []].
  eapply quiet_trans; [|by apply quiet_updateIpc].
  by apply quiet_same.
Qed.

Lemma quiet_scheduleReconnect this w : quiet w (scheduleReconnect this w).
Proof.
  unfold scheduleReconnect.
  destruct (ipcs w !! this) as [o|]; [|apply quiet_refl].
  destruct (reconnectTimer o); [apply quiet_refl|].
  pose proof (quiet_setTimeout (ReconnectTimer this) w) as H.
  destruct (setTimeout (ReconnectTimer this) w) as [t w1]. cbn [snd] in H.
  eapply quiet_trans; [by apply H; intros []|]. by apply quiet_updateIpc.
Qed.

Lemma quiet_disconnect this w :
  reconnectInv w → quiet w (disconnect this w).
Proof.
  intros Hinv. unfold disconnect.
  destruct (ipcs w !! this) as [o|] eqn:Ho; [|apply quiet_refl].
  set (w1 := match reconnectTimer o with
             | Some t => _
             | None => w
             end).
  assert (quiet w w1) as H1.
  { unfold w1. destruct (reconnectTimer o) as [t|] eqn:Hrt; [|apply quiet_refl].
    eapply quiet_trans; [|by apply quiet_updateIpc].
    apply quiet_clearTimeout. intros callback Hcb.
    assert (timers w !! t = Some (ReconnectTimer this)) as Ht.
    { apply Hinv. unfold reconnectTimerOf. by rewrite Ho. }
    rewrite Ht in Hcb. injection Hcb as <-. by intros []. }
  set (w2 := match socket o with
             | Some s => _
             | None => w1
             end).
  assert (quiet w1 w2) as H2.
  { unfold w2. destruct (socket o) as [s|]; [|apply quiet_refl].
    eapply quiet_trans; [|by apply quiet_updateIpc].
    by apply quiet_same. }
  eapply quiet_trans; [exact H1|].
  eapply quiet_trans; [exact H2|]. by apply quiet_updateIpc.
Qed.

Lemma quiet_onConnect this w : quiet w (onConnect this w).
Proof.
  unfold onConnect. eapply quiet_trans; [|apply quiet_emit].
  by apply quiet_updateIpc.
Qed.

Lemma quiet_onClose this w : quiet w (onClose this w).
Proof.
  unfold onClose. eapply quiet_trans; [|apply quiet_scheduleReconnect].
  eapply quiet_trans; [|apply quiet_emit]. by apply quiet_updateIpc.
Qed.

Lemma quiet_onConnectTimeout this w : quiet w (onConnectTimeout this w).
Proof.
  unfold onConnectTimeout.
  destruct (ipcs w !! this) as [o|]; [|apply quiet_refl].
  destruct (isConnected o); [apply quiet_refl|].
  destruct (socket o); [by apply quiet_same|apply quiet_refl].
Qed.

Lemma quiet_onReconnectTimer this w : quiet w (onReconnectTimer this w).
Proof.
  unfold onReconnectTimer. eapply quiet_trans; [|apply quiet_connect].
  by apply quiet_updateIpc.
Qed.

(** *** The invariant *)

(** [sent] holds the ids drawn so far.  A registered handler belongs to a
    pending promise and has its timer pending; a command timer whose
    request still has a handler has the handler of its own promise; no two
    handlers share a promise; a pending promise was never settled, a
    settled one was settled once, with the outcome it shows. *)
Definition settledOnce (sent : list string) (w : World) : Prop :=
  (∀ this id p, handlerOf w this id = Some p →
     id ∈ sent ∧ promises w !! p = Some Pending
     ∧ ∃ t command, timers w !! t = Some (CommandTimeout this id command p))
  ∧ (∀ t this id command p,
       timers w !! t = Some (CommandTimeout this id command p) →
       id ∈ sent ∧ ∀ q, handlerOf w this id = Some q → q = p)
  ∧ (∀ this id this' id' p,
       handlerOf w this id = Some p → handlerOf w this' id' = Some p →
       this = this' ∧ id = id')
  ∧ (∀ p, (settleCount p w ≤ 1)%nat)
  ∧ (∀ p, p ∉ dom (promises w) → settleCount p w = 0%nat)
  ∧ (∀ p, promises w !! p = Some Pending → settleCount p w = 0%nat)
  ∧ (∀ p o, promises w !! p = Some o → o ≠ Pending → (p, o) ∈ settled w).

Lemma settledOnce_quiet sent w w' :
  quiet w w' → settledOnce sent w → settledOnce sent w'.
Proof.
  intros (Q1 & Q2 & Q3 & Q4) (J1 & J2 & J3 & J4 & J5 & J6 & J7).
  unfold settledOnce, settleCount. rewrite Q2, Q3.
  split; [|split; [|split; [|done]]].
  - intros this id p. rewrite Q1. intros Hh.
    destruct (J1 this id p Hh) as (Hs & Hp & t & command & Ht).
    split; [done|]. split; [done|]. exists t, command. by apply Q4.
  - intros t this id command p Ht%Q4.
    destruct (J2 _ _ _ _ _ Ht) as [Hs Hq]. split; [done|].
    intros q. rewrite Q1. apply Hq.
  - intros this id this' id' p. rewrite !Q1. apply J3.
Qed.

Lemma settledOnce_more sent sent' w :
  sent ⊆ sent' → settledOnce sent w → settledOnce sent' w.
Proof.
  intros Hsub (J1 & J2 & J3 & J4).
  split; [|split; [|done]].
  - intros this id p Hh. destruct (J1 this id p Hh) as (Hs & Hr).
    split; [by apply Hsub|done].
  - intros t this id command p Ht. destruct (J2 _ _ _ _ _ Ht) as [Hs Hq].
    split; [by apply Hsub|done].
Qed.

Lemma settleCount_settle q p o w :
  settleCount q (settle p o w)
  = (settleCount q w + if decide (q = p) then 1 else 0)%nat.
Proof.
  unfold settleCount.
  destruct (settle_frame p o w) as (_ & _ & _ & ->).
  rewrite List.filter_app, length_app. f_equal. simpl.
  case_bool_decide; case_decide; simpl in *; congruence.
Qed.

(** Settling the promise of a handler that is taken out of the map, by a
    response or by the timer [gone] of the request. *)
Lemma settledOnce_settle sent this id p o w (gone : option nat) :
  o ≠ Pending →
  handlerOf w this id = Some p →
  (∀ t, gone = Some t →
        ∃ command, timers w !! t = Some (CommandTimeout this id command p)) →
  settledOnce sent w →
  let w0 := match gone with Some t => clearTimeout t w | None => w end in
  settledOnce sent (settle p o (updateIpc this (forget id) w0)).
Proof.
  intros Ho Hh Hgone (J1 & J2 & J3 & J4 & J5 & J6 & J7) w0.
  destruct (J1 this id p Hh) as (Hs & Hp & _).
  set (w1 := updateIpc this (forget id) w0).
  destruct (settle_frame p o w1) as (Ei & Et & _ & Es).
  assert (promises w0 = promises w) as Hp0 by (unfold w0; by destruct gone).
  assert (settled w0 = settled w) as Hs0 by (unfold w0; by destruct gone).
  assert (∀ this' id', handlerOf w0 this' id' = handlerOf w this' id') as Hh0.
  { unfold w0. by destruct gone. }
  assert (∀ this' id',
            handlerOf (settle p o w1) this' id'
            = if decide (this' = this ∧ id' = id) then None
              else handlerOf w this' id') as Hh1.
  { intros this' id'. rewrite (handlerOf_ipcs _ _ _ _ Ei). unfold w1.
    by rewrite handlerOf_forget, Hh0. }
  assert (∀ q, promises (settle p o w1) !! q
               = if decide (q = p) then Some o else promises w !! q) as Hp1.
  { intros q. rewrite settle_promises.
    change (promises w1) with (promises w0). rewrite Hp0, Hp.
    destruct (decide (q = p)) as [->|Hq].
    - by rewrite decide_True.
    - rewrite decide_False; [done|]. by intros [? _]. }
  assert (∀ q, settleCount q (settle p o w1)
               = (settleCount q w + if decide (q = p) then 1 else 0)%nat)
    as Hc1.
  { intros q. rewrite settleCount_settle. unfold settleCount.
    change (settled w1) with (settled w0). by rewrite Hs0. }
  assert (∀ t this' id' command q,
            timers (settle p o w1) !! t
            = Some (CommandTimeout this' id' command q) →
            timers w !! t = Some (CommandTimeout this' id' command q)) as Ht1.
  { intros t this' id' command q. rewrite Et.
    change (timers w1) with (timers w0). unfold w0.
    destruct gone as [t0|]; [|done]. unfold clearTimeout; simpl.
    by intros [_ ?]%lookup_delete_Some. }
  split; [|split; [|split; [|split; [|split; [|split]]]]].
  - intros this' id' q. rewrite Hh1. case_decide as Hk; [done|]. intros Hq.
    destruct (J1 this' id' q Hq) as (Hs' & Hp' & t & command & Ht).
    split; [done|]. split.
    + rewrite Hp1. rewrite decide_False; [done|]. intros ->.
      destruct (J3 _ _ _ _ _ Hh Hq) as [-> ->]. by apply Hk.
    + exists t, command. rewrite Et. change (timers w1) with (timers w0).
      unfold w0. destruct gone as [t0|]; [|done].
      unfold clearTimeout; simpl. rewrite lookup_delete_ne; [done|].
      intros ->. destruct (Hgone t eq_refl) as [c' Ht0].
      rewrite Ht0 in Ht. injection Ht as -> -> ->. by apply Hk.
  - intros t this' id' command q Ht%Ht1.
    destruct (J2 _ _ _ _ _ Ht) as [Hs' Hq]. split; [done|].
    intros q'. rewrite Hh1. case_decide; [done|]. apply Hq.
  - intros this1 id1 this2 id2 q. rewrite !Hh1.
    repeat case_decide; try done. apply J3.
  - intros q. rewrite Hc1. case_decide as Hq; [|rewrite Nat.add_0_r; apply J4].
    subst. rewrite (J6 p Hp). done.
  - intros q Hq. rewrite Hc1. case_decide as Hqp.
    + subst. destruct Hq. apply elem_of_dom. rewrite Hp1, decide_True; eauto.
    + rewrite Nat.add_0_r. apply J5. intros Hin. apply Hq.
      apply elem_of_dom. rewrite Hp1, decide_False by done.
      by apply elem_of_dom.
  - intros q. rewrite Hp1, Hc1. case_decide as Hqp.
    + intros [= ->]. done.
    + intros Hq. rewrite Nat.add_0_r. by apply J6.
  - intros q o'. rewrite Hp1, Es. change (settled w1) with (settled w0).
    rewrite Hs0. case_decide as Hqp.
    + intros [= <-] _. subst. apply elem_of_app. right. apply list_elem_of_here.
    + intros Hq Ho'. apply elem_of_app. left. by apply J7.
Qed.

Lemma settledOnce_sendCommand sent this command parameters rnd w :
  generateMessageId rnd ∉ sent →
  settledOnce sent w →
  settledOnce (sent ++ [generateMessageId rnd])
    (sendCommand this command parameters rnd w).2.
Proof.
  intros Hnew HJ.
  pose proof HJ as (J1 & J2 & J3 & J4 & J5 & J6 & J7).
  set (id := generateMessageId rnd) in *.
  set (p := fresh (dom (promises w))).
  assert (p ∉ dom (promises w)) as Hfresh by apply is_fresh.
  assert (promises w !! p = None) as Hpn by (by apply not_elem_of_dom).
  assert (∀ this' id', handlerOf w this' id' ≠ Some p) as Hnoh.
  { intros this' id' Hh. destruct (J1 _ _ _ Hh) as (_ & Hp & _). congruence. }
  assert (sent ⊆ sent ++ [id]) as Hsub by (intros x ?; set_solver).
  destruct (ipcs w !! this) as [o|] eqn:Ho.
  2: { (* no such instance: the promise is created and nothing else *)
    unfold sendCommand. simpl. rewrite Ho. cbn [snd]. fold p.
    apply (settledOnce_more sent); [done|].
    split; [|split; [|split; [|split; [|split; [|split]]]]]; simpl.
    - intros this' id' q Hq. destruct (J1 _ _ _ Hq) as (Hs & Hp & Ht).
      split; [done|]. split; [|done]. rewrite lookup_insert_ne; [done|].
      intros <-. congruence.
    - done.
    - done.
    - done.
    - intros q Hq. apply J5. intros Hin. apply Hq. rewrite dom_insert.
      set_solver.
    - intros q. rewrite lookup_insert. case_decide; [subst|apply J6].
      intros _. by apply J5.
    - intros q o'. rewrite lookup_insert. case_decide; [by intros [= <-]|].
      apply J7. }
  destruct (decide (isConnected o = true ∧ is_Some (socket o)))
    as [[Hc [s Hs]]|Hdown].
  - destruct (sendCommand_connected this command parameters rnd w o s Ho Hc Hs)
      as (_ & E2 & E3 & E4 & E5 & _).
    fold p id in E2, E3, E4.
    set (w' := (sendCommand this command parameters rnd w).2) in *.
    assert (∀ this' id', handlerOf w' this' id' =
              if decide (this' = this ∧ id' = id) then Some p
              else handlerOf w this' id') as Hh'.
    { intros this' id'. rewrite <- (handlerOf_register _ _ _ _ _ _ _ Ho).
      unfold handlerOf. by rewrite E3. }
    assert (∀ this' id', handlerOf w this' id' ≠ None → id' ≠ id) as Hold.
    { intros this' id' Hh ->. destruct (handlerOf w this' id) as [q|] eqn:Hq;
        [|done]. destruct (J1 _ _ _ Hq) as (Hin & _). done. }
    unfold settledOnce, settleCount. rewrite E5.
    split; [|split; [|split; [|split; [|split; [|split]]]]].
    + intros this' id' q. rewrite Hh', E2, E4. case_decide as Hk.
      * destruct Hk as [-> ->]. intros [= <-].
        split; [apply elem_of_app; right; apply list_elem_of_here|].
        split; [apply lookup_insert_eq|].
        exists (fresh (dom (timers w))), command. apply lookup_insert_eq.
      * intros Hq. destruct (J1 _ _ _ Hq) as (Hin & Hp & t & c & Ht).
        split; [by apply Hsub|]. split.
        -- rewrite lookup_insert_ne; [done|]. intros <-. congruence.
        -- exists t, c. rewrite lookup_insert_ne; [done|]. intros <-.
           apply (is_fresh (dom (timers w))), elem_of_dom. eauto.
    + intros t this' id' c q. rewrite E4, lookup_insert.
      case_decide as Ht.
      * intros [= <- <- <- <-].
        split; [apply elem_of_app; right; apply list_elem_of_here|].
        intros q'. rewrite Hh', decide_True by done. congruence.
      * intros Hin. destruct (J2 _ _ _ _ _ Hin) as [Hs' Hq].
        split; [by apply Hsub|]. intros q'. rewrite Hh'.
        case_decide as Hk; [|apply Hq]. destruct Hk as [-> ->]. done.
    + intros this1 id1 this2 id2 q. rewrite !Hh'.
      repeat case_decide; intros; naive_solver.
    + apply J4.
    + intros q Hq. apply J5. intros Hin. apply Hq. rewrite E2, dom_insert.
      set_solver.
    + intros q. rewrite E2, lookup_insert. case_decide; [subst|apply J6].
      intros _. by apply J5.
    + intros q o'. rewrite E2, lookup_insert. case_decide; [by intros [= <-]|].
      apply J7.
  - assert (isConnected o = false ∨ socket o = None) as Hd.
    { destruct (isConnected o), (socket o); eauto.
      destruct Hdown. eauto. }
    destruct (sendCommand_down this command parameters rnd w o Ho Hd)
      as (_ & _ & E3 & E4 & E5 & _).
    assert (promises (sendCommand this command parameters rnd w).2
            = <[p := Rejected "Not connected to Unity Editor"]> (promises w))
      as E2.
    { unfold sendCommand. simpl. rewrite Ho.
      destruct (isConnected o), (socket o); try (by destruct Hdown; eauto);
        unfold settle; simpl; rewrite lookup_insert_eq; simpl;
        by rewrite insert_insert_eq. }
    assert ((sendCommand this command parameters rnd w).1 = p) as E1.
    { unfold sendCommand. simpl. rewrite Ho.
      by destruct (isConnected o), (socket o). }
    rewrite E1 in E3.
    apply (settledOnce_more sent); [done|].
    set (w' := (sendCommand this command parameters rnd w).2) in *.
    assert (∀ q, settleCount q w'
                 = (settleCount q w + if decide (q = p) then 1 else 0)%nat)
      as Hc.
    { intros q. unfold settleCount. rewrite E3.
      rewrite List.filter_app, length_app. f_equal. simpl.
      case_bool_decide; case_decide; simpl in *; congruence. }
    split; [|split; [|split; [|split; [|split; [|split]]]]].
    + intros this' id' q. rewrite (handlerOf_ipcs _ _ _ _ E4), E2, E5.
      intros Hq. destruct (J1 _ _ _ Hq) as (Hin & Hp & Ht).
      split; [done|]. split; [|done]. rewrite lookup_insert_ne; [done|].
      intros <-. congruence.
    + intros t this' id' c q. rewrite E5. intros Ht.
      destruct (J2 _ _ _ _ _ Ht) as [Hs' Hq]. split; [done|].
      intros q'. rewrite (handlerOf_ipcs _ _ _ _ E4). apply Hq.
    + intros this1 id1 this2 id2 q. rewrite !(handlerOf_ipcs _ _ _ _ E4).
      apply J3.
    + intros q. rewrite Hc. case_decide; [|rewrite Nat.add_0_r; apply J4].
      subst. by rewrite (J5 p Hfresh).
    + intros q Hq. rewrite Hc. case_decide as Hqp.
      * subst. destruct Hq. rewrite E2, dom_insert. set_solver.
      * rewrite Nat.add_0_r. apply J5. intros Hin. apply Hq.
        rewrite E2, dom_insert. set_solver.
    + intros q. rewrite E2, Hc, lookup_insert. case_decide as Hqp.
      * subst. rewrite decide_True by done. done.
      * rewrite decide_False by done. intros Hq. rewrite Nat.add_0_r.
        by apply J6.
    + intros q o'. rewrite E2, E3, lookup_insert. case_decide as Hqp.
      * intros [= <-] _. subst. apply elem_of_app. right.
        apply list_elem_of_here.
      * intros Hq Ho'. apply elem_of_app. left. by apply J7.
Qed.

Lemma settledOnce_handleIncomingMessage sent this data w :
  settledOnce sent w → settledOnce sent (handleIncomingMessage this data w).
Proof.
  intros HJ. destruct data as [m|]; [|done].
  destruct (msg_id m) as [id|] eqn:Hid.
  - destruct (decide (id = "")) as [->|Hne].
    + destruct (handleIncomingMessage_unmatched this (Some m) w)
        as (Ei & _ & Et & Ep & Es & _).
      { intros m' id' [= <-] Hid'. congruence. }
      eapply settledOnce_quiet; [|done]. by apply quiet_same.
    + destruct (handlerOf w this id) as [p|] eqn:Hh.
      * rewrite (handleIncomingMessage_matched _ _ _ _ _ Hid Hne Hh).
        by apply (settledOnce_settle sent this id p (Resolved m) w None).
      * destruct (handleIncomingMessage_unmatched this (Some m) w)
          as (Ei & _ & Et & Ep & Es & _).
        { intros m' id' [= <-] Hid'. congruence. }
        eapply settledOnce_quiet; [|done]. by apply quiet_same.
  - destruct (handleIncomingMessage_unmatched this (Some m) w)
      as (Ei & _ & Et & Ep & Es & _).
    { intros m' id' [= <-] Hid'. congruence. }
    eapply settledOnce_quiet; [|done]. by apply quiet_same.
Qed.

Lemma settledOnce_fire sent t callback w :
  timers w !! t = Some callback →
  settledOnce sent w → settledOnce sent (fire callback (clearTimeout t w)).
Proof.
  intros Ht HJ. destruct callback as [this|this id command p|this]; simpl.
  - eapply settledOnce_quiet; [|done].
    eapply quiet_trans; [|apply quiet_onConnectTimeout].
    apply quiet_clearTimeout. intros cb Hcb. rewrite Ht in Hcb.
    injection Hcb as <-. by intros [].
  - unfold onCommandTimeout.
    change (handlerOf (clearTimeout t w) this id) with (handlerOf w this id).
    destruct (handlerOf w this id) as [q|] eqn:Hh.
    + pose proof HJ as (_ & J2 & _).
      destruct (J2 _ _ _ _ _ Ht) as [_ Hq]. rewrite (Hq q Hh) in Hh.
      apply (settledOnce_settle sent this id p _ w (Some t)); try done.
      intros t' [= <-]. eauto.
    + destruct HJ as (J1 & J2 & J3 & J4).
      split; [|split; [|done]].
      * intros this' id' q Hq. change (handlerOf w this' id' = Some q) in Hq.
        destruct (J1 _ _ _ Hq) as (Hs & Hp & t' & c & Ht').
        split; [done|]. split; [done|]. exists t', c.
        unfold clearTimeout; simpl. rewrite lookup_delete_ne; [done|].
        intros ->. rewrite Ht in Ht'. injection Ht' as -> -> ->. congruence.
      * intros t' this' id' c q. unfold clearTimeout; simpl.
        intros [_ Ht']%lookup_delete_Some. by apply (J2 t' _ _ c).
  - eapply settledOnce_quiet; [|done].
    eapply quiet_trans; [|apply quiet_onReconnectTimer].
    apply quiet_clearTimeout. intros cb Hcb. rewrite Ht in Hcb.
    injection Hcb as <-. by intros [].
Qed.

Lemma settledOnce_ipcStep sent e w w' :
  ipcStep e w = Some w' →
  (∀ id, id ∈ sentIds [e] → id ∉ sent) →
  reconnectInv w → settledOnce sent w →
  settledOnce (sent ++ sentIds [e]) w'.
Proof.
  intros Hstep Hnew Hrec HJ.
  assert (∀ w1, quiet w w1 → sentIds [e] = [] →
                settledOnce (sent ++ sentIds [e]) w1) as Hquiet.
  { intros w1 Hq ->. rewrite app_nil_r. by eapply settledOnce_quiet. }
  destruct e; simpl in Hstep.
  - injection Hstep as <-. by apply Hquiet; [apply quiet_newUnityIPC|].
  - injection Hstep as <-. by apply Hquiet; [apply quiet_connect|].
  - injection Hstep as <-. by apply Hquiet; [apply quiet_disconnect|].
  - injection Hstep as <-. cbn. apply settledOnce_sendCommand; [|done].
    apply Hnew. cbn. apply list_elem_of_here.
  - destruct (sockets w !! s) as [sk|]; simpl in Hstep; [|done].
    destruct (state sk); try done. injection Hstep as <-.
    apply Hquiet; [|done].
    eapply quiet_trans; [|apply quiet_onConnect]. by apply quiet_same.
  - destruct (sockets w !! s) as [sk|]; simpl in Hstep; [|done].
    destruct (state sk); try done. injection Hstep as <-.
    cbn. rewrite app_nil_r. by apply settledOnce_handleIncomingMessage.
  - destruct (sockets w !! s) as [sk|]; simpl in Hstep; [|done].
    destruct (state sk); try done; injection Hstep as <-;
      (apply Hquiet; [|done]);
      (eapply quiet_trans; [|by apply quiet_updateIpc]);
      by apply quiet_same.
  - destruct (sockets w !! s) as [sk|]; simpl in Hstep; [|done].
    destruct (state sk); try done; injection Hstep as <-;
      (apply Hquiet; [|done]);
      (eapply quiet_trans; [|apply quiet_onClose]);
      by apply quiet_same.
  - destruct (timers w !! t) as [callback|] eqn:Ht; simpl in Hstep; [|done].
    injection Hstep as <-. cbn. rewrite app_nil_r.
    by apply settledOnce_fire.
  - injection Hstep as <-. by apply Hquiet; [apply quiet_same|].
Qed.

Lemma sentIds_cons e es : sentIds (e :: es) = sentIds [e] ++ sentIds es.
Proof. unfold sentIds. cbn [mbind list_bind]. by rewrite app_nil_r. Qed.

Lemma settledOnce_ipcRun es : ∀ sent w w',
  ipcRun es w = Some w' → NoDup (sent ++ sentIds es) →
  reconnectInv w → settledOnce sent w →
  settledOnce (sent ++ sentIds es) w'.
Proof.
  induction es as [|e es IH]; intros sent w w' Hrun Hnd Hrec HJ.
  - injection Hrun as <-. by rewrite app_nil_r.
  - simpl in Hrun. destruct (ipcStep e w) as [w1|] eqn:He; [|done].
    simpl in Hrun. rewrite sentIds_cons, app_assoc in Hnd |- *.
    apply (IH _ w1); [done|done|by eapply reconnectInv_ipcStep|].
    apply (settledOnce_ipcStep _ _ w); try done.
    intros id Hin Hs. apply NoDup_app in Hnd as (Hnd & _).
    apply NoDup_app in Hnd as (_ & Hdis & _). by apply (Hdis id).
Qed.

(** X22. When the ids drawn for the requests of a run are pairwise
    distinct, resolve or reject is called at most once for every promise:
    a promise that is pending was never settled, and a settled one was
    settled by exactly one call, which gave it the outcome it shows.  A
    registered handler always belongs to a promise that is still pending
    and has the timer of its request pending, so no handler stays behind
    for good. *)
Theorem promise_settled_once (platform : string) (es : list IpcStep)
    (w : World)
    (Hrun : ipcRun es (initial platform) = Some w)
    (Hids : NoDup (sentIds es)) :
  (∀ p, (settleCount p w ≤ 1)%nat)
  ∧ (∀ p, promises w !! p = Some Pending → settleCount p w = 0%nat)
  ∧ (∀ p o, promises w !! p = Some o → o ≠ Pending →
       settleCount p w = 1%nat ∧ (p, o) ∈ settled w)
  ∧ (∀ this id p, handlerOf w this id = Some p →
       promises w !! p = Some Pending
       ∧ ∃ t command, timers w !! t = Some (CommandTimeout this id command p)).
Proof.
  assert (settledOnce ([] ++ sentIds es) w)
    as (J1 & J2 & J3 & J4 & J5 & J6 & J7).
  { apply (settledOnce_ipcRun es [] (initial platform)); try done.
    unfold settledOnce, handlerOf, settleCount; simpl.
    split; [intros ? ? ?; by rewrite lookup_empty|].
    split; [intros ? ? ? ? ?; by rewrite lookup_empty|].
    split; [intros ? ? ? ? ?; by rewrite lookup_empty|].
    split; [intros; lia|]. split; [done|].
    split; [done|]. intros ? ?. by rewrite lookup_empty. }
  split; [done|]. split; [done|]. split.
  - intros p o Hp Ho. pose proof (J7 p o Hp Ho) as Hin. split; [|done].
    pose proof (J4 p) as Hle.
    assert (settleCount p w ≠ 0)%nat; [|lia].
    unfold settleCount. intros Hz. apply length_zero_iff_nil in Hz.
    assert (In (p, o) (List.filter (λ x, bool_decide (x.1 = p)) (settled w)))
      as Hf.
    { apply List.filter_In. split; [by apply list_elem_of_In|].
      by apply bool_decide_eq_true. }
    by rewrite Hz in Hf.
  - intros this id p Hh. destruct (J1 this id p Hh) as (_ & Hp & Ht). done.
Qed.

End SettleFacts.

(** witness of X22: the sample run with one ping in flight *)
Lemma promise_settled_once_witness :
  (Core.settleCount 0 Core.worldPingInFlight ≤ 1)%nat.
Proof.
  refine (proj1
    (promise_settled_once "linux"
       [Core.New "/proj/A"; Core.Connect 0; Core.SocketConnects 0;
        Core.SendCommand 0 "ping" ∅ [1; 2; 3; 4; 5; 6; 7; 8]%N]
       Core.worldPingInFlight _ _) 0%nat).
  - by vm_compute.
  - vm_compute. apply NoDup_singleton.
Defined.
(** ** The project path of a command line *)

Section ExtractFacts.
Import JsString Detector.

Lemma stripPrefix_flag x :
  stripPrefix "-projectPath" ("-projectPath" +:+ x) = Some x.
Proof. reflexivity. Qed.

(** A prefix [p] of [u +:+ y] lies within [u], or [u] is its beginning
    and [y] goes on with the rest of it. *)
Lemma stripPrefix_app p : ∀ u y r,
  stripPrefix p (u +:+ y) = Some r →
  is_Some (stripPrefix p u)
  ∨ ∃ p2, p = u +:+ p2 ∧ stripPrefix p2 y = Some r.
Proof.
  induction p as [|a p IH]; intros u y r.
  - left. destruct u; simpl; eauto.
  - destruct u as [|b u]; simpl.
    + intros H. right. by exists (String a p).
    + destruct (Ascii.eqb a b) eqn:E; [|done].
      apply Ascii.eqb_eq in E as ->. intros H.
      destruct (IH u y r H) as [?|(p2 & -> & H2)]; [by left|right].
      by exists p2.
Qed.

Lemma append_empty s : s +:+ "" = s.
Proof.
  induction s as [|c s IH]; [done|].
  change (String c (s +:+ "") = String c s). by rewrite IH.
Qed.

Lemma append_assoc s1 s2 s3 : (s1 +:+ s2) +:+ s3 = s1 +:+ (s2 +:+ s3).
Proof.
  induction s1 as [|c s1 IH]; [done|].
  change (String c ((s1 +:+ s2) +:+ s3) = String c (s1 +:+ (s2 +:+ s3))).
  by rewrite IH.
Qed.

(** The flag holds one hyphen, at its start. *)
Lemma flag_single_dash u v : "-projectPath" = u +:+ String "-" v → u = "".
Proof.
  intros H. destruct u as [|c u]; [done|]. exfalso.
  simpl in H. injection H as _ H.
  repeat (destruct u as [|? u]; simpl in H;
          [discriminate H|injection H as _ H]).
  destruct u; discriminate H.
Qed.

(** The flag does not overlap itself: where it starts inside [u] and
    [u] is followed by the flag, [u] holds all of it. *)
Lemma stripPrefix_straddle u x :
  u ≠ "" → is_Some (stripPrefix "-projectPath" (u +:+ ("-projectPath" +:+ x))) →
  startsWith "-projectPath" u = true.
Proof.
  intros Hu [r Hr]. unfold startsWith. apply bool_decide_eq_true.
  destruct (stripPrefix_app _ _ _ _ Hr) as [?|(p2 & Hp & H2)]; [done|].
  destruct p2 as [|a p2].
  - rewrite append_empty in Hp. subst u. cbn. eauto.
  - exfalso. revert H2.
    change ("-projectPath" +:+ x) with (String "-" ("projectPath" +:+ x)).
    cbn [stripPrefix]. destruct (Ascii.eqb a "-") eqn:E; [|done].
    apply Ascii.eqb_eq in E as ->. intros _.
    by apply Hu, (flag_single_dash u p2).
Qed.

Lemma regexMatch_skip pre x :
  includes "-projectPath" pre = false →
  regexMatch (pre +:+ ("-projectPath" +:+ x))
  = regexMatch ("-projectPath" +:+ x).
Proof.
  induction pre as [|c pre IH]; [done|].
  cbn [includes]. intros [Hs Hi]%orb_false_elim.
  change (String c pre +:+ ("-projectPath" +:+ x))
    with (String c (pre +:+ ("-projectPath" +:+ x))).
  cbn [regexMatch].
  assert (matchHere (String c (pre +:+ ("-projectPath" +:+ x))) = None) as ->.
  { unfold matchHere.
    destruct (stripPrefix "-projectPath"
                (String c (pre +:+ ("-projectPath" +:+ x)))) as [r|] eqn:Hr;
      [|done].
    exfalso.
    assert (startsWith "-projectPath" (String c pre) = true) as Habs.
    { apply (stripPrefix_straddle (String c pre) x); [done|].
      change (String c pre +:+ ("-projectPath" +:+ x))
        with (String c (pre +:+ ("-projectPath" +:+ x))).
      rewrite Hr. eauto. }
    congruence. }
  by apply IH.
Qed.

(** A run of characters that satisfy [f], followed by a string that does
    not go on with one. *)
Lemma takeWhile_run f run r :
  takeWhile f run = run → takeWhile f r = "" →
  takeWhile f (run +:+ r) = run ∧ dropWhile f (run +:+ r) = r.
Proof.
  intros Hrun Hr. induction run as [|c run IH]; simpl in *.
  - split; [done|]. destruct r as [|c r]; [done|]. simpl in *.
    by destruct (f c).
  - destruct (f c); [|done]. injection Hrun as Hrun.
    destruct (IH Hrun) as [-> ->]. done.
Qed.

Definition chars (s : string) : list ascii := String.list_ascii_of_string s.

Lemma takeWhile_all f s :
  Forall (λ c, f c = true) (chars s) → takeWhile f s = s.
Proof.
  induction s as [|c s IH]; [done|]. unfold chars; simpl.
  intros [Hc Hs]%Forall_cons. rewrite Hc. f_equal. by apply IH.
Qed.

Lemma isWhiteSpace_dquote : isWhiteSpace dquote = false.
Proof. by vm_compute. Qed.

(** X23. Where the flag occurs first in a command line, followed by white
    space and a value that holds no quote and does not start with white
    space: when the value is not quoted, everything up to the end of the
    command line is taken for the path, further arguments included; when
    it stands between quotes, the text between them is.  Either way the
    result is trimmed. *)
Theorem extractProjectPath_forms (pre ws value post : string)
    (Hpre : includes "-projectPath" pre = false)
    (Hws : ws ≠ "" ∧ Forall (λ c, isWhiteSpace c = true) (chars ws))
    (Hvalue : ∃ c s, value = String c s ∧ isWhiteSpace c = false)
    (Hquote : Forall (λ c, c ≠ dquote) (chars value)) :
  extractProjectPath (pre +:+ ("-projectPath" +:+ (ws +:+ value)))
  = Some (trim value)
  ∧ extractProjectPath
      (pre +:+ ("-projectPath" +:+ (ws +:+ (quoted value +:+ post))))
    = Some (trim value).
Proof.
  destruct Hws as [Hne Hws]. destruct Hvalue as (c & s & -> & Hc).
  set (value := String c s) in *.
  assert (takeWhile isWhiteSpace ws = ws) as Hrun by (by apply takeWhile_all).
  assert (Forall (λ c, notQuote c = true) (chars value)) as Hnq.
  { eapply Forall_impl; [exact Hquote|]. intros a Ha. unfold notQuote.
    apply negb_true_iff. by apply Ascii.eqb_neq. }
  apply Forall_cons in Hquote as [Hcq _].
  assert (Ascii.eqb c dquote = false) as Hcq' by (by apply Ascii.eqb_neq).
  unfold extractProjectPath. rewrite !regexMatch_skip by done. split.
  - assert (matchHere ("-projectPath" +:+ (ws +:+ value)) = Some value) as Hm.
    { unfold matchHere. rewrite stripPrefix_flag. cbv zeta.
      destruct (takeWhile_run isWhiteSpace ws value Hrun) as [-> ->].
      { unfold value. simpl. by rewrite Hc. }
      rewrite bool_decide_false by done.
      assert (match value with
              | String c0 rest' =>
                  if Ascii.eqb c0 dquote then rest' else value
              | EmptyString => value
              end = value) as ->.
      { unfold value. by rewrite Hcq'. }
      rewrite (takeWhile_all _ _ Hnq).
      by rewrite bool_decide_true. }
    remember ("-projectPath" +:+ (ws +:+ value)) as line eqn:Hl.
    assert (regexMatch line = Some value) as ->; [|done].
    destruct line; [done|]. cbn [regexMatch]. by rewrite Hm.
  - assert (matchHere ("-projectPath" +:+ (ws +:+ (quoted value +:+ post)))
            = Some value) as Hm.
    { unfold matchHere. rewrite stripPrefix_flag. cbv zeta.
      destruct (takeWhile_run isWhiteSpace ws (quoted value +:+ post) Hrun)
        as [-> ->].
      { unfold quoted. by vm_compute. }
      rewrite bool_decide_false by done.
      unfold quoted.
      assert (match (String dquote value +:+ String dquote "") +:+ post with
              | String c0 rest' =>
                  if Ascii.eqb c0 dquote then rest'
                  else (String dquote value +:+ String dquote "") +:+ post
              | EmptyString => (String dquote value +:+ String dquote "") +:+ post
              end = value +:+ (String dquote "" +:+ post)) as ->.
      { change ((String dquote value +:+ String dquote "") +:+ post)
          with (String dquote ((value +:+ String dquote "") +:+ post)).
        cbv beta iota. rewrite Ascii.eqb_refl. apply append_assoc. }
      destruct (takeWhile_run notQuote value (String dquote "" +:+ post))
        as [Hg _].
      { by apply takeWhile_all. }
      { by vm_compute. }
      rewrite Hg. by rewrite bool_decide_true. }
    remember ("-projectPath" +:+ (ws +:+ (quoted value +:+ post))) as line
      eqn:Hl.
    assert (regexMatch line = Some value) as ->; [|done].
    destruct line; [done|]. cbn [regexMatch]. by rewrite Hm.
Qed.

End ExtractFacts.

(** witness of X23: an editor started with a path and a further flag *)
Lemma extractProjectPath_forms_witness :
  Detector.extractProjectPath "/opt/Unity -projectPath /proj/A -batchmode"
  = Some "/proj/A -batchmode".
Proof.
  refine (proj1 (extractProjectPath_forms "/opt/Unity " " "
                   "/proj/A -batchmode" "" _ _ _ _)).
  - by vm_compute.
  - split; [done|]. repeat constructor.
  - eexists _, _. split; [reflexivity|]. by vm_compute.
  - repeat constructor; by vm_compute.
Defined.
(** ** The editor PID of a project *)

Section PidFacts.
Import Core.
Import Detector (Completion, Return, Throw).


End PidFacts.

(** ** Initialising the registry *)

Section InitializeFacts.
Import Core Tools.
Import Detector (Completion, Return, Throw).
Import UnityToolRegistry.

Lemma registerTool_taken tool handler reg :
  is_Some (getTool (tool_name tool) reg) →
  registerTool tool handler reg
  = (Throw ("Tool already registered: " +:+ tool_name tool), reg).
Proof. intros H. unfold registerTool. by rewrite bool_decide_true. Qed.

Lemma registerTool_free tool handler reg :
  getTool (tool_name tool) reg = None →
  registerTool tool handler reg
  = (Return (),
     {| tools := tools reg ++ [(tool_name tool, tool)];
        toolHandlers := mapSet (tool_name tool) handler (toolHandlers reg);
        connectionTool := connectionTool reg;
        statusTool := statusTool reg |}).
Proof.
  intros H. unfold registerTool. unfold getTool in H.
  rewrite bool_decide_false by (rewrite H; by intros [? ?]).
  by rewrite (mapSet_fresh _ _ _ H).
Qed.

Lemma mapGet_app_ne {V} k k' (v : V) m :
  k ≠ k' → mapGet k' (m ++ [(k, v)]) = mapGet k' m.
Proof.
  intros Hne. induction m as [|[k0 v0] m IH]; simpl.
  - destruct (String.eqb_spec k' k); congruence.
  - by rewrite IH.
Qed.

Lemma mapGet_app_last {V} k (v : V) m : is_Some (mapGet k (m ++ [(k, v)])).
Proof.
  induction m as [|[k0 v0] m IH]; simpl.
  - rewrite String.eqb_refl. by eexists.
  - destruct (String.eqb k k0); [by eexists|done].
Qed.

(** X26. initialize registers the connection tool and then the status
    tool, and stops at the first name that is taken.  With unity_connect
    taken it throws and changes nothing; with unity_connect free and
    unity_status taken it throws after it has registered unity_connect
    with a new manager, and leaves that registration behind; with both
    free it appends the two tools in this order, each with a new manager,
    and a second initialize then throws and changes nothing. *)
Theorem initialize_stops_at_taken_name (reg : Registry) :
  let connect := UnityConnectionTool.getTool in
  let status := UnityStatusTool.getTool in
  let reg' := (initialize reg).2 in
  (is_Some (getTool "unity_connect" reg) →
     initialize reg
     = (Throw "Tool already registered: unity_connect", reg))
  ∧ (getTool "unity_connect" reg = None →
     is_Some (getTool "unity_status" reg) →
     (initialize reg).1 = Throw "Tool already registered: unity_status"
     ∧ getAllTools reg' = getAllTools reg ++ [connect]
     ∧ mapGet "unity_connect" (toolHandlers reg') = Some ConnectionToolExecute
     ∧ mapGet "unity_status" (toolHandlers reg')
       = mapGet "unity_status" (toolHandlers reg)
     ∧ connectionTool reg' = initial (platform (connectionTool reg))
     ∧ statusTool reg' = statusTool reg)
  ∧ (getTool "unity_connect" reg = None →
     getTool "unity_status" reg = None →
     (initialize reg).1 = Return ()
     ∧ getAllTools reg' = getAllTools reg ++ [connect; status]
     ∧ mapGet "unity_connect" (toolHandlers reg') = Some ConnectionToolExecute
     ∧ mapGet "unity_status" (toolHandlers reg') = Some StatusToolExecute
     ∧ connectionTool reg' = initial (platform (connectionTool reg))
     ∧ statusTool reg' = initial (platform (statusTool reg))
     ∧ initialize reg'
       = (Throw "Tool already registered: unity_connect", reg')).
Proof.
  intros connect status reg'.
  assert (tool_name connect = "unity_connect") as Nc by done.
  assert (tool_name status = "unity_status") as Ns by done.
  split; [|split].
  - intros Htaken. unfold initialize, registerBuiltinTools.
    fold connect. rewrite registerTool_taken by (by rewrite Nc).
    by rewrite Nc.
  - intros Hfree Htaken. subst reg'.
    unfold initialize, registerBuiltinTools. fold connect status.
    rewrite (registerTool_free connect) by (by rewrite Nc).
    rewrite (registerTool_taken status).
    2:{ rewrite Ns. unfold getTool in *. cbn [tools].
        rewrite Nc. by rewrite mapGet_app_ne. }
    rewrite Nc, Ns. cbn [fst snd tools toolHandlers connectionTool statusTool].
    split; [done|]. split.
    { unfold getAllTools. cbn [tools]. by rewrite fmap_app. }
    split; [by apply mapGet_mapSet|].
    split; [by apply mapGet_mapSet_ne|]. done.
  - intros Hc Hs. subst reg'.
    unfold initialize, registerBuiltinTools. fold connect status.
    rewrite (registerTool_free connect) by (by rewrite Nc).
    rewrite (registerTool_free status).
    2:{ rewrite Ns. unfold getTool in *. cbn [tools].
        rewrite Nc. by rewrite mapGet_app_ne. }
    rewrite Nc, Ns. cbn [fst snd tools toolHandlers connectionTool statusTool].
    split; [done|]. split.
    { unfold getAllTools. cbn [tools]. rewrite !fmap_app, <- app_assoc. done. }
    split.
    { rewrite mapGet_mapSet_ne by done. by apply mapGet_mapSet. }
    split; [by apply mapGet_mapSet|]. split; [done|]. split; [done|].
    rewrite registerTool_taken; [by rewrite Nc|].
    rewrite Nc. unfold getTool. cbn [tools].
    rewrite mapGet_app_ne by done.
    apply mapGet_app_last.
Qed.

End InitializeFacts.

(** witness of X26: unity_status is registered by hand before the
    registry is initialised *)
Lemma initialize_stops_at_taken_name_witness :
  let reg :=
    (Tools.UnityToolRegistry.registerTool Tools.UnityStatusTool.getTool
       (Tools.UnityToolRegistry.External
          (λ _, Detector.Return Core.JUndefined))
       (Tools.UnityToolRegistry.empty "linux")).2 in
  (Tools.UnityToolRegistry.initialize reg).1
  = Detector.Throw "Tool already registered: unity_status"
  ∧ Tools.UnityToolRegistry.getAllTools
      (Tools.UnityToolRegistry.initialize reg).2
    = [Tools.UnityStatusTool.getTool; Tools.UnityConnectionTool.getTool].
Proof.
  intros reg.
  destruct (initialize_stops_at_taken_name reg) as (_ & H & _).
  destruct H as (H1 & H2 & _).
  - reflexivity.
  - vm_compute. by eexists.
  - split; [exact H1|exact H2].
Defined.
